(** * Similarity pipeline of the plagiarism detector

    Shallow embedding of [tools/normalization.py], of its older copy
    [tools_backup/normalization.py] and of [tools/normalization_claude.py]:
    comment removal, tokenizer, normalizer, k-shingle fingerprinting,
    Jaccard score, the repository-level aggregate and the runs that chain
    them.

    Conventions.
    - A Python [str] is a [string]; a character is its code point, so the
      texts covered are those with code points below 256.  On that range
      the regex class [\d] is exactly ['0'..'9'].
    - A Python [set] of digests is a [gset string]; a [dict] that is only
      iterated is the list of its items in insertion order.
    - The scores are modelled twice.  In the module [B64] a Python
      [float] is a binary64 number and every operation rounds as the code
      does; the values the code returns are stated there.  Outside it a
      [float] is read as the exact rational it denotes ([Q]) and
      [int / int] as the quotient of the two integers; that reading is
      used for the properties rounding does not affect (bounds, symmetry,
      equal and extreme scores).
    - [hashlib.sha1(...).hexdigest()] is a parameter of the development. *)

From Stdlib Require Import Ascii String QArith Qminmax DecimalString DecimalN SpecFloat.
From stdpp Require Import gmap strings list.

#[local] Set Warnings "-clear-no-such-hyp".

Local Open Scope string_scope.
Local Open Scope Z_scope.
Local Open Scope list_scope.

(** ** Python exceptions raised by the modelled code *)

Inductive exn : Type :=
| ValueError (msg : string)
| ZeroDivisionError
| OverflowError.

Inductive result (A : Type) : Type :=
| Ok (a : A)
| Raise (e : exn).
Arguments Ok {A} a.
Arguments Raise {A} e.

#[global] Instance result_bind : MBind result := fun A B f r =>
  match r with
  | Ok a => f a
  | Raise e => Raise e
  end.

(** ** Strings and characters *)

Definition dquote : ascii := "034"%char.
Definition squote : ascii := "'"%char.
Definition backtick : ascii := "`"%char.
Definition backslash : ascii := "\"%char.
Definition newline : ascii := "010"%char.

Definition code (c : ascii) : N := N_of_ascii c.

Definition in_range (lo hi : N) (c : ascii) : bool :=
  ((lo <=? code c) && (code c <=? hi))%N.

(** [\d] on code points below 256. *)
Definition is_digit (c : ascii) : bool := in_range 48 57 c.

(** [[A-Za-z_]] *)
Definition is_ident_start (c : ascii) : bool :=
  in_range 65 90 c || in_range 97 122 c || Ascii.eqb c "_".

(** [[A-Za-z0-9_]] *)
Definition is_ident_char (c : ascii) : bool :=
  in_range 65 90 c || in_range 97 122 c || in_range 48 57 c || Ascii.eqb c "_".

(** [\s] and [str.isspace] on code points below 256. *)
Definition is_space (c : ascii) : bool :=
  in_range 9 13 c || in_range 28 32 c || (code c =? 133)%N || (code c =? 160)%N.

Fixpoint str_take (n : nat) (s : string) : string :=
  match n, s with
  | S n', String c s' => String c (str_take n' s')
  | _, _ => EmptyString
  end.

Fixpoint str_drop (n : nat) (s : string) : string :=
  match n, s with
  | S n', String _ s' => str_drop n' s'
  | _, _ => s
  end.

(** Length of the longest prefix whose characters satisfy [p]: a greedy
    [[class]*]. *)
Fixpoint span (p : ascii → bool) (s : string) : nat :=
  match s with
  | String c s' => if p c then S (span p s') else O
  | EmptyString => O
  end.

Fixpoint str_forall (p : ascii → bool) (s : string) : bool :=
  match s with
  | String c s' => p c && str_forall p s'
  | EmptyString => true
  end.

Fixpoint str_last (s : string) : option ascii :=
  match s with
  | EmptyString => None
  | String c EmptyString => Some c
  | String _ s' => str_last s'
  end.

(** [s.startswith(p)] *)
Definition startswith (p s : string) : bool := String.prefix p s.

(** [tok.startswith(c)] and [tok.endswith(c)] for a one-character [c]. *)
Definition starts_with_char (c : ascii) (tok : string) : bool :=
  match tok with
  | String a _ => Ascii.eqb a c
  | EmptyString => false
  end.

Definition ends_with_char (c : ascii) (tok : string) : bool :=
  match str_last tok with
  | Some a => Ascii.eqb a c
  | None => false
  end.

(** [sep.join(l)] *)
Fixpoint join (sep : string) (l : list string) : string :=
  match l with
  | [] => ""
  | [x] => x
  | x :: r => x +:+ sep +:+ join sep r
  end.

(** ** Tokenizer

    Every alternative of [token_pattern] is a function that, given the
    text at the current position, returns the length of its match there.
    The alternatives are written so that their first characters decide
    each repetition, so the greedy scan is the only way to match and the
    backtracking of [re] never finds another one. *)

Definition matcher := string → option nat.

(** Offset just past the first ["*/"]: the lazy [[\s\S]*?\*/]. *)
Fixpoint find_close (s : string) : option nat :=
  match s with
  | EmptyString => None
  | String c s' =>
      if Ascii.eqb c "*" && starts_with_char "/" s' then Some 2%nat
      else S <$> find_close s'
  end.

(** [/\*[\s\S]*?\*/] *)
Definition m_block_comment : matcher := fun s =>
  match s with
  | String "/" (String "*" r) => (fun n => S (S n)) <$> find_close r
  | _ => None
  end.

(** [//.*] where [.] is any character but the newline. *)
Definition m_line_comment : matcher := fun s =>
  match s with
  | String "/" (String "/" r) =>
      Some (S (S (span (fun c => negb (Ascii.eqb c newline)) r)))
  | _ => None
  end.

(** The body and closing delimiter of a quoted literal, after the opening
    one.  [esc] holds after a backslash: the next character is taken by
    [\\.] unless it is a newline.  [nl_ok] tells whether a bare newline
    may occur in the body (template literals: yes; quoted strings: no). *)
Fixpoint quoted_body (q : ascii) (nl_ok esc : bool) (s : string) : option nat :=
  match s with
  | EmptyString => None
  | String c s' =>
      if esc then
        if Ascii.eqb c newline then None
        else S <$> quoted_body q nl_ok false s'
      else if Ascii.eqb c q then Some 1%nat
      else if Ascii.eqb c backslash then S <$> quoted_body q nl_ok true s'
      else if Ascii.eqb c newline && negb nl_ok then None
      else S <$> quoted_body q nl_ok false s'
  end.

Definition m_quoted (q : ascii) (nl_ok : bool) : matcher := fun s =>
  match s with
  | String c r => if Ascii.eqb c q then S <$> quoted_body q nl_ok false r else None
  | EmptyString => None
  end.

(** The template literal: a backtick, any run of escape pairs (a backslash
    and a character that is not a newline) and of characters other than
    the backslash and the backtick, and a backtick. *)
Definition m_template : matcher := m_quoted backtick true.
(** The double-quoted string: the shape of the single-quoted one below
    with the double quote as delimiter. *)
Definition m_dq_string : matcher := m_quoted dquote false.
(** The single-quoted string: a quote, any run of escape pairs and of
    characters other than the quote, the backslash and the newline, and a
    quote. *)
Definition m_sq_string : matcher := m_quoted squote false.

(** [[A-Za-z_][A-Za-z0-9_]*] *)
Definition m_ident : matcher := fun s =>
  match s with
  | String c r => if is_ident_start c then Some (S (span is_ident_char r)) else None
  | EmptyString => None
  end.

(** [\d+\.\d+] *)
Definition m_decimal : matcher := fun s =>
  match span is_digit s with
  | O => None
  | n =>
      match str_drop n s with
      | String "." r =>
          match span is_digit r with
          | O => None
          | m => Some (n + 1 + m)%nat
          end
      | _ => None
      end
  end.

(** [\d+] *)
Definition m_integer : matcher := fun s =>
  match span is_digit s with
  | O => None
  | n => Some n
  end.

(** [==|!=|<=|>=|\+\+|--|&&|\|\||->|=>|:=] *)
Definition multi_char_ops : list string :=
  ["=="; "!="; "<="; ">="; "++"; "--"; "&&"; "||"; "->"; "=>"; ":="].

Definition m_multi_op : matcher := fun s =>
  if existsb (fun op => startswith op s) multi_char_ops then Some 2%nat else None.

(** The characters of the single-character symbol class, in the order of
    the source; the double quote among them is given by its code. *)
Definition symbol_chars : string :=
  "~!%^&*()+={}[]|\:;" +:+ String dquote "'<>,.?/-".

Fixpoint str_mem (c : ascii) (s : string) : bool :=
  match s with
  | String a s' => Ascii.eqb a c || str_mem c s'
  | EmptyString => false
  end.

Definition is_symbol (c : ascii) : bool := str_mem c symbol_chars.

Definition m_symbol : matcher := fun s =>
  match s with
  | String c _ => if is_symbol c then Some 1%nat else None
  | EmptyString => None
  end.

(** Ordered alternation [a|b|...]: the first alternative that matches. *)
Fixpoint first_match (alts : list matcher) (s : string) : option nat :=
  match alts with
  | [] => None
  | m :: rest =>
      match m s with
      | Some n => Some n
      | None => first_match rest s
      end
  end.

(** [token_pattern] of tools/normalization.py. *)
Definition token_pattern : list matcher :=
  [m_block_comment; m_line_comment; m_template; m_dq_string; m_sq_string;
   m_ident; m_decimal; m_integer; m_multi_op; m_symbol].

(** [token_pattern] of tools_backup/normalization.py. *)
Definition token_pattern_backup : list matcher :=
  [m_dq_string; m_sq_string; m_ident; m_decimal; m_integer; m_multi_op; m_symbol].

(** [pattern.findall(code)]: scan left to right; where the pattern
    matches, the match is a token and the scan resumes after it ([skip]
    counts the characters of the current match still to pass); where it
    does not, the scan moves one character on.  An empty match would be
    an empty token; no alternative of the two patterns produces one
    ([token_matchers_nonempty]). *)
Fixpoint findall_from (pat : list matcher) (skip : nat) (s : string) : list string :=
  match s with
  | EmptyString => []
  | String _ s' =>
      match skip with
      | S k => findall_from pat k s'
      | O =>
          match first_match pat s with
          | Some (S n) => str_take (S n) s :: findall_from pat n s'
          | Some O => "" :: findall_from pat 0 s'
          | None => findall_from pat 0 s'
          end
      end
  end.

Definition findall (pat : list matcher) (code : string) : list string :=
  findall_from pat 0 code.

(** [_comment_re = ^(/\*|\s*//)], used with [.match]. *)
Definition comment_re_match (t : string) : bool :=
  startswith "/*" t || startswith "//" (str_drop (span is_space t) t).

(** [tokenize] of tools/normalization.py. *)
Definition tokenize (code : string) : list string :=
  filter (fun t => t ≠ "" ∧ comment_re_match t = false) (findall token_pattern code).

(** [tokenize] of tools_backup/normalization.py: keeps the tokens [t] with
    [t.strip()] non-empty. *)
Definition strip_nonempty (t : string) : bool :=
  negb (str_forall is_space t).

Definition tokenize_backup (code : string) : list string :=
  filter (fun t => strip_nonempty t = true) (findall token_pattern_backup code).

(** ** Normalizer *)

Definition JAVA_KEYWORDS : list string :=
  ["abstract"; "assert"; "boolean"; "break"; "byte"; "case"; "catch"; "char";
   "class"; "const"; "continue"; "default"; "do"; "double"; "else"; "enum";
   "extends"; "final"; "finally"; "float"; "for"; "goto"; "if"; "implements";
   "import"; "instanceof"; "int"; "interface"; "long"; "native"; "new";
   "package"; "private"; "protected"; "public"; "return"; "short"; "static";
   "strictfp"; "super"; "switch"; "synchronized"; "this"; "throw"; "throws";
   "transient"; "try"; "void"; "volatile"; "while"; "true"; "false"; "null"].

Definition JS_KEYWORDS : list string :=
  ["break"; "case"; "catch"; "class"; "const"; "continue"; "debugger";
   "default"; "delete"; "do"; "else"; "export"; "extends"; "finally"; "for";
   "function"; "if"; "import"; "in"; "instanceof"; "let"; "new"; "return";
   "super"; "switch"; "this"; "throw"; "try"; "typeof"; "var"; "void"; "while";
   "with"; "yield"; "await"; "async"; "of"; "from"; "interface"; "implements";
   "package"; "private"; "protected"; "public"; "enum"; "type"; "as"; "any";
   "never"; "unknown"; "readonly"; "global"; "namespace"; "declare"; "module"].

(** [KEYWORDS = JAVA_KEYWORDS.union(JS_KEYWORDS)] *)
Definition KEYWORDS : gset string :=
  list_to_set JAVA_KEYWORDS ∪ list_to_set JS_KEYWORDS.

(** The first test of the loop of [normalize]: the token starts and ends
    with the same one of the three quote characters. *)
Definition is_string_literal (tok : string) : bool :=
  (starts_with_char dquote tok && ends_with_char dquote tok)
  || (starts_with_char squote tok && ends_with_char squote tok)
  || (starts_with_char backtick tok && ends_with_char backtick tok).

(** [re.fullmatch(r"\d+\.\d+|\d+", tok)] *)
Definition fullmatch_number (tok : string) : bool :=
  match span is_digit tok with
  | O => false
  | n =>
      match str_drop n tok with
      | EmptyString => true
      | String c r =>
          Ascii.eqb c "." && negb (String.eqb r "") && str_forall is_digit r
      end
  end.

(** [re.fullmatch(r"[A-Za-z_][A-Za-z0-9_]*", tok)] *)
Definition fullmatch_ident (tok : string) : bool :=
  match tok with
  | String c r => is_ident_start c && str_forall is_ident_char r
  | EmptyString => false
  end.

(** [f"ID{next_id}"] *)
Definition id_name (next_id : N) : string :=
  "ID" +:+ NilEmpty.string_of_uint (N.to_uint next_id).

(** The local variables of [normalize]. *)
Record norm_state : Type := NormState {
  id_map : gmap string string;
  next_id : N;
  norm : list string
}.

(** The branch of the loop of [normalize] a token takes. *)
Inductive token_class : Type :=
| CStr | CKeyword | CNum | CIdent | CSymbol.

#[global] Instance token_class_eq_dec : EqDecision token_class.
Proof. solve_decision. Defined.

Definition classify (keywords : gset string) (tok : string) : token_class :=
  if is_string_literal tok then CStr
  else if bool_decide (tok ∈ keywords) then CKeyword
  else if fullmatch_number tok then CNum
  else if fullmatch_ident tok then CIdent
  else CSymbol.

(** One iteration of the loop of [normalize]. *)
Definition normalize_step (keywords : gset string) (st : norm_state) (tok : string)
  : norm_state :=
  match classify keywords tok with
  | CStr => NormState (id_map st) (next_id st) (norm st ++ ["STR"])
  | CKeyword => NormState (id_map st) (next_id st) (norm st ++ [tok])
  | CNum => NormState (id_map st) (next_id st) (norm st ++ ["NUM"])
  | CIdent =>
      match id_map st !! tok with
      | Some name => NormState (id_map st) (next_id st) (norm st ++ [name])
      | None =>
          let name := id_name (next_id st) in
          NormState (<[tok := name]> (id_map st)) (next_id st + 1)%N
                    (norm st ++ [name])
      end
  | CSymbol => NormState (id_map st) (next_id st) (norm st ++ [tok])
  end.

Definition normalize_loop (keywords : gset string) (tokens : list string)
  (st : norm_state) : norm_state :=
  fold_left (normalize_step keywords) tokens st.

(** [normalize(tokens, keywords)] of tools/normalization.py: returns
    [(norm, id_map)]. *)
Definition normalize (tokens : list string) (keywords : gset string)
  : list string * gmap string string :=
  let st := normalize_loop keywords tokens (NormState ∅ 1 []) in
  (norm st, id_map st).

(** Rename invariance compares the run of [normalize] on a token sequence
    [t] with its run on the renamed sequence.  The states of the two runs
    after the same number of tokens have the same output and the same
    counter, and the table of the renamed run is the table of the original
    one read through [rho]. *)
Definition related (keywords : gset string) (rho : string → string) (t : list string)
  (st st' : norm_state) : Prop :=
  norm st' = norm st
  ∧ next_id st' = next_id st
  ∧ ∀ x, x ∈ t → classify keywords x = CIdent →
         id_map st' !! rho x = id_map st !! x.

(** ** Fingerprinting *)

(** [s.encode("utf-8")] for code points below 256. *)
Fixpoint utf8_encode (s : string) : string :=
  match s with
  | EmptyString => EmptyString
  | String c s' =>
      if (code c <? 128)%N then String c (utf8_encode s')
      else String (ascii_of_N (192 + code c / 64))
             (String (ascii_of_N (128 + code c mod 64)) (utf8_encode s'))
  end.

(** The UTF-8 encoding of the separator U+241F. *)
Definition SEP_utf8 : string :=
  String (ascii_of_N 226) (String (ascii_of_N 144) (String (ascii_of_N 159) "")).

(** [hashlib.sha1(SEP.join(shingle).encode("utf-8")).hexdigest()], the
    digest [sha1_hex] given over the encoded bytes.  UTF-8 encoding
    distributes over concatenation, so the encoded joined text is the join
    of the encoded tokens by the encoded separator. *)
Definition shingle_digest (sha1_hex : string → string) (shingle : list string)
  : string :=
  sha1_hex (join SEP_utf8 (utf8_encode <$> shingle)).

(** A slice bound of Python: negative bounds count from the end, and all
    bounds are clamped to [0, n]. *)
Definition py_bound (n i : Z) : Z :=
  if i <? 0 then Z.max 0 (i + n) else Z.min i n.

(** [l[start:stop]] *)
Definition py_slice {A} (l : list A) (start stop : Z) : list A :=
  let n := Z.of_nat (length l) in
  let lo := py_bound n start in
  let hi := py_bound n stop in
  take (Z.to_nat (hi - lo)) (drop (Z.to_nat lo) l).

(** [range(m)] *)
Definition py_range (m : Z) : list Z := Z.of_nat <$> seq 0 (Z.to_nat m).

(** [fingerprints_from_norm] of tools/normalization.py (and of
    tools_backup). *)
Definition fingerprints_from_norm (sha1_hex : string → string)
  (norm_tokens : list string) (k : Z) : gset string :=
  let n := Z.of_nat (length norm_tokens) in
  fold_left
    (fun fps i => fps ∪ {[ shingle_digest sha1_hex (py_slice norm_tokens i (i + k)) ]})
    (py_range (Z.max 0 (n - k + 1))) ∅.

(** [fingerprint_tokens] of tools/normalization_claude.py. *)
Definition fingerprint_tokens (sha1_hex : string → string)
  (normalized_tokens : list string) (k : Z) : result (gset string) :=
  if k <=? 0 then Raise (ValueError "k must be >= 1")
  else if Z.of_nat (length normalized_tokens) <? k then
    if Z.of_nat (length normalized_tokens) =? 0 then Ok ∅
    else Ok {[ shingle_digest sha1_hex normalized_tokens ]}
  else
    Ok (fold_left
          (fun fingerprints i =>
             fingerprints ∪ {[ shingle_digest sha1_hex
                                 (py_slice normalized_tokens i (i + k)) ]})
          (py_range (Z.of_nat (length normalized_tokens) - k + 1)) ∅).

(** ** Jaccard similarity *)

(** [len(x) / len(y)]: true division of two ints. *)
Definition py_div (n d : Z) : Q := inject_Z n / inject_Z d.

(** [bool(s)] of a set: non-empty. *)
Definition truthy (s : gset string) : bool := bool_decide (s ≠ ∅).

(** [jaccard] of tools/normalization.py (and of tools_backup). *)
Definition jaccard (a b : gset string) : Q :=
  if negb (truthy a) && negb (truthy b) then 1%Q
  else if negb (truthy a) || negb (truthy b) then 0%Q
  else
    let inter := a ∩ b in
    let union := a ∪ b in
    if truthy union then py_div (Z.of_nat (size inter)) (Z.of_nat (size union))
    else 0%Q.

(** [jaccard_similarity] of tools/normalization_claude.py. *)
Definition jaccard_similarity (set_a set_b : gset string) : Q :=
  if negb (truthy set_a) && negb (truthy set_b) then 0%Q
  else if negb (truthy set_a) || negb (truthy set_b) then 0%Q
  else
    let intersection := Z.of_nat (size (set_a ∩ set_b)) in
    let union := Z.of_nat (size (set_a ∪ set_b)) in
    if 0 <? union then py_div intersection union else 0%Q.

(** ** Repository-level aggregate *)

(** The value [{"fingerprints": fps, "norm_len": n}] stored per file. *)
Record file_info : Type := FileInfo {
  fingerprints : gset string;
  norm_len : Z
}.

(** A dict from relative path to [file_info], as the list of its items in
    insertion order. *)
Definition repo : Type := list (string * file_info).

(** [max(1, info["norm_len"])] *)
Definition weight (info : file_info) : Z := Z.max 1 (norm_len info).

(** [max(a, b)] of two floats, and the update [if b > a: a = b]: [b] is
    taken only when it is greater. *)
Definition py_max (a b : Q) : Q := if Qle_bool b a then a else b.

(** [sum(...)] of ints. *)
Definition py_sum (l : list Z) : Z := fold_left Z.add l 0.

(** The inner loop of [aggregate]: [best = 0.0], then
    [best = max(best, jaccard(...))] for every file of the other side. *)
Definition best_match (info : file_info) (others : repo) : Q :=
  fold_left
    (fun best other => py_max best (jaccard (fingerprints info) (fingerprints other.2)))
    others 0%Q.

(** One direction of [aggregate] of tools/normalization.py. *)
Definition directional (repoA repoB : repo) : Q :=
  let totw := py_sum ((fun item => weight item.2) <$> repoA) in
  let sumw :=
    fold_left
      (fun sumw item => (sumw + best_match item.2 repoB * inject_Z (weight item.2))%Q)
      repoA 0%Q in
  if totw =? 0 then 0%Q else (sumw / inject_Z totw)%Q.

(** [aggregate] of tools/normalization.py. *)
Definition aggregate (repoA repoB : repo) : Q :=
  let scoreA := directional repoA repoB in
  let scoreB := directional repoB repoA in
  ((scoreA + scoreB) / 2)%Q.

(** The inner loop of [aggregate_repo_similarity]. *)
Definition best_score (info : file_info) (others : repo) : Q :=
  fold_left
    (fun best other =>
       let sim := jaccard_similarity (fingerprints info) (fingerprints other.2) in
       if Qle_bool sim best then best else sim)
    others 0%Q.

(** One direction of [aggregate_repo_similarity]: the loop carries
    [(weighted_sum, total_weight)]. *)
Definition directional_claude (infoA infoB : repo) : Q :=
  let '(weighted_sum, total_weight) :=
    fold_left
      (fun '(weighted_sum, total_weight) item =>
         let w := weight item.2 in
         ((weighted_sum + best_score item.2 infoB * inject_Z w)%Q, total_weight + w))
      infoA (0%Q, 0) in
  if 0 <? total_weight then (weighted_sum / inject_Z total_weight)%Q else 0%Q.

(** [aggregate_repo_similarity] of tools/normalization_claude.py. *)
Definition aggregate_repo_similarity (per_file_info_A per_file_info_B : repo) : Q :=
  match per_file_info_A, per_file_info_B with
  | [], _ | _, [] => 0%Q
  | _, _ =>
      let score_A := directional_claude per_file_info_A per_file_info_B in
      let score_B := directional_claude per_file_info_B per_file_info_A in
      ((score_A + score_B) / 2)%Q
  end.

(** [max(iterable)]: raises [ValueError] on an empty iterable. *)
Definition py_max_of (l : list Q) : result Q :=
  match l with
  | [] => Raise (ValueError "max() arg is an empty sequence")
  | x :: r => Ok (fold_left py_max r x)
  end.

(** [a / b] with an int divisor: raises [ZeroDivisionError] on zero. *)
Definition py_truediv (a : Q) (b : Z) : result Q :=
  if b =? 0 then Raise ZeroDivisionError else Ok (a / inject_Z b)%Q.

(** A [for] loop whose body may raise. *)
Fixpoint for_each {A S} (body : S → A → result S) (l : list A) (s : S) : result S :=
  match l with
  | [] => Ok s
  | x :: r => s' ← body s x; for_each body r s'
  end.

(** One direction of [aggregate] of tools_backup/normalization.py: the
    best match is [max] over a generator, and the quotient is unguarded. *)
Definition directional_backup (repoA repoB : repo) : result Q :=
  let totw := py_sum ((fun item => weight item.2) <$> repoA) in
  sumw ← for_each
    (fun sumw item =>
       best ← py_max_of
         ((fun other => jaccard (fingerprints item.2) (fingerprints other.2)) <$> repoB);
       Ok (sumw + best * inject_Z (weight item.2))%Q)
    repoA 0%Q;
  py_truediv sumw totw.

(** [aggregate] of tools_backup/normalization.py. *)
Definition aggregate_backup (repoA repoB : repo) : result Q :=
  scoreA ← directional_backup repoA repoB;
  scoreB ← directional_backup repoB repoA;
  Ok ((scoreA + scoreB) / 2)%Q.

(** ** The driver of tools/normalization.py *)

(** The entry [results["per_file"][...]] of one file. *)
Record per_file : Type := PerFile {
  raw_len : nat;
  pf_norm_len : nat;
  fingerprints_count : nat;
  pf_id_map : gmap string string;
  first_norm_tokens : list string
}.

(** The body of the two processing loops of [main], for the text [txt] of
    one file: tokenize, normalize with the default keywords, fingerprint
    with [k=5]. *)
Definition process_file (sha1_hex : string → string) (txt : string)
  : per_file * file_info :=
  let toks := tokenize txt in
  let '(norm, idmap) := normalize toks KEYWORDS in
  let fps := fingerprints_from_norm sha1_hex norm 5 in
  (PerFile (length toks) (length norm) (size fps) idmap (take 80 norm),
   FileInfo fps (Z.of_nat (length norm))).

(** An element of [results["pairs"]]. *)
Record pair_result : Type := PairResult {
  fileA : string;
  fileB : string;
  pr_jaccard : Q;
  a_fp : nat;
  b_fp : nat
}.

(** The pairwise loop of [main]. *)
Definition pairwise (perA perB : repo) : list pair_result :=
  a ← perA;
  b ← perB;
  [PairResult a.1 b.1 (jaccard (fingerprints a.2) (fingerprints b.2))
     (size (fingerprints a.2)) (size (fingerprints b.2))].

(** What [main] computes from the two collections, each the list of the
    relative paths and texts of its files in the order of
    [collect_code_files]. *)
Record results : Type := Results {
  res_per_file : list (string * per_file);
  pairs : list pair_result;
  overall_repo_similarity : Q
}.

Definition compare_collections (sha1_hex : string → string)
  (filesA filesB : list (string * string)) : results :=
  let procA := (fun f => (f.1, process_file sha1_hex f.2)) <$> filesA in
  let procB := (fun f => (f.1, process_file sha1_hex f.2)) <$> filesB in
  let perA : repo := (fun p => (p.1, p.2.2)) <$> procA in
  let perB : repo := (fun p => (p.1, p.2.2)) <$> procB in
  Results
    (((fun p => ("A:" +:+ p.1, p.2.1)) <$> procA)
       ++ ((fun p => ("B:" +:+ p.1, p.2.1)) <$> procB))
    (pairwise perA perB)
    (aggregate perA perB).

(** ** The aggregate as the specification words it

    Mathematical sum and maximum, against which the loops of the code are
    compared. *)

Fixpoint Qsum (l : list Q) : Q :=
  match l with
  | [] => 0%Q
  | x :: r => (x + Qsum r)%Q
  end.

(** The maximum of a non-empty list. *)
Fixpoint Qmaximum (x : Q) (l : list Q) : Q :=
  match l with
  | [] => x
  | y :: r => Qmax x (Qmaximum y r)
  end.

(** The best (maximum) score of a file against any file of [B]. *)
Definition max_score (J : gset string → gset string → Q) (f : file_info) (B : repo) : Q :=
  match B with
  | [] => 0%Q
  | g :: B' =>
      Qmaximum (J (fingerprints f) (fingerprints g.2))
               ((fun h => J (fingerprints f) (fingerprints h.2)) <$> B')
  end.

(** Weighted sum of the best scores over the sum of the weights. *)
Definition directional_spec (J : gset string → gset string → Q) (A B : repo) : Q :=
  (Qsum ((fun f => inject_Z (Z.max 1 (norm_len f.2)) * max_score J f.2 B) <$> A)
   / Qsum ((fun f => inject_Z (Z.max 1 (norm_len f.2))) <$> A))%Q.

(** Arithmetic mean of the two directional aggregates. *)
Definition aggregate_spec (J : gset string → gset string → Q) (A B : repo) : Q :=
  ((directional_spec J A B + directional_spec J B A) / 2)%Q.

(** ** What the rename table of [normalize] holds

    [table_ok keywords seen st]: after the tokens [seen], the table of
    [st] maps exactly the identifier tokens seen so far, one to one, onto
    the names ID1 .. ID(next_id - 1). *)
Definition table_ok (keywords : gset string) (seen : list string) (st : norm_state)
  : Prop :=
  (∀ tok, is_Some (id_map st !! tok) ↔ tok ∈ seen ∧ classify keywords tok = CIdent)
  ∧ (∀ tok name, id_map st !! tok = Some name →
                 ∃ k, (1 ≤ k < next_id st)%N ∧ name = id_name k)
  ∧ (∀ k, (1 ≤ k < next_id st)%N → ∃ tok, id_map st !! tok = Some (id_name k))
  ∧ (∀ x y name, id_map st !! x = Some name → id_map st !! y = Some name → x = y)
  ∧ (N.of_nat (size (id_map st)) + 1 = next_id st)%N.

(** [emitted keywords m tok out]: [out] is the canonical token of [tok]
    under the rename table [m]. *)
Definition emitted (keywords : gset string) (m : gmap string string) (tok : string)
  (out : option string) : Prop :=
  match classify keywords tok with
  | CStr => out = Some "STR"
  | CNum => out = Some "NUM"
  | CKeyword | CSymbol => out = Some tok
  | CIdent => is_Some out ∧ out = m !! tok
  end.

(** [output_ok keywords seen st]: the output of [st] has one canonical
    token per token of [seen], each explained by the table of [st]. *)
Definition output_ok (keywords : gset string) (seen : list string) (st : norm_state)
  : Prop :=
  length (norm st) = length seen
  ∧ ∀ i tok, seen !! i = Some tok → emitted keywords (id_map st) tok (norm st !! i).

(** The distinct identifier tokens of a token list. *)
Definition identifiers (keywords : gset string) (l : list string) : gset string :=
  list_to_set (filter (fun tok => classify keywords tok = CIdent) l).

(** The shapes of a token: a quoted literal, an identifier or keyword, a
    number, a multi-character operator, or a single symbol. *)
Definition token_shape (t : string) : Prop :=
  is_string_literal t = true
  ∨ fullmatch_ident t = true
  ∨ fullmatch_number t = true
  ∨ t ∈ multi_char_ops
  ∨ ∃ c, is_symbol c = true ∧ t = String c "".

(** ** Unterminated comments and strings

    [occurs p s]: the text [p] occurs somewhere in [s]. *)
Definition occurs (p s : string) : Prop := ∃ pre post, s = pre +:+ p +:+ post.

(** The text after an opening quote [q] does not close the string: the
    scan of the quoted-string alternative fails on it (end of input or end
    of line comes first). *)
Definition unterminated_string (q : ascii) (rest : string) : Prop :=
  quoted_body q false false rest = None.

(** The same for the text after an opening backtick. *)
Definition unterminated_template (rest : string) : Prop :=
  quoted_body backtick true false rest = None.

(** No alternative matches the empty text, so every match is a token of at
    least one character and the scan always advances. *)
Definition nonempty_matcher (m : matcher) : Prop :=
  ∀ s n, m s = Some n → (0 < n)%nat.

(** ** Comment removal before tokenizing ([remove_comments])

    [re.sub] with the empty text as replacement: scan left to right;
    where the pattern matches, the match is left out and the scan resumes
    behind it; where it does not, the character is kept.  [bol] tells whether the position
    is at the start of a line (the start of the text or just behind a
    newline), which is where [^] matches under [(?m)]. *)
Fixpoint sub_from (m : bool → matcher) (bol : bool) (skip : nat) (s : string) : string :=
  match s with
  | EmptyString => EmptyString
  | String c s' =>
      let bol' := Ascii.eqb c newline in
      match skip with
      | S k => sub_from m bol' k s'
      | O =>
          match m bol s with
          | Some (S n) => sub_from m bol' n s'
          | _ => String c (sub_from m bol' 0 s')
          end
      end
  end.

Definition re_sub (m : bool → matcher) (code : string) : string :=
  sub_from m true 0 code.

(** [\s*#(?!\!).*] at the start of a line, up to the end of a line [$]:
    white space (newlines included), a [#] that no [!] follows, and the
    rest of the line. *)
Definition m_hash_comment : matcher := fun s =>
  let n := span is_space s in
  match str_drop n s with
  | String "#" r =>
      if starts_with_char "!" r then None
      else Some (n + 1 + span (fun c => negb (Ascii.eqb c newline)) r)%nat
  | _ => None
  end.

(** [remove_comments]: block comments, then line comments, then [#]
    comments that start a line. *)
Definition remove_comments (code : string) : string :=
  let code := re_sub (fun _ => m_block_comment) code in
  let code := re_sub (fun _ => m_line_comment) code in
  re_sub (fun bol s => if bol then m_hash_comment s else None) code.

(** The text that follows a line comment in the lemmas below: nothing, or
    a newline and a text without slash. *)
Definition line_end (tl : string) : Prop :=
  tl = "" ∨ ∃ r, tl = String newline r ∧ str_mem "/" r = false.

(** ** The tokenizer and normalizer of tools/normalization_claude.py *)

(** An alternative of a pattern with one capturing group: the length of
    the match and the text of the group (empty when the group took no
    part in the match). *)
Definition gmatcher := string → option (nat * string).

(** [[A-Za-z_][A-Za-z0-9_]*] *)
Definition g_ident : gmatcher := fun s =>
  match s with
  | String c r => if is_ident_start c then Some (S (span is_ident_char r), "") else None
  | EmptyString => None
  end.

(** [\d+(\.\d+)?]: the group is the fraction, point included. *)
Definition g_number : gmatcher := fun s =>
  match span is_digit s with
  | O => None
  | n =>
      match str_drop n s with
      | String "." r =>
          match span is_digit r with
          | O => Some (n, "")
          | m => Some ((n + 1 + m)%nat, String "." (str_take m r))
          end
      | _ => Some (n, "")
      end
  end.

(** [==|!=|<=|>=|&&|\|\|] *)
Definition generic_ops : list string := ["=="; "!="; "<="; ">="; "&&"; "||"].

Definition g_op : gmatcher := fun s =>
  if existsb (fun op => startswith op s) generic_ops then Some (2%nat, "") else None.

(** The characters of the single-character class of the generic pattern. *)
Definition generic_symbol_chars : string := "{}[]().,;:+-*/%<>=!&|^~".

Definition g_symbol : gmatcher := fun s =>
  match s with
  | String c _ => if str_mem c generic_symbol_chars then Some (1%nat, "") else None
  | EmptyString => None
  end.

Fixpoint first_gmatch (alts : list gmatcher) (s : string) : option (nat * string) :=
  match alts with
  | [] => None
  | m :: rest =>
      match m s with
      | Some r => Some r
      | None => first_gmatch rest s
      end
  end.

Definition generic_pattern : list gmatcher := [g_ident; g_number; g_op; g_symbol].

(** [re.findall] for a pattern with exactly one group: the list holds, for
    every match, the text of the group and not the text of the match. *)
Fixpoint findall_group_from (pat : list gmatcher) (skip : nat) (s : string)
  : list string :=
  match s with
  | EmptyString => []
  | String _ s' =>
      match skip with
      | S k => findall_group_from pat k s'
      | O =>
          match first_gmatch pat s with
          | Some (S n, g) => g :: findall_group_from pat n s'
          | Some (O, g) => g :: findall_group_from pat 0 s'
          | None => findall_group_from pat 0 s'
          end
      end
  end.

(** [tokenize_code_generic]: [findall] returns strings here (one group),
    so the loop that flattens tuples copies them as they are. *)
Definition tokenize_code_generic (code : string) : list string :=
  findall_group_from generic_pattern 0 code.

(** [c.isalpha()] on code points below 256. *)
Definition py_isalpha (c : ascii) : bool :=
  in_range 65 90 c || in_range 97 122 c
  || (code c =? 170)%N || (code c =? 181)%N || (code c =? 186)%N
  || in_range 192 214 c || in_range 216 246 c || in_range 248 255 c.

(** The third test of the loop of [normalize_tokens]:
    [tok and (tok[0].isalpha() or tok[0] == "_")]. *)
Definition starts_like_identifier (tok : string) : bool :=
  match tok with
  | String c _ => py_isalpha c || Ascii.eqb c "_"
  | EmptyString => false
  end.

(** One iteration of the loop of [normalize_tokens]. *)
Definition normalize_tokens_step (language_keywords : gset string)
  (st : norm_state) (tok : string) : norm_state :=
  if bool_decide (tok ∈ language_keywords) then
    NormState (id_map st) (next_id st) (norm st ++ [tok])
  else if fullmatch_number tok then
    NormState (id_map st) (next_id st) (norm st ++ ["NUM"])
  else if starts_like_identifier tok then
    match id_map st !! tok with
    | Some name => NormState (id_map st) (next_id st) (norm st ++ [name])
    | None =>
        let name := id_name (next_id st) in
        NormState (<[tok := name]> (id_map st)) (next_id st + 1)%N (norm st ++ [name])
    end
  else NormState (id_map st) (next_id st) (norm st ++ [tok]).

(** [normalize_tokens(tokens, language_keywords)]; no keyword set given
    is the empty set. *)
Definition normalize_tokens (tokens : list string) (language_keywords : gset string)
  : list string * gmap string string :=
  let st := fold_left (normalize_tokens_step language_keywords) tokens
              (NormState ∅ 1 []) in
  (norm st, id_map st).

(** The body of the loop of [process_repo] for a file whose text [raw] was
    read: [None] when the file is skipped, because it is empty or because
    a step raised (the [except] clause moves on to the next file). *)
Definition process_file_claude (sha1_hex : string → string) (k : Z) (raw : string)
  : option file_info :=
  if String.eqb raw "" then None
  else
    let raw_no_comments := remove_comments raw in
    let raw_tokens := tokenize_code_generic raw_no_comments in
    let '(normalized_tokens, _) :=
      normalize_tokens raw_tokens (list_to_set JAVA_KEYWORDS) in
    match fingerprint_tokens sha1_hex normalized_tokens k with
    | Ok fingerprints =>
        Some (FileInfo fingerprints (Z.of_nat (length normalized_tokens)))
    | Raise _ => None
    end.

(** [process_repo]: the dict of the files that were not skipped. *)
Definition process_repo (sha1_hex : string → string) (k : Z)
  (files : list (string * string)) : repo :=
  omap (fun f => (fun info => (f.1, info)) <$> process_file_claude sha1_hex k f.2) files.

(** What [run_pipeline] computes from the texts of the two collections:
    the two dicts of per-file information and the overall similarity
    (before rounding). *)
Definition run_pipeline (sha1_hex : string → string) (k : Z)
  (filesA filesB : list (string * string)) : repo * repo * Q :=
  let per_file_info_A := process_repo sha1_hex k filesA in
  let per_file_info_B := process_repo sha1_hex k filesB in
  (per_file_info_A, per_file_info_B,
   aggregate_repo_similarity per_file_info_A per_file_info_B).

(** ** The normalizer and the per-file step of tools_backup/normalization.py *)

(** The first test of the loop of the older [normalize]: double or single
    quotes only. *)
Definition is_string_literal_backup (tok : string) : bool :=
  (starts_with_char dquote tok && ends_with_char dquote tok)
  || (starts_with_char squote tok && ends_with_char squote tok).

(** One iteration of the loop of the older [normalize]. *)
Definition normalize_step_backup (keywords : gset string) (st : norm_state)
  (tok : string) : norm_state :=
  if is_string_literal_backup tok then
    NormState (id_map st) (next_id st) (norm st ++ ["STR"])
  else if bool_decide (tok ∈ keywords) then
    NormState (id_map st) (next_id st) (norm st ++ [tok])
  else if fullmatch_number tok then
    NormState (id_map st) (next_id st) (norm st ++ ["NUM"])
  else if fullmatch_ident tok then
    match id_map st !! tok with
    | Some name => NormState (id_map st) (next_id st) (norm st ++ [name])
    | None =>
        let name := id_name (next_id st) in
        NormState (<[tok := name]> (id_map st)) (next_id st + 1)%N (norm st ++ [name])
    end
  else NormState (id_map st) (next_id st) (norm st ++ [tok]).

(** [normalize(tokens, keywords)] of tools_backup/normalization.py. *)
Definition normalize_backup (tokens : list string) (keywords : gset string)
  : list string * gmap string string :=
  let st := fold_left (normalize_step_backup keywords) tokens (NormState ∅ 1 []) in
  (norm st, id_map st).

(** The body of the two processing loops of the older [main]: comments are
    removed from the text before it is tokenized. *)
Definition process_file_backup (sha1_hex : string → string) (txt : string)
  : per_file * file_info :=
  let txt := remove_comments txt in
  let toks := tokenize_backup txt in
  let '(norm, idmap) := normalize_backup toks (list_to_set JAVA_KEYWORDS) in
  let fps := fingerprints_from_norm sha1_hex norm 5 in
  (PerFile (length toks) (length norm) (size fps) idmap (take 80 norm),
   FileInfo fps (Z.of_nat (length norm))).

(** ** Floating-point arithmetic of the scores

    A Python [float] is an IEEE 754 binary64 number; its operations are
    those of [SpecFloat] at precision 53 and maximal exponent 1024, which
    round to nearest, ties to even. *)
Module B64.

Definition float : Type := spec_float.

Definition prec : Z := 53.
Definition emax : Z := 1024.

Definition add : float → float → float := SFadd prec emax.
Definition mul : float → float → float := SFmul prec emax.
Definition div : float → float → float := SFdiv prec emax.

(** [x < y] *)
Definition ltb : float → float → bool := SFltb.

(** [float(n)] rounded, infinite where Python raises. *)
Definition of_Z (n : Z) : float := binary_normalize prec emax n 0 false.

(** The literals [0.0], [1.0] and [2.0]. *)
Definition zero : float := S754_zero false.
Definition one : float := of_Z 1.
Definition two : float := of_Z 2.

(** [float(n)], also the conversion of an int operand of a float
    operation: raises [OverflowError] when [n] is too large. *)
Definition of_int (n : Z) : result float :=
  match of_Z n with
  | S754_infinity _ => Raise OverflowError
  | x => Ok x
  end.

(** [len(x) / len(y)], the true division of two ints [0 <= n] and [0 < d]
    with [n <= d]: the quotient of the two integers, rounded once. *)
Definition len_div (n d : nat) : float :=
  match n, d with
  | O, _ => zero
  | _, O => S754_nan
  | _, _ => div (S754_finite false (Pos.of_nat n) 0) (S754_finite false (Pos.of_nat d) 0)
  end.

(** [jaccard] of tools/normalization.py (and of tools_backup). *)
Definition jaccard (a b : gset string) : float :=
  if negb (truthy a) && negb (truthy b) then one
  else if negb (truthy a) || negb (truthy b) then zero
  else
    let inter := a ∩ b in
    let union := a ∪ b in
    if truthy union then len_div (size inter) (size union) else zero.

(** [jaccard_similarity] of tools/normalization_claude.py. *)
Definition jaccard_similarity (set_a set_b : gset string) : float :=
  if negb (truthy set_a) && negb (truthy set_b) then zero
  else if negb (truthy set_a) || negb (truthy set_b) then zero
  else
    let intersection := size (set_a ∩ set_b) in
    let union := size (set_a ∪ set_b) in
    if (0 <? union)%nat then len_div intersection union else zero.

(** [max(a, b)] of two floats, and the update [if b > a: a = b]: [b] is
    taken only when it is greater. *)
Definition py_max (a b : float) : float := if ltb a b then b else a.

(** The inner loop of [aggregate]. *)
Definition best_match (info : file_info) (others : repo) : float :=
  fold_left
    (fun best other => py_max best (jaccard (fingerprints info) (fingerprints other.2)))
    others zero.

(** One direction of [aggregate] of tools/normalization.py.  [sumw]
    starts as the int [0], which the first [+=] converts to [0.0]. *)
Definition directional (repoA repoB : repo) : result float :=
  let totw := py_sum ((fun item => weight item.2) <$> repoA) in
  sumw ← for_each
    (fun sumw item =>
       let best := best_match item.2 repoB in
       w ← of_int (weight item.2);
       Ok (add sumw (mul best w)))
    repoA zero;
  if totw =? 0 then Ok zero
  else t ← of_int totw; Ok (div sumw t).

(** [aggregate] of tools/normalization.py. *)
Definition aggregate (repoA repoB : repo) : result float :=
  scoreA ← directional repoA repoB;
  scoreB ← directional repoB repoA;
  Ok (div (add scoreA scoreB) two).

(** The inner loop of [aggregate_repo_similarity]. *)
Definition best_score (info : file_info) (others : repo) : float :=
  fold_left
    (fun best other =>
       let sim := jaccard_similarity (fingerprints info) (fingerprints other.2) in
       if ltb best sim then sim else best)
    others zero.

(** One direction of [aggregate_repo_similarity]: the loop carries
    [(weighted_sum, total_weight)]. *)
Definition directional_claude (infoA infoB : repo) : result float :=
  '(weighted_sum, total_weight) ← for_each
    (fun '(weighted_sum, total_weight) item =>
       let best := best_score item.2 infoB in
       let w := weight item.2 in
       wf ← of_int w;
       Ok (add weighted_sum (mul best wf), total_weight + w))
    infoA (zero, 0);
  if 0 <? total_weight then t ← of_int total_weight; Ok (div weighted_sum t)
  else Ok zero.

(** [aggregate_repo_similarity] of tools/normalization_claude.py. *)
Definition aggregate_repo_similarity (per_file_info_A per_file_info_B : repo)
  : result float :=
  match per_file_info_A, per_file_info_B with
  | [], _ | _, [] => Ok zero
  | _, _ =>
      score_A ← directional_claude per_file_info_A per_file_info_B;
      score_B ← directional_claude per_file_info_B per_file_info_A;
      Ok (div (add score_A score_B) two)
  end.

(** The value of a finite float as a rational. *)
Definition to_Q (x : float) : Q :=
  match x with
  | S754_finite s m e =>
      let v := if 0 <=? e then inject_Z (Zpos m * 2 ^ e)
               else (inject_Z (Zpos m) / inject_Z (2 ^ (- e)))%Q in
      if s then (- v)%Q else v
  | _ => 0%Q
  end.

(** *** The aggregate as the specification words it, in floats

    The sum of a list in list order from [0.0], the greatest of a list of
    scores, the weighted mean of the best scores and the mean of the two
    directions. *)
Definition fsum (l : list float) : float := fold_left add l zero.

Fixpoint fmaximum (l : list float) : float :=
  match l with
  | [] => zero
  | x :: r => let m := fmaximum r in if ltb m x then x else m
  end.

Definition max_score (J : gset string → gset string → float) (f : file_info)
  (B : repo) : float :=
  fmaximum ((fun g => J (fingerprints f) (fingerprints g.2)) <$> B).

Definition directional_spec (J : gset string → gset string → float) (A B : repo)
  : float :=
  div (fsum ((fun f => mul (max_score J f.2 B) (of_Z (weight f.2))) <$> A))
      (of_Z (py_sum ((fun f => weight f.2) <$> A))).

Definition aggregate_spec (J : gset string → gset string → float) (A B : repo)
  : float :=
  div (add (directional_spec J A B) (directional_spec J B A)) two.

(** The counts of a collection convert to floats: no weight and no total
    weight is too large. *)
Definition convertible (A : repo) : Prop :=
  (∀ f, f ∈ A → ∃ x, of_int (weight f.2) = Ok x)
  ∧ ∃ x, of_int (py_sum ((fun f => weight f.2) <$> A)) = Ok x.

End B64.

(** The values a score can take: [0.0], a positive finite float, or
    (never reached) the positive infinity. *)
Definition is_score (x : B64.float) : Prop :=
  match x with
  | S754_zero false | S754_finite false _ _ | S754_infinity false => True
  | _ => False
  end.

(** [pending pat skip pre s]: the scan of [pre +:+ s] taken over the
    characters of [pre] ([skip] as in [findall_from]); the result is the
    number of characters of [s] that the last match begun in [pre] still
    covers when the scan arrives at [s]. *)
Fixpoint pending (pat : list matcher) (skip : nat) (pre s : string) : nat :=
  match pre with
  | EmptyString => skip
  | String _ pre' =>
      match skip with
      | S k => pending pat k pre' s
      | O =>
          match first_match pat (pre +:+ s) with
          | Some (S n) => pending pat n pre' s
          | _ => pending pat 0 pre' s
          end
      end
  end.

(** In the text [pre +:+ s] the scan reaches [s] between two matches: no
    token, comment or string that begins in [pre] runs into [s], so the
    next match is tried at the first character of [s]. *)
Definition token_boundary (pat : list matcher) (pre s : string) : Prop :=
  pending pat 0 pre s = 0%nat.

(** A matcher decides on the characters it passes over: cutting the text
    behind a match does not change the match, and a text on which it
    fails has no prefix on which it matches. *)
Definition local_matcher (m : matcher) : Prop :=
  ∀ c u v,
    (m (String c (u +:+ v)) = None → m (String c u) = None)
    ∧ (∀ n, m (String c (u +:+ v)) = Some n → (n ≤ S (String.length u))%nat →
            m (String c u) = Some n).

(** * Properties *)

(** ** Jaccard *)

Lemma truthy_true (s : gset string) : truthy s = true ↔ s ≠ ∅.
Proof. unfold truthy. apply bool_decide_eq_true. Qed.

Lemma truthy_false (s : gset string) : truthy s = false ↔ s = ∅.
Proof.
  unfold truthy. rewrite bool_decide_eq_false. split; [|naive_solver].
  intros H. destruct (decide (s = ∅)); [done | contradiction].
Qed.

Lemma truthy_empty : truthy ∅ = false.
Proof. by apply truthy_false. Qed.

Lemma py_div_bounds (n d : Z) :
  0 ≤ n → n ≤ d → 0 < d → (0 <= py_div n d <= 1)%Q.
Proof.
  intros Hn Hnd Hd. unfold py_div.
  assert (Hd' : (0 < inject_Z d)%Q) by (unfold Qlt; simpl; lia).
  split.
  - apply Qle_shift_div_l; [done|]. unfold Qle; simpl; lia.
  - apply Qle_shift_div_r; [done|]. unfold Qle; simpl; lia.
Qed.

Lemma size_inter_le_union (a b : gset string) : (size (a ∩ b) ≤ size (a ∪ b))%nat.
Proof. apply subseteq_size. set_solver. Qed.

Lemma size_union_pos (a b : gset string) : a ≠ ∅ → (0 < size (a ∪ b))%nat.
Proof.
  intros Ha. destruct (size (a ∪ b)) eqn:E; [|lia].
  apply size_empty_inv in E. exfalso. apply Ha.
  apply leibniz_equiv. set_solver.
Qed.

(** On two non-empty sets both implementations return the quotient of the
    two sizes. *)
Lemma jaccard_nonempty (a b : gset string) :
  a ≠ ∅ → b ≠ ∅ →
  jaccard a b = py_div (Z.of_nat (size (a ∩ b))) (Z.of_nat (size (a ∪ b))).
Proof.
  intros Ha Hb. unfold jaccard.
  rewrite (proj2 (truthy_true a) Ha), (proj2 (truthy_true b) Hb). simpl.
  assert (Hu : a ∪ b ≠ ∅).
  { intros E. apply Ha. apply leibniz_equiv. set_solver. }
  by rewrite (proj2 (truthy_true _) Hu).
Qed.

Lemma jaccard_similarity_nonempty (a b : gset string) :
  a ≠ ∅ → b ≠ ∅ →
  jaccard_similarity a b = py_div (Z.of_nat (size (a ∩ b))) (Z.of_nat (size (a ∪ b))).
Proof.
  intros Ha Hb. unfold jaccard_similarity.
  rewrite (proj2 (truthy_true a) Ha), (proj2 (truthy_true b) Hb). simpl.
  pose proof (size_union_pos a b Ha).
  destruct (Z.ltb_spec 0 (Z.of_nat (size (a ∪ b)))); [done | lia].
Qed.

Lemma jaccard_one_empty (a b : gset string) :
  (a = ∅ ∧ b ≠ ∅) ∨ (a ≠ ∅ ∧ b = ∅) →
  jaccard a b = 0%Q ∧ jaccard_similarity a b = 0%Q.
Proof.
  unfold jaccard, jaccard_similarity.
  intros [[-> Hb] | [Ha ->]].
  - rewrite truthy_empty, (proj2 (truthy_true b) Hb). done.
  - rewrite truthy_empty, (proj2 (truthy_true a) Ha). done.
Qed.

Lemma jaccard_range (a b : gset string) : (0 <= jaccard a b <= 1)%Q.
Proof.
  destruct (decide (a = ∅)) as [->|Ha]; destruct (decide (b = ∅)) as [->|Hb].
  - unfold jaccard. rewrite truthy_empty. simpl. split; discriminate.
  - rewrite (proj1 (jaccard_one_empty ∅ b (or_introl (conj eq_refl Hb)))).
    split; discriminate.
  - rewrite (proj1 (jaccard_one_empty a ∅ (or_intror (conj Ha eq_refl)))).
    split; discriminate.
  - rewrite jaccard_nonempty by done.
    pose proof (size_inter_le_union a b). pose proof (size_union_pos a b Ha).
    apply py_div_bounds; lia.
Qed.

Lemma jaccard_similarity_range (a b : gset string) :
  (0 <= jaccard_similarity a b <= 1)%Q.
Proof.
  destruct (decide (a = ∅)) as [->|Ha]; destruct (decide (b = ∅)) as [->|Hb].
  - unfold jaccard_similarity. rewrite truthy_empty. simpl. split; discriminate.
  - rewrite (proj2 (jaccard_one_empty ∅ b (or_introl (conj eq_refl Hb)))).
    split; discriminate.
  - rewrite (proj2 (jaccard_one_empty a ∅ (or_intror (conj Ha eq_refl)))).
    split; discriminate.
  - rewrite jaccard_similarity_nonempty by done.
    pose proof (size_inter_le_union a b). pose proof (size_union_pos a b Ha).
    apply py_div_bounds; lia.
Qed.

Lemma jaccard_sym (a b : gset string) : jaccard a b = jaccard b a.
Proof.
  unfold jaccard.
  assert (a ∩ b = b ∩ a) as -> by set_solver.
  assert (a ∪ b = b ∪ a) as -> by set_solver.
  destruct (truthy a), (truthy b); done.
Qed.

Lemma jaccard_similarity_sym (a b : gset string) :
  jaccard_similarity a b = jaccard_similarity b a.
Proof.
  unfold jaccard_similarity.
  assert (a ∩ b = b ∩ a) as -> by set_solver.
  assert (a ∪ b = b ∪ a) as -> by set_solver.
  destruct (truthy a), (truthy b); done.
Qed.

(** C3: the two Jaccard implementations agree on every pair of fingerprint
    sets of which at least one is non-empty, and on the pair of two empty
    sets [jaccard] returns 1.0 and [jaccard_similarity] returns 0.0. *)
Theorem jaccard_variants_agree_except_both_empty :
  (∀ a b : gset string, a ≠ ∅ ∨ b ≠ ∅ → jaccard a b = jaccard_similarity a b)
  ∧ jaccard ∅ ∅ = 1%Q
  ∧ jaccard_similarity ∅ ∅ = 0%Q.
Proof.
  split; [|split].
  - intros a b Hne.
    destruct (decide (a = ∅)) as [Ea|Ha]; destruct (decide (b = ∅)) as [Eb|Hb].
    + subst. destruct Hne; contradiction.
    + destruct (jaccard_one_empty a b) as [-> ->]; auto.
    + destruct (jaccard_one_empty a b) as [-> ->]; auto.
    + by rewrite jaccard_nonempty, jaccard_similarity_nonempty.
  - unfold jaccard. by rewrite truthy_empty.
  - unfold jaccard_similarity. by rewrite truthy_empty.
Qed.

Lemma jaccard_variants_agree_except_both_empty_witness :
  jaccard {["h1"; "h2"]} {["h2"; "h3"]} = jaccard_similarity {["h1"; "h2"]} {["h2"; "h3"]}
  ∧ jaccard {["h1"]} ∅ = jaccard_similarity {["h1"]} ∅.
Proof.
  split.
  - apply (proj1 jaccard_variants_agree_except_both_empty). left. set_solver.
  - apply (proj1 jaccard_variants_agree_except_both_empty). left. set_solver.
Defined.

(** C5: for all fingerprint sets X and Y the pairwise score lies between 0
    and 1 and does not depend on the order of its arguments, in both
    implementations. *)
Theorem jaccard_bounds_and_symmetry (X Y : gset string) :
  ((0 <= jaccard X Y <= 1)%Q ∧ jaccard X Y = jaccard Y X)
  ∧ ((0 <= jaccard_similarity X Y <= 1)%Q
     ∧ jaccard_similarity X Y = jaccard_similarity Y X).
Proof.
  repeat split;
    first [ apply jaccard_range | apply jaccard_similarity_range
          | apply jaccard_sym | apply jaccard_similarity_sym ].
Qed.

(** ** Normalizer *)

(** Every iteration appends exactly one canonical token. *)
Lemma normalize_step_norm (keywords : gset string) (st : norm_state) (tok : string) :
  ∃ x, norm (normalize_step keywords st tok) = norm st ++ [x].
Proof.
  unfold normalize_step.
  destruct (classify keywords tok); try (eexists; reflexivity).
  destruct (id_map st !! tok); eexists; reflexivity.
Qed.

Lemma normalize_step_str (keywords : gset string) (st : norm_state) (tok : string) :
  is_string_literal tok = true →
  norm (normalize_step keywords st tok) = norm st ++ ["STR"].
Proof. intros H. unfold normalize_step, classify. by rewrite H. Qed.

Lemma normalize_loop_length (keywords : gset string) (tokens : list string) :
  ∀ st, length (norm (normalize_loop keywords tokens st))
        = (length (norm st) + length tokens)%nat.
Proof.
  unfold normalize_loop.
  induction tokens as [|tok tokens IH]; intros st; simpl.
  - lia.
  - rewrite IH. destruct (normalize_step_norm keywords st tok) as [x ->].
    rewrite length_app. simpl. lia.
Qed.

(** The loop only appends: what it has emitted stays in place. *)
Lemma normalize_loop_prefix (keywords : gset string) (tokens : list string) :
  ∀ st, ∃ out, norm (normalize_loop keywords tokens st) = norm st ++ out.
Proof.
  unfold normalize_loop.
  induction tokens as [|tok tokens IH]; intros st; simpl.
  - exists []. by rewrite app_nil_r.
  - destruct (IH (normalize_step keywords st tok)) as [out ->].
    destruct (normalize_step_norm keywords st tok) as [x ->].
    exists (x :: out). by rewrite <- app_assoc.
Qed.

Lemma normalize_loop_str_at (keywords : gset string) (tokens : list string) :
  ∀ st (i : nat) tok,
    tokens !! i = Some tok →
    is_string_literal tok = true →
    norm (normalize_loop keywords tokens st) !! (length (norm st) + i)%nat
    = Some "STR".
Proof.
  induction tokens as [|t tokens IH]; intros st i tok Hi Hs; [done|].
  change (normalize_loop keywords (t :: tokens) st)
    with (normalize_loop keywords tokens (normalize_step keywords st t)).
  destruct i as [|i]; simpl in Hi.
  - injection Hi as ->.
    destruct (normalize_loop_prefix keywords tokens (normalize_step keywords st tok))
      as [out ->].
    rewrite (normalize_step_str _ _ _ Hs), <- app_assoc, Nat.add_0_r.
    rewrite lookup_app_r by lia. by rewrite Nat.sub_diag.
  - specialize (IH (normalize_step keywords st t) i tok Hi Hs).
    destruct (normalize_step_norm keywords st t) as [x Hx].
    rewrite Hx, length_app in IH. simpl in IH.
    by replace (length (norm st) + S i)%nat with (length (norm st) + 1 + i)%nat by lia.
Qed.

(** C9: [normalize] returns one canonical token per input token, so the
    raw and the normalized token counts reported for a file are equal. *)
Theorem normalize_preserves_length :
  (∀ (tokens : list string) (keywords : gset string),
      length (normalize tokens keywords).1 = length tokens)
  ∧ (∀ (sha1_hex : string → string) (txt : string),
        pf_norm_len (process_file sha1_hex txt).1
        = raw_len (process_file sha1_hex txt).1).
Proof.
  assert (H : ∀ tokens keywords, length (normalize tokens keywords).1 = length tokens).
  { intros tokens keywords. unfold normalize. simpl.
    by rewrite normalize_loop_length. }
  split; [exact H|].
  intros sha1_hex txt. unfold process_file.
  specialize (H (tokenize txt) KEYWORDS).
  destruct (normalize (tokenize txt) KEYWORDS) as [nrm idmap]. simpl in *. done.
Qed.

(** C10: a token that is a single double-quote or single-quote character
    takes the string-literal branch of [normalize]: the canonical token at
    its position is STR, whatever the keyword set and the other tokens. *)
Theorem normalize_lone_quote_is_STR
  (tokens : list string) (keywords : gset string) (i : nat) (tok : string) :
  tokens !! i = Some tok →
  tok = String dquote "" ∨ tok = String squote "" →
  classify keywords tok = CStr
  ∧ (normalize tokens keywords).1 !! i = Some "STR".
Proof.
  intros Hi Hq.
  assert (Hs : is_string_literal tok = true) by (by destruct Hq as [-> | ->]).
  split.
  - unfold classify. by rewrite Hs.
  - unfold normalize. simpl.
    exact (normalize_loop_str_at keywords tokens (NormState ∅ 1 []) i tok Hi Hs).
Qed.

Lemma normalize_lone_quote_is_STR_witness :
  classify KEYWORDS (String dquote "") = CStr
  ∧ (normalize [String dquote ""; "abc"] KEYWORDS).1 !! 0%nat = Some "STR".
Proof.
  apply (normalize_lone_quote_is_STR [String dquote ""; "abc"] KEYWORDS 0
           (String dquote "")).
  - reflexivity.
  - left. reflexivity.
Defined.

(** *** Rename invariance *)

Section Rename.
Variable keywords : gset string.
Variable rho : string → string.
(** The token sequence whose identifiers are renamed. *)
Variable t : list string.

(** Tokens that are not identifiers are left alone. *)
Hypothesis rho_fixes_others :
  ∀ tok, tok ∈ t → classify keywords tok ≠ CIdent → rho tok = tok.
(** Identifiers go to identifiers: the new name is no keyword, number or
    string literal. *)
Hypothesis rho_keeps_identifiers :
  ∀ tok, tok ∈ t → classify keywords tok = CIdent →
         classify keywords (rho tok) = CIdent.
(** Distinct identifiers get distinct names. *)
Hypothesis rho_injective :
  ∀ x y, x ∈ t → y ∈ t →
         classify keywords x = CIdent → classify keywords y = CIdent →
         rho x = rho y → x = y.

Lemma related_step (st st' : norm_state) (tok : string) :
  tok ∈ t → related keywords rho t st st' →
  related keywords rho t
    (normalize_step keywords st tok) (normalize_step keywords st' (rho tok)).
Proof.
  intros Hin (Hn & Hc & Hm).
  destruct (classify keywords tok) eqn:Hcl.
  1-3,5: rewrite (rho_fixes_others tok Hin) by (rewrite Hcl; discriminate);
         unfold normalize_step; rewrite Hcl; simpl;
         repeat split; simpl; try done; by rewrite Hn.
  pose proof (rho_keeps_identifiers tok Hin Hcl) as Hcl'.
  unfold normalize_step. rewrite Hcl, Hcl', (Hm tok Hin Hcl).
  destruct (id_map st !! tok) as [name|] eqn:Hl.
  - repeat split; simpl; try done. by rewrite Hn.
  - rewrite Hc. repeat split; simpl; try done; [by rewrite Hn|].
    intros x Hx Hxc. destruct (decide (x = tok)) as [->|Hne].
    + by rewrite !lookup_insert_eq.
    + rewrite !lookup_insert_ne; [by apply Hm | done |].
      intros E. apply Hne. symmetry. by apply rho_injective.
Qed.

Lemma related_loop (l : list string) :
  (∀ tok, tok ∈ l → tok ∈ t) →
  ∀ st st', related keywords rho t st st' →
            related keywords rho t
              (normalize_loop keywords l st)
              (normalize_loop keywords (rho <$> l) st').
Proof.
  induction l as [|tok l IH]; intros Hsub st st' Hrel; [done|].
  simpl. apply IH.
  - intros x Hx. apply Hsub. by right.
  - apply related_step; [apply Hsub; by left | done].
Qed.

(** C2: renaming the identifier tokens of a token sequence by an injective
    map into identifiers, which leaves every other token alone, does not
    change the canonical sequence [normalize] produces. *)
Theorem normalize_rename_invariant :
  (normalize (rho <$> t) keywords).1 = (normalize t keywords).1.
Proof.
  unfold normalize. simpl.
  assert (Hinit : related keywords rho t (NormState ∅ 1 []) (NormState ∅ 1 [])).
  { split; [done|]. split; [done|]. intros x _ _. simpl. by rewrite !lookup_empty. }
  destruct (related_loop t (fun _ H => H) _ _ Hinit) as (Hn & _).
  exact Hn.
Qed.

End Rename.

Ltac each_token H :=
  repeat (apply elem_of_cons in H as [H|H]);
  [subst.. | apply elem_of_nil in H; destruct H].

(** Refutes a hypothesis [classify kw tok = c] on closed terms whose left
    side evaluates to another class. *)
Ltac refute_class H :=
  match type of H with
  | ?l = _ =>
      let v := eval vm_compute in l in
      let E := fresh "E" in
      assert (E : l = v) by (vm_compute; reflexivity);
      rewrite E in H; discriminate H
  end.

Lemma normalize_rename_invariant_witness :
  (normalize
     ((fun s => if String.eqb s "x" then "total"
                else if String.eqb s "y" then "n" else s)
        <$> ["int"; "x"; "="; "y"; "+"; "x"; "*"; "2"; "-"; "'x'"; ";"])
     KEYWORDS).1
  = (normalize ["int"; "x"; "="; "y"; "+"; "x"; "*"; "2"; "-"; "'x'"; ";"]
       KEYWORDS).1.
Proof.
  apply normalize_rename_invariant.
  - intros tok Hin Hc. each_token Hin; try reflexivity;
      exfalso; apply Hc; vm_compute; reflexivity.
  - intros tok Hin Hc. each_token Hin;
      first [ refute_class Hc | vm_compute; reflexivity ].
  - intros x y Hx Hy Hcx Hcy Hr. each_token Hx; each_token Hy;
      first [ reflexivity | refute_class Hcx | refute_class Hcy
            | simpl in Hr; discriminate Hr ].
Defined.

(** ** Fingerprinting *)

Section Fingerprints.
Variable sha1_hex : string → string.

Lemma py_range_length (m : Z) : length (py_range m) = Z.to_nat m.
Proof. unfold py_range. by rewrite length_fmap, length_seq. Qed.

Lemma size_add_le (fps : gset string) (h : string) :
  (size (fps ∪ {[h]}) ≤ size fps + 1)%nat.
Proof.
  destruct (decide (h ∈ fps)) as [Hin|Hout].
  - replace (fps ∪ {[h]}) with fps by set_solver. lia.
  - rewrite size_union by set_solver. rewrite size_singleton. lia.
Qed.

(** A loop that adds one digest per index yields at most one fingerprint
    per index. *)
Lemma size_shingle_loop (f : Z → string) (l : list Z) :
  ∀ fps : gset string,
    (size (fold_left (fun fps i => fps ∪ {[ f i ]}) l fps) ≤ size fps + length l)%nat.
Proof.
  induction l as [|i l IH]; intros fps; simpl; [lia|].
  specialize (IH (fps ∪ {[f i]})). pose proof (size_add_le fps (f i)). lia.
Qed.

(** The shingle count law of [fingerprint_tokens]. *)
Lemma fingerprint_tokens_count_law (toks : list string) (k : Z) :
  1 ≤ k →
  (k ≤ Z.of_nat (length toks) →
   ∃ fps, fingerprint_tokens sha1_hex toks k = Ok fps
          ∧ Z.of_nat (size fps) ≤ Z.of_nat (length toks) - k + 1)
  ∧ (0 < Z.of_nat (length toks) < k →
     fingerprint_tokens sha1_hex toks k = Ok {[ shingle_digest sha1_hex toks ]})
  ∧ (length toks = 0%nat → fingerprint_tokens sha1_hex toks k = Ok ∅).
Proof.
  intros Hk. unfold fingerprint_tokens.
  destruct (Z.leb_spec k 0); [lia|].
  split; [|split].
  - intros Hn. destruct (Z.ltb_spec (Z.of_nat (length toks)) k); [lia|].
    eexists. split; [reflexivity|].
    match goal with |- context [fold_left ?g ?l ∅] =>
      pose proof (size_shingle_loop
                    (fun i => shingle_digest sha1_hex (py_slice toks i (i + k))) l ∅) as Hs
    end.
    rewrite size_empty, py_range_length in Hs. simpl in Hs. lia.
  - intros Hn. destruct (Z.ltb_spec (Z.of_nat (length toks)) k); [|lia].
    destruct (Z.eqb_spec (Z.of_nat (length toks)) 0); [lia|done].
  - intros Hn. rewrite Hn. change (Z.of_nat 0) with 0.
    destruct (Z.ltb_spec 0 k); [done|lia].
Qed.

(** The part of the law [fingerprints_from_norm] obeys, and what it does
    on a sequence shorter than the window. *)
Lemma fingerprints_from_norm_count (toks : list string) (k : Z) :
  1 ≤ k →
  (k ≤ Z.of_nat (length toks) →
   Z.of_nat (size (fingerprints_from_norm sha1_hex toks k))
   ≤ Z.of_nat (length toks) - k + 1)
  ∧ (Z.of_nat (length toks) < k → fingerprints_from_norm sha1_hex toks k = ∅).
Proof.
  intros Hk. unfold fingerprints_from_norm. split; intros Hn.
  - match goal with |- context [fold_left ?g ?l ∅] =>
      pose proof (size_shingle_loop
                    (fun i => shingle_digest sha1_hex (py_slice toks i (i + k))) l ∅) as Hs
    end.
    rewrite size_empty, py_range_length in Hs. simpl in Hs. lia.
  - replace (Z.max 0 (Z.of_nat (length toks) - k + 1)) with 0 by lia. done.
Qed.

(** The fingerprints of the loop are the digests of the windows it
    visits. *)
Lemma elem_of_shingle_loop (f : Z → string) (l : list Z) (h : string) :
  ∀ fps : gset string,
    h ∈ fold_left (fun fps i => fps ∪ {[ f i ]}) l fps
    ↔ h ∈ fps ∨ ∃ i, i ∈ l ∧ h = f i.
Proof.
  induction l as [|j l IH]; intros fps; simpl.
  - split; [by left|]. intros [H|(i & Hi & _)]; [done|]. by apply elem_of_nil in Hi.
  - rewrite IH. split.
    + intros [H|(i & Hi & ->)].
      * apply elem_of_union in H as [H|H]; [by left|].
        apply elem_of_singleton in H as ->. right. exists j. split; [by left|done].
      * right. exists i. split; [by right|done].
    + intros [H|(i & Hi & ->)].
      * left. set_solver.
      * apply elem_of_cons in Hi as [->|Hi]; [left; set_solver|].
        right. by exists i.
Qed.

Lemma elem_of_py_range (m i : Z) : i ∈ py_range m ↔ 0 ≤ i < m.
Proof.
  unfold py_range. rewrite list_elem_of_fmap. split.
  - intros (n & -> & Hn). apply elem_of_seq in Hn. lia.
  - intros Hi. exists (Z.to_nat i). split; [lia|]. apply elem_of_seq. lia.
Qed.

Lemma elem_of_fingerprints_from_norm (toks : list string) (k : Z) (h : string) :
  h ∈ fingerprints_from_norm sha1_hex toks k
  ↔ ∃ i, 0 ≤ i < Z.of_nat (length toks) - k + 1
         ∧ h = shingle_digest sha1_hex (py_slice toks i (i + k)).
Proof.
  unfold fingerprints_from_norm.
  rewrite (elem_of_shingle_loop
             (fun i => shingle_digest sha1_hex (py_slice toks i (i + k)))).
  split.
  - intros [H|(i & Hi & ->)]; [set_solver|].
    apply elem_of_py_range in Hi. exists i. split; [lia|done].
  - intros (i & Hi & ->). right. exists i. split; [|done].
    apply elem_of_py_range. lia.
Qed.

(** Without a check of [k], a window size below one is accepted by
    [fingerprints_from_norm]: it returns a set, never empty, that holds the
    digest of the slice [toks[0:k]]. *)
Lemma fingerprints_from_norm_nonpositive_window (toks : list string) (k : Z) :
  k ≤ 0 →
  shingle_digest sha1_hex (py_slice toks 0 (0 + k))
  ∈ fingerprints_from_norm sha1_hex toks k.
Proof.
  intros Hk. apply elem_of_fingerprints_from_norm. exists 0. split; [lia|done].
Qed.

(** C1: on the two-token sequence [a, b] with window 5 the law asks for
    exactly one fingerprint, computed over the whole sequence.
    [fingerprint_tokens] returns it; [fingerprints_from_norm] returns the
    empty set. *)
Theorem fingerprints_from_norm_drops_short_sequence :
  fingerprints_from_norm sha1_hex ["a"; "b"] 5 = ∅
  ∧ fingerprint_tokens sha1_hex ["a"; "b"] 5
    = Ok {[ shingle_digest sha1_hex ["a"; "b"] ]}.
Proof. split; reflexivity. Qed.

(** [fingerprint_tokens] rejects every window size below one before it
    looks at the tokens. *)
Lemma fingerprint_tokens_rejects_nonpositive (toks : list string) (k : Z) :
  k ≤ 0 → fingerprint_tokens sha1_hex toks k = Raise (ValueError "k must be >= 1").
Proof.
  intros Hk. unfold fingerprint_tokens. destruct (Z.leb_spec k 0); [done|lia].
Qed.

(** C6: with window size 0 [fingerprint_tokens] raises, while
    [fingerprints_from_norm] returns a fingerprint set, the digest of the
    empty shingle. *)
Theorem fingerprints_from_norm_accepts_zero_window :
  fingerprint_tokens sha1_hex ["a"; "b"; "c"] 0 = Raise (ValueError "k must be >= 1")
  ∧ fingerprints_from_norm sha1_hex ["a"; "b"; "c"] 0 = {[ sha1_hex "" ]}.
Proof.
  split; [reflexivity|].
  unfold fingerprints_from_norm. simpl. unfold shingle_digest. simpl.
  set_solver.
Qed.

End Fingerprints.

(** ** Aggregate *)

Lemma py_max_Qmax (a b : Q) : (py_max a b == Qmax a b)%Q.
Proof.
  unfold py_max. destruct (Qle_bool b a) eqn:E.
  - apply Qle_bool_iff in E. symmetry. by apply Q.max_l.
  - assert (a <= b)%Q.
    { destruct (Qlt_le_dec a b) as [Hlt|Hle]; [by apply Qlt_le_weak|].
      apply Qle_bool_iff in Hle. congruence. }
    symmetry. by apply Q.max_r.
Qed.

Lemma Qmaximum_compat (l : list Q) (x y : Q) :
  (x == y)%Q → (Qmaximum x l == Qmaximum y l)%Q.
Proof. destruct l; simpl; intros ->; reflexivity. Qed.

Lemma Qmaximum_shift (l : list Q) :
  ∀ a y, (Qmaximum (Qmax a y) l == Qmax a (Qmaximum y l))%Q.
Proof.
  induction l as [|z l IH]; intros a y; simpl; [reflexivity|].
  symmetry. apply Q.max_assoc.
Qed.

(** [Qmaximum] is the maximum: an element of the list that bounds all of
    them. *)
Lemma Qmaximum_is_max (l : list Q) :
  ∀ x, (∀ y, y ∈ x :: l → (y <= Qmaximum x l)%Q)
       ∧ (∃ y, y ∈ x :: l ∧ (Qmaximum x l == y)%Q).
Proof.
  induction l as [|z l IH]; intros x; simpl.
  - split.
    + intros y Hy. apply list_elem_of_singleton in Hy as ->. apply Qle_refl.
    + exists x. split; [by left | reflexivity].
  - destruct (IH z) as [Hub [w [Hw Hmax]]]. split.
    + intros y Hy. apply elem_of_cons in Hy as [->|Hy].
      * apply Q.le_max_l.
      * eapply Qle_trans; [by apply Hub | apply Q.le_max_r].
    + destruct (Qlt_le_dec x (Qmaximum z l)) as [Hlt|Hle].
      * exists w. split; [by right|].
        rewrite Q.max_r by (by apply Qlt_le_weak). done.
      * exists x. split; [by left|]. by apply Q.max_l.
Qed.

(** The running-maximum loop computes the maximum of its start value and
    the scores it visits. *)
Lemma running_max_loop {A} (g : A → Q) (l : list A) :
  ∀ a, (fold_left (fun best x => py_max best (g x)) l a == Qmaximum a (g <$> l))%Q.
Proof.
  induction l as [|x l IH]; intros a; simpl; [reflexivity|].
  rewrite IH. rewrite <- Qmaximum_shift.
  apply Qmaximum_compat, py_max_Qmax.
Qed.

Lemma best_match_is_max (f : file_info) (B : repo) :
  B ≠ [] → (best_match f B == max_score jaccard f B)%Q.
Proof.
  destruct B as [|g B]; [done|]. intros _.
  unfold best_match, max_score. simpl.
  rewrite (running_max_loop (fun o => jaccard (fingerprints f) (fingerprints o.2))).
  apply Qmaximum_compat. rewrite py_max_Qmax.
  apply Q.max_r, jaccard_range.
Qed.

Lemma best_score_is_max (f : file_info) (B : repo) :
  B ≠ [] → (best_score f B == max_score jaccard_similarity f B)%Q.
Proof.
  destruct B as [|g B]; [done|]. intros _.
  unfold best_score, max_score. simpl.
  rewrite (running_max_loop
             (fun o => jaccard_similarity (fingerprints f) (fingerprints o.2)) B).
  apply Qmaximum_compat.
  change (py_max 0 (jaccard_similarity (fingerprints f) (fingerprints g.2))
          == jaccard_similarity (fingerprints f) (fingerprints g.2))%Q.
  rewrite py_max_Qmax. apply Q.max_r, jaccard_similarity_range.
Qed.

(** With nothing to compare against, the best score stays at its start
    value 0.0. *)
Lemma best_match_nil (f : file_info) : best_match f [] = 0%Q.
Proof. reflexivity. Qed.

Lemma weighted_sum_loop {A} (g g' : A → Q) (l : list A) :
  (∀ x, x ∈ l → (g x == g' x)%Q) →
  ∀ a, (fold_left (fun sumw x => sumw + g x) l a == a + Qsum (g' <$> l))%Q.
Proof.
  induction l as [|x l IH]; intros Hg a; simpl.
  - by rewrite Qplus_0_r.
  - rewrite IH by (intros y Hy; apply Hg; by right).
    rewrite (Hg x) by (by left). by rewrite Qplus_assoc.
Qed.

Lemma py_sum_from (l : list Z) : ∀ a, fold_left Z.add l a = a + py_sum l.
Proof.
  unfold py_sum. induction l as [|x l IH]; intros a; cbn [fold_left]; [lia|].
  rewrite (IH (a + x)), (IH (0 + x)). lia.
Qed.

Lemma py_sum_cons (x : Z) (l : list Z) : py_sum (x :: l) = x + py_sum l.
Proof. unfold py_sum at 1. simpl. by rewrite py_sum_from. Qed.

Lemma total_weight_Qsum (A : repo) :
  (inject_Z (py_sum ((fun item => weight item.2) <$> A))
   == Qsum ((fun f => inject_Z (Z.max 1 (norm_len f.2))) <$> A))%Q.
Proof.
  induction A as [|f A IH]; simpl; [reflexivity|].
  rewrite py_sum_cons, inject_Z_plus, IH. reflexivity.
Qed.

Lemma total_weight_pos (A : repo) :
  A ≠ [] → 0 < py_sum ((fun item => weight item.2) <$> A).
Proof.
  assert (Hnn : ∀ A : repo, 0 ≤ py_sum ((fun item => weight item.2) <$> A)).
  { clear. induction A as [|f A IH]; [done|].
    rewrite fmap_cons, py_sum_cons. unfold weight at 1. lia. }
  destruct A as [|f A]; [done|]. intros _.
  rewrite fmap_cons, py_sum_cons. specialize (Hnn A). unfold weight at 1. lia.
Qed.

Lemma directional_refines (A B : repo) :
  A ≠ [] → B ≠ [] → (directional A B == directional_spec jaccard A B)%Q.
Proof.
  intros HA HB. unfold directional, directional_spec.
  pose proof (total_weight_pos A HA).
  destruct (Z.eqb_spec (py_sum ((fun item => weight item.2) <$> A)) 0); [lia|].
  rewrite total_weight_Qsum.
  rewrite (weighted_sum_loop
             (fun item => best_match item.2 B * inject_Z (weight item.2))%Q
             (fun f => inject_Z (Z.max 1 (norm_len f.2)) * max_score jaccard f.2 B)%Q).
  - by rewrite Qplus_0_l.
  - intros x _. simpl. rewrite best_match_is_max by done. apply Qmult_comm.
Qed.

(** The loop of [aggregate_repo_similarity] carries the weighted sum and
    the total weight side by side. *)
Lemma claude_loop (B : repo) (A : repo) :
  ∀ s w,
    fold_left
      (fun '(weighted_sum, total_weight) item =>
         let w := weight item.2 in
         ((weighted_sum + best_score item.2 B * inject_Z w)%Q, total_weight + w))
      A (s, w)
    = (fold_left (fun sumw item => (sumw + best_score item.2 B * inject_Z (weight item.2))%Q) A s,
       w + py_sum ((fun item => weight item.2) <$> A)).
Proof.
  induction A as [|f A IH]; intros s w.
  - cbn [fold_left fmap list_fmap]. change (py_sum []) with 0. f_equal. lia.
  - rewrite fmap_cons, py_sum_cons. cbn [fold_left]. rewrite IH. f_equal. lia.
Qed.

Lemma directional_claude_refines (A B : repo) :
  A ≠ [] → B ≠ [] →
  (directional_claude A B == directional_spec jaccard_similarity A B)%Q.
Proof.
  intros HA HB. unfold directional_claude, directional_spec.
  rewrite claude_loop. pose proof (total_weight_pos A HA).
  destruct (Z.ltb_spec 0 (0 + py_sum ((fun item => weight item.2) <$> A))); [|lia].
  rewrite Z.add_0_l, total_weight_Qsum.
  rewrite (weighted_sum_loop
             (fun item => best_score item.2 B * inject_Z (weight item.2))%Q
             (fun f => inject_Z (Z.max 1 (norm_len f.2))
                       * max_score jaccard_similarity f.2 B)%Q).
  - by rewrite Qplus_0_l.
  - intros x _. simpl. rewrite best_score_is_max by done. apply Qmult_comm.
Qed.

(** *** Empty collections *)

Lemma Qsum_zeros {A} (l : list A) : (Qsum ((fun _ => 0%Q) <$> l) == 0)%Q.
Proof. induction l as [|x l IH]; simpl; [reflexivity|]. by rewrite IH. Qed.

Lemma directional_nil_l (B : repo) : directional [] B = 0%Q.
Proof. reflexivity. Qed.

Lemma directional_nil_r (A : repo) : (directional A [] == 0)%Q.
Proof.
  unfold directional.
  destruct (py_sum ((fun item => weight item.2) <$> A) =? 0); [reflexivity|].
  rewrite (weighted_sum_loop
             (fun item => best_match item.2 [] * inject_Z (weight item.2))%Q
             (fun _ => 0%Q)).
  - rewrite Qsum_zeros. reflexivity.
  - intros x _. rewrite best_match_nil. apply Qmult_0_l.
Qed.

(** [aggregate] of tools/normalization.py returns 0.0 when a collection is
    empty: the guards [if totw] and the start value of [best] keep it from
    dividing by zero. *)
Lemma aggregate_empty (A B : repo) : A = [] ∨ B = [] → (aggregate A B == 0)%Q.
Proof.
  unfold aggregate. intros [-> | ->].
  - rewrite directional_nil_l, directional_nil_r. reflexivity.
  - rewrite directional_nil_l, directional_nil_r. reflexivity.
Qed.

Lemma aggregate_repo_similarity_empty (A B : repo) :
  A = [] ∨ B = [] → aggregate_repo_similarity A B = 0%Q.
Proof. intros [-> | ->]; [done|]. by destruct A. Qed.

Lemma pairwise_empty (A B : repo) : A = [] ∨ B = [] → pairwise A B = [].
Proof.
  intros [-> | ->]; [done|].
  unfold pairwise. induction A as [|a A IH]; [done|]. exact IH.
Qed.

(** Every pairwise result carries a score between 0 and 1. *)
Lemma pairwise_scores_in_range (A B : repo) (p : pair_result) :
  p ∈ pairwise A B → (0 <= pr_jaccard p <= 1)%Q.
Proof.
  unfold pairwise. intros Hp.
  apply list_elem_of_bind in Hp as (a & Hp & _).
  apply list_elem_of_bind in Hp as (b & Hp & _).
  apply list_elem_of_singleton in Hp as ->. simpl. apply jaccard_range.
Qed.

(** The run of tools/normalization.py on two collections of which one is
    empty: no pairwise result and the aggregate 0.0. *)
Lemma compare_collections_empty (sha1_hex : string → string)
  (filesA filesB : list (string * string)) :
  filesA = [] ∨ filesB = [] →
  pairs (compare_collections sha1_hex filesA filesB) = []
  ∧ (overall_repo_similarity (compare_collections sha1_hex filesA filesB) == 0)%Q.
Proof.
  intros H. unfold compare_collections. simpl. split.
  - apply pairwise_empty. destruct H as [-> | ->]; [by left | by right].
  - apply aggregate_empty. destruct H as [-> | ->]; [by left | by right].
Qed.

(** [aggregate] of tools_backup/normalization.py raises as soon as a
    collection is empty. *)
Lemma aggregate_backup_empty_l (B : repo) :
  aggregate_backup [] B = Raise ZeroDivisionError.
Proof. reflexivity. Qed.

Lemma aggregate_backup_empty_r (a : string * file_info) (A : repo) :
  aggregate_backup (a :: A) [] = Raise (ValueError "max() arg is an empty sequence").
Proof. reflexivity. Qed.

(** C7: on two empty collections, and on a collection of one file against
    an empty one, [aggregate] of tools/normalization.py returns 0.0 and the
    pairwise results are empty, while [aggregate] of
    tools_backup/normalization.py raises [ZeroDivisionError], respectively
    [ValueError]. *)
Theorem aggregate_backup_raises_on_empty_collection :
  aggregate_backup [] [] = Raise ZeroDivisionError
  ∧ aggregate_backup [("A.java", FileInfo ∅ 0)] []
    = Raise (ValueError "max() arg is an empty sequence")
  ∧ (aggregate [] [] == 0)%Q
  ∧ (aggregate [("A.java", FileInfo ∅ 0)] [] == 0)%Q
  ∧ pairwise [("A.java", FileInfo ∅ 0)] [] = [].
Proof. repeat split. Qed.

(** ** Tokenizer *)

Lemma fmap_S_pos (o : option nat) (n : nat) : S <$> o = Some n → (0 < n)%nat.
Proof. destruct o; simpl; intros [= <-]; lia. Qed.

Lemma token_matchers_nonempty :
  Forall nonempty_matcher token_pattern ∧ Forall nonempty_matcher token_pattern_backup.
Proof.
  assert (Hq : ∀ q nl, nonempty_matcher (m_quoted q nl)).
  { intros q nl [|c r] n; simpl; [done|].
    destruct (Ascii.eqb c q); [apply fmap_S_pos | done]. }
  assert (Hid : nonempty_matcher m_ident).
  { intros [|c r] n; simpl; [done|].
    destruct (is_ident_start c); intros [= <-]; lia. }
  assert (Hdec : nonempty_matcher m_decimal).
  { intros s n. unfold m_decimal.
    destruct (span is_digit s) as [|k]; [done|].
    destruct (str_drop (S k) s) as [|c r]; [done|].
    destruct (Ascii.eqb_spec c "."); [subst | by repeat case_match].
    destruct (span is_digit r); [done|]. intros [= <-]. lia. }
  assert (Hint : nonempty_matcher m_integer).
  { intros s n. unfold m_integer.
    destruct (span is_digit s); [done|]. intros [= <-]. lia. }
  assert (Hop : nonempty_matcher m_multi_op).
  { intros s n. unfold m_multi_op.
    destruct (existsb _ _); [|done]. intros [= <-]. lia. }
  assert (Hsym : nonempty_matcher m_symbol).
  { intros [|c r] n; simpl; [done|].
    destruct (is_symbol c); intros [= <-]; lia. }
  assert (Hblock : nonempty_matcher m_block_comment).
  { intros s n. unfold m_block_comment. repeat case_match; try done.
    destruct (find_close _); simpl; intros [= <-]; lia. }
  assert (Hline : nonempty_matcher m_line_comment).
  { intros s n. unfold m_line_comment. repeat case_match; try done.
    intros [= <-]. lia. }
  split; repeat apply Forall_cons_2; try assumption; try apply Hq; apply Forall_nil_2.
Qed.

Lemma first_match_nonempty (pat : list matcher) (s : string) (n : nat) :
  Forall nonempty_matcher pat → first_match pat s = Some n → (0 < n)%nat.
Proof.
  induction 1 as [|m pat Hm _ IH]; simpl; [done|].
  destruct (m s) as [k|] eqn:E; [|exact IH].
  intros [= <-]. by apply (Hm s).
Qed.

(** [findall] yields at most one token per character: the scan ends. *)
Lemma findall_from_length (pat : list matcher) (s : string) :
  ∀ skip, (length (findall_from pat skip s) ≤ String.length s)%nat.
Proof.
  induction s as [|c s IH]; intros skip; simpl; [lia|].
  destruct skip as [|k].
  - destruct (first_match pat (String c s)) as [[|n]|]; simpl.
    + specialize (IH 0%nat). lia.
    + specialize (IH n). lia.
    + specialize (IH 0%nat). lia.
  - specialize (IH k). lia.
Qed.

Lemma tokenize_length (code : string) :
  (length (tokenize code) ≤ String.length code)%nat
  ∧ (length (tokenize_backup code) ≤ String.length code)%nat.
Proof.
  unfold tokenize, tokenize_backup, findall. split.
  - etrans; [apply length_filter | apply findall_from_length].
  - etrans; [apply length_filter | apply findall_from_length].
Qed.

(** [find_close] fails exactly on the texts without a comment closer. *)
Lemma find_close_None (rest : string) :
  find_close rest = None ↔ ¬ occurs "*/" rest.
Proof.
  induction rest as [|c s IH]; simpl.
  - split; [|done]. intros _ (pre & post & E). by destruct pre.
  - destruct (Ascii.eqb c "*" && starts_with_char "/" s) eqn:E.
    + split; [done|]. intros H. exfalso. apply H.
      apply andb_true_iff in E as [Ec Es]. apply Ascii.eqb_eq in Ec as ->.
      destruct s as [|d s]; [done|]. simpl in Es. apply Ascii.eqb_eq in Es as ->.
      by exists "", s.
    + destruct (find_close s) as [n|] eqn:F; simpl.
      * split; [done|]. intros H. exfalso.
        assert (Hn : ¬ occurs "*/" s).
        { intros (pre & post & ->). apply H. by exists (String c pre), post. }
        by apply IH in Hn.
      * split; [|done]. intros _ (pre & post & Heq).
        destruct pre as [|p pre]; simpl in Heq.
        -- injection Heq as -> ->. by vm_compute in E.
        -- injection Heq as -> ->. apply (proj1 IH eq_refl). by exists pre, post.
Qed.

(** A text without the quote character cannot close the string. *)
Lemma quoted_body_no_quote (q : ascii) (nl_ok : bool) (s : string) :
  str_mem q s = false → ∀ esc, quoted_body q nl_ok esc s = None.
Proof.
  induction s as [|c s IH]; intros Hq esc; [done|].
  simpl in Hq. apply orb_false_iff in Hq as [Hc Hs].
  specialize (IH Hs). simpl.
  destruct esc.
  - destruct (Ascii.eqb c newline); [done|]. by rewrite IH.
  - rewrite Hc.
    destruct (Ascii.eqb c backslash); [by rewrite IH|].
    destruct (Ascii.eqb c newline && negb nl_ok); [done|]. by rewrite IH.
Qed.

Lemma findall_from_match (pat : list matcher) (c : ascii) (s : string) (n : nat) :
  first_match pat (String c s) = Some (S n) →
  findall_from pat 0 (String c s)
  = str_take (S n) (String c s) :: findall_from pat n s.
Proof. intros H. simpl. by rewrite H. Qed.

Lemma findall_from_skip (pat : list matcher) (c : ascii) (s : string) :
  first_match pat (String c s) = None →
  findall_from pat 0 (String c s) = findall_from pat 0 s.
Proof. intros H. simpl. by rewrite H. Qed.

(** The scan at an unterminated block comment: [/] and [*] are matched as
    symbols and the scan goes on in the text behind them. *)
Lemma findall_unterminated_comment (rest : string) :
  find_close rest = None →
  findall token_pattern ("/*" +:+ rest) = "/" :: "*" :: findall token_pattern rest.
Proof.
  intros H. unfold findall.
  change ("/*" +:+ rest) with (String "/" (String "*" rest)).
  rewrite (findall_from_match _ _ _ 0).
  - by rewrite (findall_from_match _ _ _ 0).
  - cbn [first_match token_pattern]. unfold m_block_comment. by rewrite H.
Qed.

Lemma findall_backup_comment_opener (rest : string) :
  findall token_pattern_backup ("/*" +:+ rest)
  = "/" :: "*" :: findall token_pattern_backup rest.
Proof. reflexivity. Qed.

(** The scan at an unterminated string: the quote is matched as a symbol
    and the scan goes on in the text behind it. *)
Lemma findall_unterminated_string (q : ascii) (rest : string) :
  q = dquote ∨ q = squote →
  unterminated_string q rest →
  findall token_pattern (String q rest) = String q "" :: findall token_pattern rest
  ∧ findall token_pattern_backup (String q rest)
    = String q "" :: findall token_pattern_backup rest.
Proof.
  unfold unterminated_string. intros Hq H. unfold findall.
  split; rewrite (findall_from_match _ _ _ 0); try done.
  - cbn [first_match token_pattern]. unfold m_dq_string, m_sq_string, m_quoted.
    destruct Hq as [-> | ->]; simpl; by rewrite H.
  - cbn [first_match token_pattern_backup]. unfold m_dq_string, m_sq_string, m_quoted.
    destruct Hq as [-> | ->]; simpl; by rewrite H.
Qed.

(** A backtick is no symbol: where no template literal starts, no
    alternative matches it and the scan passes over it. *)
Lemma findall_unterminated_template (rest : string) :
  unterminated_template rest →
  findall token_pattern (String backtick rest) = findall token_pattern rest.
Proof.
  unfold unterminated_template. intros H. unfold findall.
  apply findall_from_skip.
  cbn [first_match token_pattern]. unfold m_template, m_quoted. simpl. by rewrite H.
Qed.

Lemma tokenize_cons_keep (t : string) (l : list string) :
  t ≠ "" → comment_re_match t = false →
  filter (fun t => t ≠ "" ∧ comment_re_match t = false) (t :: l)
  = t :: filter (fun t => t ≠ "" ∧ comment_re_match t = false) l.
Proof. intros H1 H2. by rewrite filter_cons_True. Qed.

Lemma tokenize_backup_cons_keep (t : string) (l : list string) :
  strip_nonempty t = true →
  filter (fun t => strip_nonempty t = true) (t :: l)
  = t :: filter (fun t => strip_nonempty t = true) l.
Proof. intros H. by rewrite filter_cons_True. Qed.

(** C8, as stated, fails: the unterminated comment [/* a] contributes the
    three tokens [/], [*] and [a], and the unterminated string of a double
    quote and [abc] is not one token but the quote and the identifier. *)
Lemma tokenize_unterminated_counterexample :
  (tokenize "/* a" = ["/"; "*"; "a"] ∧ tokenize "/* a" ≠ [])
  ∧ (tokenize (String dquote "abc") = [String dquote ""; "abc"]
     ∧ tokenize (String dquote "abc") ≠ [String dquote "abc"])
  ∧ tokenize_backup "/* a" = ["/"; "*"; "a"]
  ∧ tokenize_backup (String dquote "abc") = [String dquote ""; "abc"].
Proof.
  assert (H1 : tokenize "/* a" = ["/"; "*"; "a"]) by (vm_compute; reflexivity).
  assert (H2 : tokenize (String dquote "abc") = [String dquote ""; "abc"])
    by (vm_compute; reflexivity).
  repeat split; try (vm_compute; reflexivity).
  - rewrite H1. discriminate.
  - rewrite H2. discriminate.
Qed.

(** ** The pipeline on small inputs *)

Example tokenize_drops_comments :
  tokenize "x = /* c */ y // foo" = ["x"; "="; "y"].
Proof. vm_compute. reflexivity. Qed.

Example tokenize_literals_and_operators :
  tokenize "s = 'a\'b' + 1.5 >= `t` + 2."
  = ["s"; "="; "'a\'b'"; "+"; "1.5"; ">="; "`t`"; "+"; "2"; "."].
Proof. vm_compute. reflexivity. Qed.

Example tokenize_backup_keeps_comment_symbols :
  tokenize_backup "/* a */ 'x' 12.5" = ["/"; "*"; "a"; "*"; "/"; "'x'"; "12.5"].
Proof. vm_compute. reflexivity. Qed.

Example normalize_sample :
  (normalize ["int"; "x"; "="; "y"; "+"; "x"; "*"; "2"; "-"; "'x'"; ";"] KEYWORDS).1
  = ["int"; "ID1"; "="; "ID2"; "+"; "ID1"; "*"; "NUM"; "-"; "STR"; ";"].
Proof. vm_compute. reflexivity. Qed.

(** The lone quote of an unterminated string through the normalizer. *)
Example normalize_unterminated_string :
  (normalize (tokenize (String dquote "abc")) KEYWORDS).1 = ["STR"; "ID1"].
Proof. vm_compute. reflexivity. Qed.

(** With the identity for the digest the fingerprints are the encoded
    shingles themselves. *)
Example fingerprint_tokens_sample :
  fingerprint_tokens (fun bytes => bytes) ["a"; "b"; "c"] 2
  = Ok {[ "a" +:+ SEP_utf8 +:+ "b"; "b" +:+ SEP_utf8 +:+ "c" ]}.
Proof. vm_compute. reflexivity. Qed.

Example fingerprints_from_norm_sample :
  fingerprints_from_norm (fun bytes => bytes) ["a"; "b"; "c"] 2
  = {[ "a" +:+ SEP_utf8 +:+ "b"; "b" +:+ SEP_utf8 +:+ "c" ]}.
Proof. vm_compute. reflexivity. Qed.

(** A negative window: the slice bound counts from the end. *)
Example fingerprints_from_norm_negative_window :
  fingerprints_from_norm (fun bytes => bytes) ["a"; "b"; "c"] (-1)
  = {[ "a" +:+ SEP_utf8 +:+ "b"; "" ]}.
Proof. vm_compute. reflexivity. Qed.

Example jaccard_sample :
  (jaccard {["h1"; "h2"]} {["h2"; "h3"]} == 1 # 3)%Q
  ∧ (jaccard_similarity {["h1"; "h2"]} {["h2"; "h3"]} == 1 # 3)%Q.
Proof. split; vm_compute; reflexivity. Qed.

Example aggregate_sample :
  (aggregate [("a.java", FileInfo {["h1"; "h2"]} 7)] [("b.java", FileInfo {["h1"]} 0)]
   == 1 # 2)%Q.
Proof. vm_compute. reflexivity. Qed.

(** * Further properties of the pipeline *)

(** ** Jaccard: when the score is 1 and when it is 0 *)

Lemma py_div_pos (n : Z) (p : positive) : (py_div n (Z.pos p) == n # p)%Q.
Proof. unfold py_div, Qdiv, Qinv, Qmult, Qeq. simpl. lia. Qed.

Lemma py_div_eq_1 (n d : Z) : 0 < d → (py_div n d == 1)%Q ↔ n = d.
Proof.
  intros Hd. destruct d as [|p|p]; try lia.
  rewrite py_div_pos. unfold Qeq. simpl. lia.
Qed.

Lemma py_div_eq_0 (n d : Z) : 0 < d → (py_div n d == 0)%Q ↔ n = 0.
Proof.
  intros Hd. destruct d as [|p|p]; try lia.
  rewrite py_div_pos. unfold Qeq. simpl. lia.
Qed.

Lemma inter_union_same_size (X Y : gset string) :
  size (X ∩ Y) = size (X ∪ Y) ↔ X = Y.
Proof.
  split; [|intros ->; f_equal; set_solver].
  intros Hs.
  assert (E : X ∩ Y = X ∪ Y).
  { apply set_subseteq_size_eq; [set_solver | lia]. }
  set_solver.
Qed.

Lemma size_inter_zero (X Y : gset string) : size (X ∩ Y) = 0%nat ↔ X ∩ Y = ∅.
Proof.
  rewrite size_empty_iff. split; [apply leibniz_equiv | by intros ->].
Qed.

Lemma jaccard_both_empty :
  jaccard ∅ ∅ = 1%Q ∧ jaccard_similarity ∅ ∅ = 0%Q.
Proof.
  unfold jaccard, jaccard_similarity. by rewrite truthy_empty.
Qed.

(** X1: the score is 1 exactly on identical fingerprint sets; for
    [jaccard_similarity] the common set must moreover be non-empty. *)
Theorem jaccard_one_iff_identical (X Y : gset string) :
  ((jaccard X Y == 1)%Q ↔ X = Y)
  ∧ ((jaccard_similarity X Y == 1)%Q ↔ X = Y ∧ X ≠ ∅).
Proof.
  destruct (decide (X = ∅)) as [EX|HX]; destruct (decide (Y = ∅)) as [EY|HY].
  - subst. destruct jaccard_both_empty as [-> ->].
    split; [done|]. split; [discriminate | naive_solver].
  - subst. destruct (jaccard_one_empty ∅ Y) as [-> ->]; [by left|].
    split; (split; [discriminate | naive_solver]).
  - subst. destruct (jaccard_one_empty X ∅) as [-> ->]; [by right|].
    split; (split; [discriminate | naive_solver]).
  - rewrite jaccard_nonempty, jaccard_similarity_nonempty by done.
    pose proof (size_union_pos X Y HX).
    rewrite py_div_eq_1 by lia.
    rewrite Nat2Z.inj_iff, inter_union_same_size. naive_solver.
Qed.

(** X2: the score is 0 exactly when the two sets share no fingerprint;
    for [jaccard] two empty sets are the exception (they score 1). *)
Theorem jaccard_zero_iff_disjoint (X Y : gset string) :
  ((jaccard X Y == 0)%Q ↔ X ∩ Y = ∅ ∧ (X ≠ ∅ ∨ Y ≠ ∅))
  ∧ ((jaccard_similarity X Y == 0)%Q ↔ X ∩ Y = ∅).
Proof.
  destruct (decide (X = ∅)) as [EX|HX]; destruct (decide (Y = ∅)) as [EY|HY].
  - subst. destruct jaccard_both_empty as [-> ->].
    split; (split; [try discriminate | try naive_solver]). intros _. set_solver.
  - subst. destruct (jaccard_one_empty ∅ Y) as [-> ->]; [by left|].
    split; (split; [intros _ | done]); [split; [set_solver | by right] | set_solver].
  - subst. destruct (jaccard_one_empty X ∅) as [-> ->]; [by right|].
    split; (split; [intros _ | done]); [split; [set_solver | by left] | set_solver].
  - rewrite jaccard_nonempty, jaccard_similarity_nonempty by done.
    pose proof (size_union_pos X Y HX).
    rewrite py_div_eq_0 by lia.
    replace 0 with (Z.of_nat 0) by done.
    rewrite Nat2Z.inj_iff, size_inter_zero. naive_solver.
Qed.

(** ** Fingerprinting: the windows and what they detect *)

Lemma shingle_loop_list_to_set (f : Z → string) (l : list Z) :
  ∀ fps : gset string,
    fold_left (fun fps i => fps ∪ {[ f i ]}) l fps = fps ∪ list_to_set (f <$> l).
Proof.
  induction l as [|i l IH]; intros fps; simpl; [set_solver|].
  rewrite IH. set_solver.
Qed.

Section Windows.
Variable sha1_hex : string → string.

(** Inside the sequence the slice [toks[i:i+k]] is the window of exactly
    [k] tokens that starts at [i]. *)
Lemma py_slice_window (toks : list string) (i : nat) (k : Z) :
  0 ≤ k → Z.of_nat i + k ≤ Z.of_nat (length toks) →
  py_slice toks (Z.of_nat i) (Z.of_nat i + k) = take (Z.to_nat k) (drop i toks).
Proof.
  intros Hk Hik. unfold py_slice, py_bound.
  destruct (Z.ltb_spec (Z.of_nat i) 0); [lia|].
  destruct (Z.ltb_spec (Z.of_nat i + k) 0); [lia|].
  rewrite !Z.min_l by lia. f_equal; [lia|]. f_equal. lia.
Qed.

Lemma fingerprints_from_norm_windows (toks : list string) (k : Z) (h : string) :
  1 ≤ k →
  h ∈ fingerprints_from_norm sha1_hex toks k
  ↔ ∃ i : nat, Z.of_nat i + k ≤ Z.of_nat (length toks)
               ∧ h = shingle_digest sha1_hex (take (Z.to_nat k) (drop i toks)).
Proof.
  intros Hk. rewrite elem_of_fingerprints_from_norm. split.
  - intros (i & Hi & ->). exists (Z.to_nat i). split; [lia|].
    rewrite <- py_slice_window by lia. by rewrite Z2Nat.id by lia.
  - intros (i & Hi & ->). exists (Z.of_nat i). split; [lia|].
    by rewrite py_slice_window by lia.
Qed.

Lemma fingerprint_tokens_long (toks : list string) (k : Z) :
  1 ≤ k → k ≤ Z.of_nat (length toks) →
  fingerprint_tokens sha1_hex toks k = Ok (fingerprints_from_norm sha1_hex toks k).
Proof.
  intros Hk Hn. unfold fingerprint_tokens, fingerprints_from_norm.
  destruct (Z.leb_spec k 0); [lia|].
  destruct (Z.ltb_spec (Z.of_nat (length toks)) k); [lia|].
  by rewrite Z.max_r by lia.
Qed.

(** X3: for a window size of at least one, the two fingerprint functions
    return the same set on every sequence that is empty or has at least
    [k] tokens. *)
Theorem fingerprint_variants_agree (toks : list string) (k : Z) :
  1 ≤ k →
  k ≤ Z.of_nat (length toks) ∨ length toks = 0%nat →
  fingerprint_tokens sha1_hex toks k = Ok (fingerprints_from_norm sha1_hex toks k).
Proof.
  intros Hk [Hn | Hn]; [by apply fingerprint_tokens_long|].
  destruct (fingerprint_tokens_count_law sha1_hex toks k Hk) as (_ & _ & H1).
  destruct (fingerprints_from_norm_count sha1_hex toks k Hk) as (_ & H2).
  rewrite (H1 Hn), H2 by lia. done.
Qed.

(** X4: with [1 <= k <= n], the fingerprints [fingerprint_tokens] returns
    are exactly the digests of the windows of [k] consecutive tokens. *)
Theorem fingerprint_tokens_are_window_digests (toks : list string) (k : Z) :
  1 ≤ k → k ≤ Z.of_nat (length toks) →
  ∃ fps, fingerprint_tokens sha1_hex toks k = Ok fps
         ∧ ∀ h, h ∈ fps
                ↔ ∃ i : nat, (i + Z.to_nat k ≤ length toks)%nat
                             ∧ h = shingle_digest sha1_hex
                                     (take (Z.to_nat k) (drop i toks)).
Proof.
  intros Hk Hn. eexists. split; [by apply fingerprint_tokens_long|].
  intros h. rewrite fingerprints_from_norm_windows by done.
  split; intros (i & Hi & ->); exists i; (split; [lia|done]).
Qed.

End Windows.

Lemma fingerprint_variants_agree_witness :
  fingerprint_tokens (fun bytes => bytes) ["a"; "b"; "c"] 2
  = Ok (fingerprints_from_norm (fun bytes => bytes) ["a"; "b"; "c"] 2).
Proof.
  apply (fingerprint_variants_agree (fun bytes => bytes) ["a"; "b"; "c"] 2).
  - lia.
  - left. simpl. lia.
Defined.

Lemma fingerprint_tokens_are_window_digests_witness :
  ∃ fps, fingerprint_tokens (fun bytes => bytes) ["a"; "b"; "c"] 2 = Ok fps
         ∧ ∀ h, h ∈ fps
                ↔ ∃ i : nat, (i + Z.to_nat 2 ≤ length ["a"; "b"; "c"])%nat
                             ∧ h = shingle_digest (fun bytes => bytes)
                                     (take (Z.to_nat 2) (drop i ["a"; "b"; "c"])).
Proof.
  apply (fingerprint_tokens_are_window_digests (fun bytes => bytes) ["a"; "b"; "c"] 2).
  - lia.
  - simpl. lia.
Defined.

(** Two sets with a common fingerprint have a positive score. *)
Lemma jaccard_common_positive (X Y : gset string) (h : string) :
  h ∈ X → h ∈ Y → (0 < jaccard X Y)%Q ∧ (0 < jaccard_similarity X Y)%Q.
Proof.
  intros HX HY.
  assert (X ≠ ∅) by set_solver. assert (Y ≠ ∅) by set_solver.
  rewrite jaccard_nonempty, jaccard_similarity_nonempty by done.
  pose proof (size_union_pos X Y ltac:(done)) as Hu.
  assert (Hi : (0 < size (X ∩ Y))%nat).
  { destruct (size (X ∩ Y)) eqn:E; [|lia].
    apply size_empty_iff in E. set_solver. }
  destruct (Z.of_nat (size (X ∪ Y))) as [|p|p] eqn:Ep; try lia.
  rewrite py_div_pos. unfold Qlt. simpl. lia.
Qed.

Section Detection.
Variable sha1_hex : string → string.

Lemma window_in_fingerprints (p w s : list string) (k : Z) :
  1 ≤ k → Z.of_nat (length w) = k →
  shingle_digest sha1_hex w ∈ fingerprints_from_norm sha1_hex (p ++ w ++ s) k.
Proof.
  intros Hk Hw. apply fingerprints_from_norm_windows; [done|].
  exists (length p). split.
  - rewrite !length_app. lia.
  - rewrite drop_app_length. by rewrite take_app_length' by lia.
Qed.

(** X5: a run of [k] consecutive canonical tokens that occurs in two
    sequences puts its digest into both fingerprint sets, so the pair
    scores above 0 with either Jaccard function, whatever surrounds the
    run. *)
Theorem shared_window_is_detected (p1 s1 p2 s2 w : list string) (k : Z) :
  1 ≤ k → Z.of_nat (length w) = k →
  fingerprint_tokens sha1_hex (p1 ++ w ++ s1) k
  = Ok (fingerprints_from_norm sha1_hex (p1 ++ w ++ s1) k)
  ∧ fingerprint_tokens sha1_hex (p2 ++ w ++ s2) k
    = Ok (fingerprints_from_norm sha1_hex (p2 ++ w ++ s2) k)
  ∧ shingle_digest sha1_hex w ∈ fingerprints_from_norm sha1_hex (p1 ++ w ++ s1) k
  ∧ shingle_digest sha1_hex w ∈ fingerprints_from_norm sha1_hex (p2 ++ w ++ s2) k
  ∧ (0 < jaccard (fingerprints_from_norm sha1_hex (p1 ++ w ++ s1) k)
               (fingerprints_from_norm sha1_hex (p2 ++ w ++ s2) k))%Q
  ∧ (0 < jaccard_similarity (fingerprints_from_norm sha1_hex (p1 ++ w ++ s1) k)
                          (fingerprints_from_norm sha1_hex (p2 ++ w ++ s2) k))%Q.
Proof.
  intros Hk Hw.
  pose proof (window_in_fingerprints p1 w s1 k Hk Hw) as H1.
  pose proof (window_in_fingerprints p2 w s2 k Hk Hw) as H2.
  split; [|split].
  - apply fingerprint_tokens_long; [done|]. rewrite !length_app. lia.
  - apply fingerprint_tokens_long; [done|]. rewrite !length_app. lia.
  - split; [done|]. split; [done|]. by apply (jaccard_common_positive _ _ _ H1 H2).
Qed.

(** X6: when the windows of a sequence of [n >= k] tokens have pairwise
    different digests, the fingerprint set has exactly [n - k + 1]
    elements. *)
Theorem fingerprint_count_exact (toks : list string) (k : Z) :
  1 ≤ k → k ≤ Z.of_nat (length toks) →
  (∀ i j : nat,
      Z.of_nat i + k ≤ Z.of_nat (length toks) →
      Z.of_nat j + k ≤ Z.of_nat (length toks) →
      shingle_digest sha1_hex (take (Z.to_nat k) (drop i toks))
      = shingle_digest sha1_hex (take (Z.to_nat k) (drop j toks)) →
      i = j) →
  fingerprint_tokens sha1_hex toks k = Ok (fingerprints_from_norm sha1_hex toks k)
  ∧ Z.of_nat (size (fingerprints_from_norm sha1_hex toks k))
    = Z.of_nat (length toks) - k + 1.
Proof.
  intros Hk Hn Hinj. split; [by apply fingerprint_tokens_long|].
  unfold fingerprints_from_norm.
  rewrite (shingle_loop_list_to_set
             (fun i => shingle_digest sha1_hex (py_slice toks i (i + k)))).
  rewrite union_empty_l_L, size_list_to_set.
  - rewrite length_fmap, py_range_length. lia.
  - apply NoDup_fmap_2_strong.
    + intros x y Hx Hy E.
      apply elem_of_py_range in Hx, Hy.
      rewrite <- (Z2Nat.id x), <- (Z2Nat.id y) in E by lia.
      rewrite !py_slice_window in E by lia.
      apply Hinj in E; lia.
    + unfold py_range. apply NoDup_fmap_2; [apply _ | apply NoDup_seq].
Qed.

End Detection.

Lemma shared_window_is_detected_witness :
  (0 < jaccard (fingerprints_from_norm (fun bytes => bytes)
                  (["x"] ++ ["a"; "b"] ++ ["y"; "z"]) 2)
               (fingerprints_from_norm (fun bytes => bytes)
                  ([] ++ ["a"; "b"] ++ ["c"]) 2))%Q.
Proof.
  apply (shared_window_is_detected (fun bytes => bytes)
           ["x"] ["y"; "z"] [] ["c"] ["a"; "b"] 2); [lia | reflexivity].
Defined.

Lemma fingerprint_count_exact_witness :
  Z.of_nat (size (fingerprints_from_norm (fun bytes => bytes) ["a"; "b"; "c"] 2))
  = Z.of_nat (length ["a"; "b"; "c"]) - 2 + 1.
Proof.
  apply (fingerprint_count_exact (fun bytes => bytes) ["a"; "b"; "c"] 2).
  - lia.
  - simpl. lia.
  - intros [|[|i]] [|[|j]]; simpl; intros Hi Hj E;
      first [ reflexivity | lia | discriminate E ].
Defined.

(** ** Normalizer: the rename table and the output it explains *)

Lemma id_name_inj (j k : N) : id_name j = id_name k → j = k.
Proof.
  unfold id_name. intros E.
  assert (E' : NilEmpty.string_of_uint (N.to_uint j)
               = NilEmpty.string_of_uint (N.to_uint k)) by (by injection E).
  clear E. rename E' into E.
  apply DecimalN.Unsigned.to_uint_inj.
  pose proof (NilEmpty.usu (N.to_uint j)) as Hj.
  pose proof (NilEmpty.usu (N.to_uint k)) as Hk.
  rewrite E in Hj. congruence.
Qed.

Section Table.
Variable keywords : gset string.

Lemma emitted_app (m : gmap string string) (tok : string) (l : list string)
  (x : string) (i : nat) :
  (i < length l)%nat →
  emitted keywords m tok (l !! i) → emitted keywords m tok ((l ++ [x]) !! i).
Proof. intros Hi. by rewrite lookup_app_l. Qed.

(** One iteration keeps the two invariants. *)
Lemma normalize_step_ok (seen : list string) (st : norm_state) (tok : string) :
  table_ok keywords seen st → output_ok keywords seen st →
  table_ok keywords (seen ++ [tok]) (normalize_step keywords st tok)
  ∧ output_ok keywords (seen ++ [tok]) (normalize_step keywords st tok).
Proof.
  intros (Hdom & Hval & Hsur & Hinj & Hsz) (Hlen & Hout).
  assert (Hold : ∀ (m : gmap string string) (x : string),
             id_map st ⊆ m →
             ∀ i t, (seen ++ [tok]) !! i = Some t → (i < length seen)%nat →
                    emitted keywords m t ((norm st ++ [x]) !! i)).
  { intros m x Hsub i t Hi Hlt.
    rewrite lookup_app_l in Hi by done. rewrite lookup_app_l by lia.
    specialize (Hout i t Hi). unfold emitted in *.
    destruct (classify keywords t); try done.
    destruct Hout as [[name Hn] Hl]. split; [by eexists|].
    rewrite Hn in Hl. rewrite Hn. symmetry.
    eapply lookup_weaken; [by symmetry | done]. }
  assert (Hnew : ∀ i t, (seen ++ [tok]) !! i = Some t → ¬ (i < length seen)%nat →
                        i = length seen ∧ t = tok).
  { intros i t Hi Hlt. rewrite lookup_app_r in Hi by lia.
    destruct (i - length seen)%nat eqn:E; simpl in Hi; [|done].
    injection Hi as <-. split; [lia|done]. }
  assert (Hlast : ∀ x, (norm st ++ [x]) !! length seen = Some x).
  { intros x. rewrite lookup_app_r by lia. by rewrite Hlen, Nat.sub_diag. }
  assert (Hsame : classify keywords tok ≠ CIdent →
            ∀ t, (t ∈ seen ++ [tok] ∧ classify keywords t = CIdent)
                 ↔ (t ∈ seen ∧ classify keywords t = CIdent)).
  { intros Hc t. rewrite elem_of_app, list_elem_of_singleton. naive_solver. }
  unfold normalize_step.
  destruct (classify keywords tok) eqn:Hcl.
  1-3,5:
    (split;
     [ split; [intros t; simpl; rewrite Hsame by (try rewrite Hcl; discriminate); apply Hdom|];
       done
     | split; [simpl; rewrite !length_app; simpl; lia|];
       intros i t Hi; simpl;
       destruct (decide (i < length seen)%nat) as [Hlt|Hge];
       [ by apply Hold
       | destruct (Hnew i t Hi Hge) as [-> ->]; rewrite Hlast;
         unfold emitted; by rewrite Hcl ] ]).
  destruct (id_map st !! tok) as [name|] eqn:Hl.
  - split.
    + split; [|done]. intros t. simpl. rewrite Hdom, elem_of_app, list_elem_of_singleton.
      split; [naive_solver|]. intros [[Ht | ->] Hc]; [done|].
      apply Hdom. by eexists.
    + split; [simpl; rewrite !length_app; simpl; lia|].
      intros i t Hi. simpl.
      destruct (decide (i < length seen)%nat) as [Hlt|Hge]; [by apply Hold|].
      destruct (Hnew i t Hi Hge) as [-> ->]. rewrite Hlast.
      unfold emitted. rewrite Hcl, Hl. split; [by eexists | done].
  - assert (Hfresh : ∀ y name, id_map st !! y = Some name → y ≠ tok).
    { intros y name Hy ->. congruence. }
    split.
    + refine (conj _ (conj _ (conj _ (conj _ _)))); simpl.
      * intros t. split.
        -- intros [v Hv]. destruct (decide (t = tok)) as [->|Hne].
           ++ rewrite elem_of_app, list_elem_of_singleton. auto.
           ++ rewrite lookup_insert_ne in Hv by done.
              destruct (proj1 (Hdom t) (ex_intro _ v Hv)) as [Hin Hc].
              rewrite elem_of_app. auto.
        -- intros [Hin Hc]. destruct (decide (t = tok)) as [->|Hne].
           ++ rewrite lookup_insert_eq. by eexists.
           ++ rewrite lookup_insert_ne by done. apply Hdom. split; [|done].
              apply elem_of_app in Hin as [Hin|Hin]; [done|].
              by apply list_elem_of_singleton in Hin.
      * intros t nm Ht. destruct (decide (t = tok)) as [->|Hne].
        -- rewrite lookup_insert_eq in Ht. injection Ht as <-.
           exists (next_id st). split; [lia|done].
        -- rewrite lookup_insert_ne in Ht by done.
           destruct (Hval t nm Ht) as (k & Hk & ->). exists k. split; [lia|done].
      * intros k Hk. destruct (decide (k = next_id st)) as [->|Hne].
        -- exists tok. by rewrite lookup_insert_eq.
        -- destruct (Hsur k) as [t Ht]; [lia|]. exists t.
           rewrite lookup_insert_ne; [done|]. intros <-. congruence.
      * intros x y nm Hx Hy.
        destruct (decide (x = tok)) as [->|Hx'];
          destruct (decide (y = tok)) as [->|Hy']; [done|..].
        -- rewrite lookup_insert_eq in Hx. rewrite lookup_insert_ne in Hy by done.
           injection Hx as <-. destruct (Hval y _ Hy) as (k & Hk & E).
           apply id_name_inj in E. lia.
        -- rewrite lookup_insert_eq in Hy. rewrite lookup_insert_ne in Hx by done.
           injection Hy as <-. destruct (Hval x _ Hx) as (k & Hk & E).
           apply id_name_inj in E. lia.
        -- rewrite lookup_insert_ne in Hx, Hy by done. by eapply Hinj.
      * rewrite map_size_insert_None by done. lia.
    + split; [simpl; rewrite !length_app; simpl; lia|].
      intros i t Hi. simpl.
      destruct (decide (i < length seen)%nat) as [Hlt|Hge].
      * apply Hold; [|done|done]. by apply insert_subseteq.
      * destruct (Hnew i t Hi Hge) as [-> ->]. rewrite Hlast.
        unfold emitted. rewrite Hcl, lookup_insert_eq. split; [by eexists | done].
Qed.

Lemma normalize_loop_ok (l : list string) :
  ∀ seen st,
    table_ok keywords seen st → output_ok keywords seen st →
    table_ok keywords (seen ++ l) (normalize_loop keywords l st)
    ∧ output_ok keywords (seen ++ l) (normalize_loop keywords l st).
Proof.
  induction l as [|tok l IH]; intros seen st Ht Ho.
  - by rewrite app_nil_r.
  - destruct (normalize_step_ok seen st tok Ht Ho) as [Ht' Ho'].
    replace (seen ++ tok :: l) with ((seen ++ [tok]) ++ l) by (by rewrite <- app_assoc).
    by apply IH.
Qed.

Lemma normalize_init_ok :
  table_ok keywords [] (NormState ∅ 1 []) ∧ output_ok keywords [] (NormState ∅ 1 []).
Proof.
  split.
  - refine (conj _ (conj _ (conj _ (conj _ _)))); simpl.
    + intros tok. split.
      * intros [v Hv]. by rewrite lookup_empty in Hv.
      * intros [Hin _]. by apply elem_of_nil in Hin.
    + intros tok name H. by rewrite lookup_empty in H.
    + intros k Hk. lia.
    + intros x y name H. by rewrite lookup_empty in H.
    + done.
  - split; [done|]. intros i tok Hi. done.
Qed.

Lemma normalize_ok (t : list string) :
  table_ok keywords t (normalize_loop keywords t (NormState ∅ 1 []))
  ∧ output_ok keywords t (normalize_loop keywords t (NormState ∅ 1 [])).
Proof.
  destruct normalize_init_ok as [Ht Ho].
  exact (normalize_loop_ok t [] _ Ht Ho).
Qed.

End Table.

Lemma table_size (keywords : gset string) (seen : list string) (st : norm_state) :
  table_ok keywords seen st → size (id_map st) = size (identifiers keywords seen).
Proof.
  intros (Hdom & _). rewrite <- size_dom. f_equal.
  apply set_eq. intros tok. rewrite elem_of_dom, Hdom.
  unfold identifiers. rewrite elem_of_list_to_set, list_elem_of_filter. tauto.
Qed.

(** X7: the rename table [normalize] returns holds exactly the identifier
    tokens of its input, maps different identifiers to different names,
    and its names are exactly ID1 .. IDm for [m] the number of distinct
    identifiers. *)
Theorem normalize_table_is_bijection (t : list string) (keywords : gset string) :
  (∀ tok, is_Some ((normalize t keywords).2 !! tok)
          ↔ tok ∈ t ∧ classify keywords tok = CIdent)
  ∧ (∀ x y name, (normalize t keywords).2 !! x = Some name →
                 (normalize t keywords).2 !! y = Some name → x = y)
  ∧ (∀ name, (∃ tok, (normalize t keywords).2 !! tok = Some name)
             ↔ ∃ k, (1 ≤ k ≤ N.of_nat (size (normalize t keywords).2))%N
                    ∧ name = id_name k)
  ∧ size (normalize t keywords).2 = size (identifiers keywords t).
Proof.
  destruct (normalize_ok keywords t) as [Ht _].
  pose proof (table_size _ _ _ Ht) as Hsize.
  destruct Ht as (Hdom & Hval & Hsur & Hinj & Hsz).
  unfold normalize. simpl.
  split; [exact Hdom|]. split; [exact Hinj|]. split; [|exact Hsize].
  intros name. split.
  - intros [tok Htok]. destruct (Hval tok name Htok) as (k & Hk & ->).
    exists k. split; [lia|done].
  - intros (k & Hk & ->). apply Hsur. lia.
Qed.

(** X8: the two values [normalize] returns fit together: at every
    position the canonical token is STR for a string literal, NUM for a
    number, the token itself for a keyword or symbol, and for an
    identifier the name the returned table holds for it. *)
Theorem normalize_output_explained (t : list string) (keywords : gset string)
  (i : nat) (tok : string) :
  t !! i = Some tok →
  emitted keywords (normalize t keywords).2 tok ((normalize t keywords).1 !! i).
Proof.
  intros Hi. destruct (normalize_ok keywords t) as [_ [_ Ho]].
  unfold normalize. simpl. by apply Ho.
Qed.

Lemma normalize_output_explained_witness :
  emitted KEYWORDS
    (normalize ["int"; "x"; "="; "y"; "+"; "x"] KEYWORDS).2 "x"
    ((normalize ["int"; "x"; "="; "y"; "+"; "x"] KEYWORDS).1 !! 5%nat).
Proof.
  apply (normalize_output_explained ["int"; "x"; "="; "y"; "+"; "x"] KEYWORDS 5 "x").
  reflexivity.
Defined.

Lemma classify_keyword (keywords : gset string) (tok : string) :
  classify keywords tok = CKeyword → tok ∈ keywords.
Proof.
  unfold classify. destruct (is_string_literal tok); [done|].
  destruct (bool_decide (tok ∈ keywords)) eqn:E; [by apply bool_decide_eq_true in E|].
  by repeat case_match.
Qed.

Lemma classify_placeholder (keywords : gset string) (p : string) :
  p ∉ keywords → p = "STR" ∨ p = "NUM" → classify keywords p = CIdent.
Proof.
  intros Hk Hp. unfold classify.
  assert (is_string_literal p = false) as -> by (by destruct Hp as [-> | ->]).
  rewrite (proj2 (bool_decide_eq_false _) Hk).
  by destruct Hp as [-> | ->].
Qed.

Lemma id_name_not_placeholder (k : N) : id_name k ≠ "STR" ∧ id_name k ≠ "NUM".
Proof. unfold id_name. split; discriminate. Qed.

(** X9: with a keyword set that holds neither STR nor NUM (as the default
    one), the placeholders are unambiguous: the canonical token at a
    position is STR exactly when the token there is a string literal, and
    NUM exactly when it is a number. *)
Theorem normalize_placeholders_unambiguous (t : list string) (keywords : gset string)
  (i : nat) (tok : string) :
  "STR" ∉ keywords → "NUM" ∉ keywords →
  t !! i = Some tok →
  ((normalize t keywords).1 !! i = Some "STR" ↔ classify keywords tok = CStr)
  ∧ ((normalize t keywords).1 !! i = Some "NUM" ↔ classify keywords tok = CNum).
Proof.
  intros HS HN Hi.
  destruct (normalize_ok keywords t) as [(_ & Hval & _) [_ Ho]].
  specialize (Ho i tok Hi). unfold normalize. simpl.
  unfold emitted in Ho.
  destruct (classify keywords tok) eqn:Hcl.
  - rewrite Ho. split; (split; [done|]); [done | discriminate].
  - pose proof (classify_keyword _ _ Hcl) as Hin. rewrite Ho.
    split; (split; [|discriminate]); intros [= ->]; contradiction.
  - rewrite Ho. split; (split; [done|]); [discriminate | done].
  - destruct Ho as [[name Hn] Hl]. rewrite Hn in Hl. symmetry in Hl.
    destruct (Hval tok name Hl) as (k & _ & ->).
    destruct (id_name_not_placeholder k) as [H1 H2]. rewrite Hn.
    split; (split; [|discriminate]); intros [= E]; contradiction.
  - rewrite Ho.
    split; (split; [|discriminate]); intros [= ->].
    + rewrite (classify_placeholder keywords "STR") in Hcl by auto. discriminate.
    + rewrite (classify_placeholder keywords "NUM") in Hcl by auto. discriminate.
Qed.

Lemma normalize_placeholders_unambiguous_witness :
  ((normalize ["STR"; "'a'"; "NUM"; "7"] KEYWORDS).1 !! 0%nat = Some "STR"
   ↔ classify KEYWORDS "STR" = CStr)
  ∧ ((normalize ["STR"; "'a'"; "NUM"; "7"] KEYWORDS).1 !! 0%nat = Some "NUM"
     ↔ classify KEYWORDS "STR" = CNum).
Proof.
  apply (normalize_placeholders_unambiguous ["STR"; "'a'"; "NUM"; "7"] KEYWORDS 0 "STR").
  - apply (bool_decide_eq_false_1 ("STR" ∈ KEYWORDS)). vm_compute. reflexivity.
  - apply (bool_decide_eq_false_1 ("NUM" ∈ KEYWORDS)). vm_compute. reflexivity.
  - reflexivity.
Defined.

Lemma normalize_loop_app (keywords : gset string) (l1 l2 : list string)
  (st : norm_state) :
  normalize_loop keywords (l1 ++ l2) st
  = normalize_loop keywords l2 (normalize_loop keywords l1 st).
Proof. unfold normalize_loop. apply fold_left_app. Qed.

(** X10: the canonical sequence of a prefix is the prefix of the canonical
    sequence: tokens that follow never change what was emitted before. *)
Theorem normalize_prefix_stable (t1 t2 : list string) (keywords : gset string) :
  take (length t1) (normalize (t1 ++ t2) keywords).1 = (normalize t1 keywords).1.
Proof.
  unfold normalize. simpl. rewrite normalize_loop_app.
  destruct (normalize_loop_prefix keywords t2
              (normalize_loop keywords t1 (NormState ∅ 1 []))) as [out ->].
  pose proof (normalize_loop_length keywords t1 (NormState ∅ 1 [])) as Hlen.
  simpl in Hlen. by rewrite take_app_length' by done.
Qed.

Lemma normalize_fresh_identifier (pre post : list string) (keywords : gset string)
  (tok : string) :
  classify keywords tok = CIdent → tok ∉ pre →
  (normalize (pre ++ tok :: post) keywords).1 !! length pre
  = Some (id_name (N.of_nat (size (identifiers keywords pre)) + 1)).
Proof.
  intros Hcl Hfresh.
  replace (pre ++ tok :: post) with ((pre ++ [tok]) ++ post) by (by rewrite <- app_assoc).
  pose proof (normalize_prefix_stable (pre ++ [tok]) post keywords) as Hp.
  rewrite <- (lookup_take_lt _ (length (pre ++ [tok]))), Hp
    by (rewrite length_app; simpl; lia).
  unfold normalize. simpl. rewrite normalize_loop_app.
  destruct (normalize_ok keywords pre) as [Ht [Hlen _]].
  pose proof (table_size _ _ _ Ht) as Hsize.
  destruct Ht as (Hdom & _ & _ & _ & Hsz).
  set (st := normalize_loop keywords pre (NormState ∅ 1 [])) in *.
  assert (Hnone : id_map st !! tok = None).
  { destruct (id_map st !! tok) eqn:E; [|done].
    destruct (proj1 (Hdom tok) (ex_intro _ _ E)) as [Hin _]. contradiction. }
  change (normalize_loop keywords [tok] st) with (normalize_step keywords st tok).
  unfold normalize_step. rewrite Hcl, Hnone. simpl.
  rewrite lookup_app_r by lia. rewrite Hlen, Nat.sub_diag. simpl.
  by rewrite <- Hsz, Hsize.
Qed.

(** X11: names are given in first-occurrence order: an identifier that
    occurs for the first time at position [i] is emitted there as ID(d+1),
    with [d] the number of distinct identifiers among the tokens before
    it. *)
Theorem normalize_first_occurrence_numbering (t : list string)
  (keywords : gset string) (i : nat) (tok : string) :
  t !! i = Some tok →
  classify keywords tok = CIdent →
  tok ∉ take i t →
  (normalize t keywords).1 !! i
  = Some (id_name (N.of_nat (size (identifiers keywords (take i t))) + 1)).
Proof.
  intros Hi Hcl Hfresh.
  pose proof (normalize_fresh_identifier (take i t) (drop (S i) t) keywords tok
                Hcl Hfresh) as H.
  rewrite (take_drop_middle t i tok Hi) in H.
  assert (Hlt : (i < length t)%nat) by (by eapply lookup_lt_Some).
  rewrite length_take in H. by replace (i `min` length t)%nat with i in H by lia.
Qed.

Lemma normalize_first_occurrence_numbering_witness :
  (normalize ["int"; "x"; "="; "y"; "+"; "x"] KEYWORDS).1 !! 3%nat
  = Some (id_name (N.of_nat (size (identifiers KEYWORDS
                                     (take 3 ["int"; "x"; "="; "y"; "+"; "x"]))) + 1)).
Proof.
  apply (normalize_first_occurrence_numbering
           ["int"; "x"; "="; "y"; "+"; "x"] KEYWORDS 3 "y").
  - reflexivity.
  - vm_compute. reflexivity.
  - simpl. intros H. each_token H; discriminate.
Defined.

(** ** Aggregate: range, symmetry, identical collections *)

Lemma py_max_range (a b : Q) :
  (0 <= a <= 1)%Q → (0 <= b <= 1)%Q → (0 <= py_max a b <= 1)%Q.
Proof. unfold py_max. by destruct (Qle_bool b a). Qed.

Lemma running_max_range {A} (g : A → Q) (l : list A) :
  (∀ x, (0 <= g x <= 1)%Q) →
  ∀ a, (0 <= a <= 1)%Q →
       (0 <= fold_left (fun best x => py_max best (g x)) l a <= 1)%Q.
Proof.
  intros Hg. induction l as [|x l IH]; intros a Ha; simpl; [done|].
  apply IH. by apply py_max_range.
Qed.

Lemma best_match_range (f : file_info) (B : repo) : (0 <= best_match f B <= 1)%Q.
Proof.
  unfold best_match.
  apply (running_max_range (fun o => jaccard (fingerprints f) (fingerprints o.2))).
  - intros x. apply jaccard_range.
  - split; discriminate.
Qed.

Lemma best_score_range (f : file_info) (B : repo) : (0 <= best_score f B <= 1)%Q.
Proof.
  unfold best_score.
  apply (running_max_range
           (fun o => jaccard_similarity (fingerprints f) (fingerprints o.2))).
  - intros x. apply jaccard_similarity_range.
  - split; discriminate.
Qed.

Lemma Qsum_weighted_range (A : repo) (g : file_info → Q) :
  (∀ f, (0 <= g f <= 1)%Q) →
  (0 <= Qsum ((fun item => g item.2 * inject_Z (weight item.2)) <$> A)
   <= inject_Z (py_sum ((fun item => weight item.2) <$> A)))%Q.
Proof.
  intros Hg. induction A as [|f A [IH1 IH2]].
  - simpl. split; apply Qle_refl.
  - rewrite !fmap_cons, py_sum_cons, inject_Z_plus. simpl.
    destruct (Hg f.2) as [H0 H1].
    assert (Hw : (0 <= inject_Z (weight f.2))%Q).
    { unfold weight, Qle. simpl. lia. }
    split.
    + rewrite <- (Qplus_0_l 0). apply Qplus_le_compat; [|done].
      by apply Qmult_le_0_compat.
    + apply Qplus_le_compat; [|done].
      rewrite <- (Qmult_1_l (inject_Z (weight f.2))) at 2.
      by apply Qmult_le_compat_r.
Qed.

(** A quotient of a weighted sum of scores by the total weight lies
    between 0 and 1. *)
Lemma weighted_mean_range (A : repo) (g : file_info → Q) :
  (∀ f, (0 <= g f <= 1)%Q) →
  0 < py_sum ((fun item => weight item.2) <$> A) →
  (0 <= fold_left (fun sumw item => sumw + g item.2 * inject_Z (weight item.2)) A 0
        / inject_Z (py_sum ((fun item => weight item.2) <$> A)) <= 1)%Q.
Proof.
  intros Hg Hpos.
  rewrite (weighted_sum_loop
             (fun item => g item.2 * inject_Z (weight item.2))%Q
             (fun item => g item.2 * inject_Z (weight item.2))%Q)
    by (intros; reflexivity).
  rewrite Qplus_0_l.
  destruct (Qsum_weighted_range A g Hg) as [H0 H1].
  assert (Ht : (0 < inject_Z (py_sum ((fun item => weight item.2) <$> A)))%Q).
  { unfold Qlt. simpl. lia. }
  split.
  - apply Qle_shift_div_l; [done|]. by rewrite Qmult_0_l.
  - apply Qle_shift_div_r; [done|]. by rewrite Qmult_1_l.
Qed.

Lemma py_sum_weights_nonneg (A : repo) :
  0 ≤ py_sum ((fun item => weight item.2) <$> A).
Proof.
  induction A as [|f A IH]; [done|].
  rewrite fmap_cons, py_sum_cons. unfold weight at 1. lia.
Qed.

Lemma directional_range (A B : repo) : (0 <= directional A B <= 1)%Q.
Proof.
  unfold directional.
  destruct (Z.eqb_spec (py_sum ((fun item => weight item.2) <$> A)) 0) as [E|E].
  - split; discriminate.
  - apply (weighted_mean_range A (fun f => best_match f B)).
    + intros f. apply best_match_range.
    + pose proof (py_sum_weights_nonneg A). lia.
Qed.

Lemma directional_claude_range (A B : repo) : (0 <= directional_claude A B <= 1)%Q.
Proof.
  unfold directional_claude. rewrite claude_loop.
  destruct (Z.ltb_spec 0 (0 + py_sum ((fun item => weight item.2) <$> A))) as [E|E].
  - rewrite Z.add_0_l in *.
    apply (weighted_mean_range A (fun f => best_score f B)); [|done].
    intros f. apply best_score_range.
  - split; discriminate.
Qed.

Lemma mean_range (a b : Q) :
  (0 <= a <= 1)%Q → (0 <= b <= 1)%Q → (0 <= (a + b) / 2 <= 1)%Q.
Proof.
  intros [Ha0 Ha1] [Hb0 Hb1]. split.
  - apply Qle_shift_div_l; [done|]. rewrite Qmult_0_l.
    rewrite <- (Qplus_0_l 0). by apply Qplus_le_compat.
  - apply Qle_shift_div_r; [done|].
    change (1 * 2)%Q with (1 + 1)%Q. by apply Qplus_le_compat.
Qed.

(** X12: the aggregate score lies between 0 and 1 and does not depend on
    which collection is called A, for every pair of collections and in
    both implementations. *)
Theorem aggregate_range_and_symmetry (A B : repo) :
  ((0 <= aggregate A B <= 1)%Q ∧ (aggregate A B == aggregate B A)%Q)
  ∧ ((0 <= aggregate_repo_similarity A B <= 1)%Q
     ∧ (aggregate_repo_similarity A B == aggregate_repo_similarity B A)%Q).
Proof.
  split; split.
  - apply mean_range; apply directional_range.
  - unfold aggregate. by rewrite Qplus_comm.
  - unfold aggregate_repo_similarity.
    destruct A, B; try (split; discriminate).
    apply mean_range; apply directional_claude_range.
  - unfold aggregate_repo_similarity.
    destruct A, B; try reflexivity. by rewrite Qplus_comm.
Qed.

Lemma py_max_ge (a b : Q) : (a <= py_max a b)%Q ∧ (b <= py_max a b)%Q.
Proof.
  unfold py_max. destruct (Qle_bool b a) eqn:E.
  - apply Qle_bool_iff in E. split; [apply Qle_refl | done].
  - split; [|apply Qle_refl].
    destruct (Qlt_le_dec a b) as [H|H]; [by apply Qlt_le_weak|].
    apply Qle_bool_iff in H. congruence.
Qed.

Lemma running_max_ge {A} (g : A → Q) (l : list A) :
  ∀ a, (a <= fold_left (fun best x => py_max best (g x)) l a)%Q
       ∧ ∀ x, x ∈ l → (g x <= fold_left (fun best x => py_max best (g x)) l a)%Q.
Proof.
  induction l as [|y l IH]; intros a; simpl.
  - split; [apply Qle_refl|]. intros x Hx. by apply elem_of_nil in Hx.
  - destruct (IH (py_max a (g y))) as [IH1 IH2].
    destruct (py_max_ge a (g y)) as [Ha Hy].
    split; [by eapply Qle_trans|].
    intros x Hx. apply elem_of_cons in Hx as [->|Hx]; [by eapply Qle_trans | by apply IH2].
Qed.

Lemma jaccard_refl (X : gset string) : (jaccard X X == 1)%Q.
Proof.
  destruct (decide (X = ∅)) as [->|HX].
  - by rewrite (proj1 jaccard_both_empty).
  - rewrite jaccard_nonempty by done. pose proof (size_union_pos X X HX).
    apply py_div_eq_1; [lia|]. f_equal. f_equal. set_solver.
Qed.

Lemma jaccard_similarity_refl (X : gset string) :
  X ≠ ∅ → (jaccard_similarity X X == 1)%Q.
Proof.
  intros HX. rewrite jaccard_similarity_nonempty by done.
  pose proof (size_union_pos X X HX).
  apply py_div_eq_1; [lia|]. f_equal. f_equal. set_solver.
Qed.

Lemma best_match_self (f : string * file_info) (A : repo) :
  f ∈ A → (best_match f.2 A == 1)%Q.
Proof.
  intros Hf. apply Qle_antisym; [apply best_match_range|].
  pose proof (proj2 (running_max_ge
                       (fun o : string * file_info =>
                          jaccard (fingerprints f.2) (fingerprints o.2)) A 0%Q)
                f Hf) as H.
  simpl in H. rewrite jaccard_refl in H. exact H.
Qed.

Lemma best_score_self (f : string * file_info) (A : repo) :
  f ∈ A → fingerprints f.2 ≠ ∅ → (best_score f.2 A == 1)%Q.
Proof.
  intros Hf Hne. apply Qle_antisym; [apply best_score_range|].
  pose proof (proj2 (running_max_ge
                       (fun o : string * file_info =>
                          jaccard_similarity (fingerprints f.2) (fingerprints o.2))
                       A 0%Q)
                f Hf) as H.
  simpl in H. rewrite (jaccard_similarity_refl _ Hne) in H. exact H.
Qed.

(** A weighted sum whose scores are all 1 is the total weight, so the
    quotient is 1. *)
Lemma weighted_mean_of_ones (A : repo) (g : file_info → Q) :
  A ≠ [] →
  (∀ f, f ∈ A → (g f.2 == 1)%Q) →
  (fold_left (fun sumw item => sumw + g item.2 * inject_Z (weight item.2)) A 0
   / inject_Z (py_sum ((fun item => weight item.2) <$> A)) == 1)%Q.
Proof.
  intros HA Hg.
  rewrite (weighted_sum_loop
             (fun item => g item.2 * inject_Z (weight item.2))%Q
             (fun f => inject_Z (Z.max 1 (norm_len f.2)))).
  - rewrite Qplus_0_l, <- total_weight_Qsum.
    apply Qmult_inv_r. pose proof (total_weight_pos A HA).
    unfold Qeq. simpl. lia.
  - intros x Hx. rewrite (Hg x Hx). apply Qmult_1_l.
Qed.

(** X13: a non-empty collection compared with itself has aggregate 1 with
    [aggregate]; with [aggregate_repo_similarity] it has when no file has
    an empty fingerprint set. *)
Theorem aggregate_of_identical_collections (A : repo) :
  A ≠ [] →
  (aggregate A A == 1)%Q
  ∧ ((∀ f, f ∈ A → fingerprints f.2 ≠ ∅) → (aggregate_repo_similarity A A == 1)%Q).
Proof.
  intros HA. pose proof (total_weight_pos A HA) as Hpos. split.
  - assert (Hd : (directional A A == 1)%Q).
    { unfold directional.
      destruct (Z.eqb_spec (py_sum ((fun item => weight item.2) <$> A)) 0); [lia|].
      apply (weighted_mean_of_ones A (fun f => best_match f A) HA).
      intros f Hf. by apply best_match_self. }
    unfold aggregate. rewrite Hd. reflexivity.
  - intros Hne.
    assert (Hd : (directional_claude A A == 1)%Q).
    { unfold directional_claude. rewrite claude_loop, Z.add_0_l.
      destruct (Z.ltb_spec 0 (py_sum ((fun item => weight item.2) <$> A))); [|lia].
      apply (weighted_mean_of_ones A (fun f => best_score f A) HA).
      intros f Hf. apply best_score_self; auto. }
    unfold aggregate_repo_similarity. destruct A; [done|].
    rewrite Hd. reflexivity.
Qed.

Lemma aggregate_of_identical_collections_witness :
  (aggregate [("a.java", FileInfo {["h1"; "h2"]} 7); ("b.java", FileInfo ∅ 0)]
             [("a.java", FileInfo {["h1"; "h2"]} 7); ("b.java", FileInfo ∅ 0)]
   == 1)%Q.
Proof.
  refine (proj1 (aggregate_of_identical_collections
                   [("a.java", FileInfo {["h1"; "h2"]} 7); ("b.java", FileInfo ∅ 0)] _)).
  discriminate.
Defined.

(** ** Aggregate: the three implementations against each other *)

Lemma jaccard_agree (a b : gset string) :
  a ≠ ∅ ∨ b ≠ ∅ → jaccard a b = jaccard_similarity a b.
Proof.
  intros Hne.
  destruct (decide (a = ∅)) as [Ea|Ha]; destruct (decide (b = ∅)) as [Eb|Hb].
  - subst. destruct Hne; contradiction.
  - destruct (jaccard_one_empty a b) as [-> ->]; auto.
  - destruct (jaccard_one_empty a b) as [-> ->]; auto.
  - by rewrite jaccard_nonempty, jaccard_similarity_nonempty.
Qed.

Lemma fold_left_ext_in {A S} (f g : S → A → S) (l : list A) :
  (∀ s x, x ∈ l → f s x = g s x) → ∀ s, fold_left f l s = fold_left g l s.
Proof.
  induction l as [|x l IH]; intros H s; simpl; [done|].
  rewrite (H s x) by (by left). apply IH. intros s' y Hy. apply H. by right.
Qed.

Lemma best_match_eq_best_score (f : file_info) (B : repo) :
  (∀ g, g ∈ B → jaccard (fingerprints f) (fingerprints g.2)
                = jaccard_similarity (fingerprints f) (fingerprints g.2)) →
  best_match f B = best_score f B.
Proof.
  intros H. unfold best_match, best_score. apply fold_left_ext_in.
  intros s g Hg. rewrite (H g Hg). reflexivity.
Qed.

Lemma directional_eq_claude (A B : repo) :
  (∀ f, f ∈ A → best_match f.2 B = best_score f.2 B) →
  directional A B = directional_claude A B.
Proof.
  intros H. unfold directional, directional_claude.
  rewrite claude_loop, Z.add_0_l.
  pose proof (py_sum_weights_nonneg A) as Hnn.
  rewrite (fold_left_ext_in
             (fun sumw item => (sumw + best_match item.2 B * inject_Z (weight item.2))%Q)
             (fun sumw item => (sumw + best_score item.2 B * inject_Z (weight item.2))%Q))
    by (intros s x Hx; by rewrite (H x Hx)).
  destruct (Z.eqb_spec (py_sum ((fun item => weight item.2) <$> A)) 0) as [E|E];
    destruct (Z.ltb_spec 0 (py_sum ((fun item => weight item.2) <$> A)));
    try done; lia.
Qed.

(** X14: the two aggregate functions return the same score whenever one of
    the collections has no file with an empty fingerprint set (no pair of
    files is then scored on two empty sets, where the Jaccard functions
    differ). *)
Theorem aggregate_variants_agree (A B : repo) :
  (∀ f, f ∈ A → fingerprints f.2 ≠ ∅) ∨ (∀ g, g ∈ B → fingerprints g.2 ≠ ∅) →
  (aggregate_repo_similarity A B == aggregate A B)%Q.
Proof.
  intros Hne.
  destruct A as [|a A]; [by rewrite aggregate_empty by (by left)|].
  destruct B as [|b B]; [by rewrite aggregate_empty by (by right)|].
  unfold aggregate_repo_similarity, aggregate.
  rewrite <- !directional_eq_claude; [reflexivity|..].
  - intros g Hg. apply best_match_eq_best_score. intros f Hf.
    apply jaccard_agree. destruct Hne as [H|H]; [right | left]; auto.
  - intros f Hf. apply best_match_eq_best_score. intros g Hg.
    apply jaccard_agree. destruct Hne as [H|H]; [left | right]; auto.
Qed.

Lemma aggregate_variants_agree_witness :
  (aggregate_repo_similarity
     [("a.java", FileInfo {["h1"; "h2"]} 7)] [("b.java", FileInfo ∅ 0)]
   == aggregate [("a.java", FileInfo {["h1"; "h2"]} 7)] [("b.java", FileInfo ∅ 0)])%Q.
Proof.
  refine (aggregate_variants_agree
            [("a.java", FileInfo {["h1"; "h2"]} 7)] [("b.java", FileInfo ∅ 0)] _).
  left. intros f Hf. apply list_elem_of_singleton in Hf as ->. simpl. set_solver.
Defined.

(** The loop of the older [aggregate] never raises when the other side is
    non-empty, and what it adds up is the same weighted sum. *)
Lemma for_each_backup (A : repo) (b : string * file_info) (B : repo) :
  ∀ s, for_each
         (fun sumw item =>
            best ← py_max_of
              ((fun other => jaccard (fingerprints item.2) (fingerprints other.2))
                 <$> (b :: B));
            Ok (sumw + best * inject_Z (weight item.2))%Q)
         A s
       = Ok (fold_left
               (fun sumw item =>
                  (sumw + fold_left py_max
                            ((fun other => jaccard (fingerprints item.2)
                                             (fingerprints other.2)) <$> B)
                            (jaccard (fingerprints item.2) (fingerprints b.2))
                          * inject_Z (weight item.2))%Q)
               A s).
Proof. induction A as [|f A IH]; intros s; simpl; [done|]. apply IH. Qed.

Lemma fold_py_max_Qmaximum (l : list Q) (a : Q) :
  (fold_left py_max l a == Qmaximum a l)%Q.
Proof.
  pose proof (running_max_loop (fun x : Q => x) l a) as H.
  by rewrite list_fmap_id in H.
Qed.

Lemma directional_backup_refines (A B : repo) :
  A ≠ [] → B ≠ [] →
  ∃ q, directional_backup A B = Ok q ∧ (q == directional_spec jaccard A B)%Q.
Proof.
  intros HA HB. destruct B as [|b B]; [done|].
  unfold directional_backup. rewrite for_each_backup.
  pose proof (total_weight_pos A HA) as Hpos.
  unfold py_truediv. cbn [mbind result_bind].
  destruct (Z.eqb_spec (py_sum ((fun item => weight item.2) <$> A)) 0); [lia|].
  eexists. split; [reflexivity|].
  unfold directional_spec. rewrite total_weight_Qsum.
  rewrite (weighted_sum_loop
             (fun item =>
                fold_left py_max
                  ((fun other => jaccard (fingerprints item.2) (fingerprints other.2))
                     <$> B)
                  (jaccard (fingerprints item.2) (fingerprints b.2))
                * inject_Z (weight item.2))%Q
             (fun f => inject_Z (Z.max 1 (norm_len f.2))
                       * max_score jaccard f.2 (b :: B))%Q).
  - by rewrite Qplus_0_l.
  - intros x _. simpl. rewrite fold_py_max_Qmaximum. apply Qmult_comm.
Qed.

(** X15: on two non-empty collections the older [aggregate] returns
    without raising, and its score equals the one of the current
    [aggregate]. *)
Theorem aggregate_backup_agrees (A B : repo) :
  A ≠ [] → B ≠ [] →
  ∃ q, aggregate_backup A B = Ok q ∧ (q == aggregate A B)%Q.
Proof.
  intros HA HB.
  destruct (directional_backup_refines A B HA HB) as (qa & Ea & Ha).
  destruct (directional_backup_refines B A HB HA) as (qb & Eb & Hb).
  unfold aggregate_backup. rewrite Ea. cbn [mbind result_bind]. rewrite Eb.
  cbn [mbind result_bind]. eexists. split; [reflexivity|].
  unfold aggregate. by rewrite Ha, Hb, !directional_refines.
Qed.

Lemma aggregate_backup_agrees_witness :
  ∃ q, aggregate_backup
         [("a.java", FileInfo {["h1"; "h2"]} 7)] [("b.java", FileInfo {["h1"]} 0)]
       = Ok q
       ∧ (q == aggregate [("a.java", FileInfo {["h1"; "h2"]} 7)]
                         [("b.java", FileInfo {["h1"]} 0)])%Q.
Proof.
  refine (aggregate_backup_agrees
            [("a.java", FileInfo {["h1"; "h2"]} 7)] [("b.java", FileInfo {["h1"]} 0)]
            _ _); discriminate.
Defined.

(** ** Tokenizer: what the tokens are made of *)

Lemma str_take_drop (n : nat) (s : string) : str_take n s +:+ str_drop n s = s.
Proof.
  revert s. induction n as [|n IH]; intros [|c s]; try done.
  change (String c (str_take n s +:+ str_drop n s) = String c s). f_equal. apply IH.
Qed.

Lemma chars_app (a b : string) :
  list_ascii_of_string (a +:+ b) = list_ascii_of_string a ++ list_ascii_of_string b.
Proof. induction a as [|c a IH]; simpl; [done|]. by rewrite IH. Qed.

Lemma str_length_app (a b : string) :
  String.length (a +:+ b) = (String.length a + String.length b)%nat.
Proof. induction a as [|c a IH]; simpl; [done|]. by rewrite IH. Qed.

Lemma str_take_app (a b : string) : str_take (String.length a) (a +:+ b) = a.
Proof. induction a as [|c a IH]; simpl; [by destruct b|]. by rewrite IH. Qed.

Lemma str_drop_app (a b : string) : str_drop (String.length a) (a +:+ b) = b.
Proof. induction a as [|c a IH]; simpl; [done|]. exact IH. Qed.

(** The characters of the tokens, in order, are characters of the text
    that remains after the skipped ones. *)
Lemma findall_from_chars (pat : list matcher) (s : string) :
  ∀ skip,
    concat (list_ascii_of_string <$> findall_from pat skip s)
    `sublist_of` list_ascii_of_string (str_drop skip s).
Proof.
  induction s as [|c s IH]; intros skip.
  - simpl. by destruct skip.
  - destruct skip as [|k]; [|exact (IH k)].
    cbn [findall_from str_drop].
    destruct (first_match pat (String c s)) as [[|n]|] eqn:E.
    + simpl. apply sublist_cons. exact (IH 0%nat).
    + rewrite fmap_cons. cbn [concat].
      rewrite <- (str_take_drop (S n) (String c s)) at 2.
      rewrite chars_app. apply sublist_app; [done|]. exact (IH n).
    + apply sublist_cons. exact (IH 0%nat).
Qed.

Lemma concat_filter_sublist {A} (P : list A → Prop) `{∀ x, Decision (P x)}
  (l : list (list A)) :
  concat (filter P l) `sublist_of` concat l.
Proof.
  induction l as [|x l IH]; [done|].
  rewrite filter_cons. destruct (decide (P x)); simpl.
  - by apply sublist_app.
  - by apply sublist_inserts_l.
Qed.

Lemma fmap_filter_chars (P : string → Prop) `{∀ x, Decision (P x)}
  (l : list string) :
  concat (list_ascii_of_string <$> filter P l)
  `sublist_of` concat (list_ascii_of_string <$> l).
Proof.
  induction l as [|x l IH]; [done|].
  rewrite filter_cons. destruct (decide (P x)); simpl.
  - by apply sublist_app.
  - by apply sublist_inserts_l.
Qed.

(** X17: the tokenizers only drop characters: the characters of the tokens,
    read in order, are a subsequence of the characters of the input. *)
Theorem tokenize_chars_are_subsequence (code : string) :
  concat (list_ascii_of_string <$> tokenize code)
  `sublist_of` list_ascii_of_string code
  ∧ concat (list_ascii_of_string <$> tokenize_backup code)
    `sublist_of` list_ascii_of_string code.
Proof.
  unfold tokenize, tokenize_backup, findall. split.
  - etrans; [apply fmap_filter_chars|]. exact (findall_from_chars token_pattern code 0).
  - etrans; [apply fmap_filter_chars|].
    exact (findall_from_chars token_pattern_backup code 0).
Qed.

(** ** Tokenizer: comments, literals and characters outside the grammar *)

Lemma str_app_cons (x : ascii) (a b : string) :
  String x a +:+ b = String x (a +:+ b).
Proof. reflexivity. Qed.

Lemma str_app_assoc (a b c : string) : (a +:+ b) +:+ c = a +:+ b +:+ c.
Proof. induction a as [|x a IH]; [done|]. rewrite !str_app_cons. by rewrite IH. Qed.

Lemma str_app_nil_r (a : string) : a +:+ "" = a.
Proof. induction a as [|x a IH]; [done|]. rewrite str_app_cons. by rewrite IH. Qed.

Lemma findall_from_pass (pat : list matcher) (a b : string) :
  findall_from pat (String.length a) (a +:+ b) = findall_from pat 0 b.
Proof.
  induction a as [|c a IH]; [by destruct b|]. exact IH.
Qed.

(** Where the pattern matches exactly the text [tok], [tok] is the next
    token and the scan resumes behind it. *)
Lemma findall_token (pat : list matcher) (tok rest : string) :
  tok ≠ "" →
  first_match pat (tok +:+ rest) = Some (String.length tok) →
  findall pat (tok +:+ rest) = tok :: findall pat rest.
Proof.
  intros Hne Hm. destruct tok as [|c tok]; [done|]. unfold findall.
  change (String c tok +:+ rest) with (String c (tok +:+ rest)) in *.
  rewrite (findall_from_match pat c (tok +:+ rest) (String.length tok) Hm).
  cbn [str_take]. by rewrite str_take_app, findall_from_pass.
Qed.

Lemma find_close_cons (a : ascii) (s : string) :
  find_close (String a s)
  = if Ascii.eqb a "*" && starts_with_char "/" s then Some 2%nat
    else S <$> find_close s.
Proof. reflexivity. Qed.

Lemma find_close_app (c rest : string) :
  find_close c = None →
  find_close (c +:+ "*/" +:+ rest) = Some (String.length c + 2)%nat.
Proof.
  induction c as [|a c IH]; [done|]. intros H.
  rewrite find_close_cons in H.
  change (String a c +:+ "*/" +:+ rest) with (String a (c +:+ "*/" +:+ rest)).
  rewrite find_close_cons.
  destruct (Ascii.eqb a "*" && starts_with_char "/" c) eqn:E; [done|].
  destruct (find_close c) eqn:F; [done|].
  assert (E' : Ascii.eqb a "*" && starts_with_char "/" (c +:+ "*/" +:+ rest) = false).
  { destruct (Ascii.eqb a "*"); [|done]. simpl in *. by destruct c. }
  rewrite E', IH by done. done.
Qed.

Lemma span_until (p : ascii → bool) (c : string) (d : ascii) (rest : string) :
  str_forall p c = true → p d = false →
  span p (c +:+ String d rest) = String.length c.
Proof.
  intros Hc Hd. induction c as [|a c IH].
  - simpl. by rewrite Hd.
  - simpl in Hc. apply andb_true_iff in Hc as [Ha Hc].
    rewrite str_app_cons. cbn [span String.length]. by rewrite Ha, IH.
Qed.

Lemma span_all (p : ascii → bool) (c : string) :
  str_forall p c = true → span p c = String.length c.
Proof.
  induction c as [|a c IH]; simpl; [done|].
  intros Hc. apply andb_true_iff in Hc as [-> Hc]. by rewrite IH.
Qed.

Lemma findall_block_comment (c rest : string) :
  find_close c = None →
  findall token_pattern ("/*" +:+ c +:+ "*/" +:+ rest)
  = ("/*" +:+ c +:+ "*/") :: findall token_pattern rest.
Proof.
  intros H.
  replace ("/*" +:+ c +:+ "*/" +:+ rest) with (("/*" +:+ c +:+ "*/") +:+ rest)
    by (by rewrite !str_app_assoc).
  apply findall_token; [done|].
  replace (("/*" +:+ c +:+ "*/") +:+ rest)
    with (String "/" (String "*" (c +:+ "*/" +:+ rest)))
    by (by rewrite !str_app_assoc).
  cbn [first_match token_pattern m_block_comment].
  rewrite (find_close_app c rest H). cbn [fmap option_fmap option_map].
  f_equal. change ("/*" +:+ c +:+ "*/") with (String "/" (String "*" (c +:+ "*/"))).
  cbn [String.length]. rewrite !str_length_app. simpl. lia.
Qed.

Lemma findall_line_comment (c tail : string) :
  str_forall (fun a => negb (Ascii.eqb a newline)) c = true →
  tail = "" ∨ starts_with_char newline tail = true →
  findall token_pattern ("//" +:+ c +:+ tail)
  = ("//" +:+ c) :: findall token_pattern tail.
Proof.
  intros H Ht.
  replace ("//" +:+ c +:+ tail) with (("//" +:+ c) +:+ tail)
    by (by rewrite !str_app_assoc).
  apply findall_token; [done|].
  replace (("//" +:+ c) +:+ tail) with (String "/" (String "/" (c +:+ tail)))
    by (by rewrite !str_app_assoc).
  cbn [first_match token_pattern m_block_comment m_line_comment].
  f_equal. change ("//" +:+ c) with (String "/" (String "/" c)).
  cbn [String.length]. do 2 f_equal.
  destruct Ht as [-> | Ht].
  - rewrite str_app_nil_r. by apply span_all.
  - destruct tail as [|d tail]; [done|]. simpl in Ht.
    apply Ascii.eqb_eq in Ht as ->. by apply span_until.
Qed.

Lemma comment_re_match_comment (x : string) :
  comment_re_match ("/*" +:+ x) = true ∧ comment_re_match ("//" +:+ x) = true.
Proof. split; by destruct x. Qed.

Lemma tokenize_filter_comment (x : string) (l : list string) :
  filter (fun t => t ≠ "" ∧ comment_re_match t = false) (("/*" +:+ x) :: l)
  = filter (fun t => t ≠ "" ∧ comment_re_match t = false) l
  ∧ filter (fun t => t ≠ "" ∧ comment_re_match t = false) (("//" +:+ x) :: l)
    = filter (fun t => t ≠ "" ∧ comment_re_match t = false) l.
Proof.
  destruct (comment_re_match_comment x) as [H1 H2].
  split; apply filter_cons_False; intros [_ Hc]; congruence.
Qed.

(** X18: comments never become tokens: a closed block comment, and a line
    comment up to its newline or to the end of the input, are passed over
    whatever they contain, and the tokens are those of the text behind. *)
Theorem tokenize_passes_over_comments (c rest : string) :
  (find_close c = None →
   tokenize ("/*" +:+ c +:+ "*/" +:+ rest) = tokenize rest)
  ∧ (str_forall (fun a => negb (Ascii.eqb a newline)) c = true →
     tokenize ("//" +:+ c +:+ String newline rest) = tokenize rest
     ∧ tokenize ("//" +:+ c) = []).
Proof.
  split.
  - intros H. unfold tokenize. rewrite (findall_block_comment c rest H).
    apply tokenize_filter_comment.
  - intros H. split.
    + unfold tokenize. rewrite (findall_line_comment c (String newline rest) H)
        by (by right).
      rewrite (proj2 (tokenize_filter_comment c _)).
      unfold findall. by rewrite findall_from_skip.
    + unfold tokenize. rewrite <- (str_app_nil_r c) at 1.
      rewrite (findall_line_comment c "" H) by (by left).
      by rewrite (proj2 (tokenize_filter_comment c _)).
Qed.

Lemma tokenize_passes_over_comments_witness :
  tokenize ("/*" +:+ " x = 'a' // y " +:+ "*/" +:+ "z = 1") = tokenize "z = 1"
  ∧ tokenize ("//" +:+ " x /* y" +:+ String newline "z = 1") = tokenize "z = 1".
Proof.
  split.
  - refine (proj1 (tokenize_passes_over_comments " x = 'a' // y " "z = 1") _). reflexivity.
  - refine (proj1 (proj2 (tokenize_passes_over_comments " x /* y" "z = 1") _)). reflexivity.
Defined.

Lemma quoted_body_plain (q : ascii) (nl_ok : bool) (body rest : string) :
  str_mem q body = false → str_mem backslash body = false →
  nl_ok = true ∨ str_mem newline body = false →
  quoted_body q nl_ok false (body +:+ String q rest) = Some (S (String.length body)).
Proof.
  induction body as [|a body IH]; intros Hq Hb Hn.
  - simpl. by rewrite Ascii.eqb_refl.
  - simpl in Hq, Hb. apply orb_false_iff in Hq as [Hq1 Hq2].
    apply orb_false_iff in Hb as [Hb1 Hb2].
    rewrite str_app_cons. cbn [quoted_body String.length].
    rewrite Hq1, Hb1.
    assert (Hnl : Ascii.eqb a newline && negb nl_ok = false).
    { destruct Hn as [-> | Hn]; [by rewrite andb_false_r|].
      simpl in Hn. apply orb_false_iff in Hn as [-> _]. done. }
    rewrite Hnl, IH; [done..|].
    destruct Hn as [-> | Hn]; [by left|]. right.
    simpl in Hn. by apply orb_false_iff in Hn as [_ ->].
Qed.

Lemma findall_literal (pat : list matcher) (q : ascii) (body rest : string) :
  first_match pat (String q (body +:+ String q rest))
  = Some (S (S (String.length body))) →
  findall pat (String q (body +:+ String q rest))
  = String q (body +:+ String q "") :: findall pat rest.
Proof.
  intros H.
  replace (String q (body +:+ String q rest))
    with (String q (body +:+ String q "") +:+ rest) in *
    by (by rewrite str_app_cons, str_app_assoc).
  apply findall_token; [done|]. rewrite H. f_equal.
  cbn [String.length]. rewrite str_length_app. simpl. lia.
Qed.

(** X19: a string or template literal is one token whatever it contains
    (comment markers, keywords, spaces): a quote, a body without that
    quote, backslash and newline, and the closing quote are emitted as a
    single token, and so is a backtick literal (whose body may hold
    newlines) by the tokenizer of tools/normalization.py. *)
Theorem tokenize_literal_is_one_token (q : ascii) (body rest : string) :
  q = dquote ∨ q = squote ∨ q = backtick →
  str_mem q body = false → str_mem backslash body = false →
  q = backtick ∨ str_mem newline body = false →
  tokenize (String q (body +:+ String q rest))
  = String q (body +:+ String q "") :: tokenize rest
  ∧ (q ≠ backtick →
     tokenize_backup (String q (body +:+ String q rest))
     = String q (body +:+ String q "") :: tokenize_backup rest).
Proof.
  intros Hq Hbq Hbb Hbn. split.
  - unfold tokenize. rewrite findall_literal.
    + rewrite filter_cons_True; [done|].
      split; [done|]. destruct Hq as [-> | [-> | ->]]; reflexivity.
    + cbn [first_match token_pattern].
      destruct Hq as [-> | [-> | ->]];
        unfold m_template, m_dq_string, m_sq_string, m_quoted; simpl;
        rewrite quoted_body_plain; try done.
      * right. by destruct Hbn.
      * right. by destruct Hbn.
      * by left.
  - intros Hnb. unfold tokenize_backup. rewrite findall_literal.
    + rewrite filter_cons_True; [done|].
      destruct Hq as [-> | [-> | ->]]; done.
    + cbn [first_match token_pattern_backup].
      destruct Hq as [-> | [-> | ->]]; [| |done];
        unfold m_dq_string, m_sq_string, m_quoted; simpl;
        rewrite quoted_body_plain; try done.
      * right. by destruct Hbn.
      * right. by destruct Hbn.
Qed.

Lemma tokenize_literal_is_one_token_witness :
  tokenize (String squote ("a // b /* c" +:+ String squote " + x"))
  = String squote ("a // b /* c" +:+ String squote "") :: tokenize " + x".
Proof.
  refine (proj1 (tokenize_literal_is_one_token squote "a // b /* c" " + x" _ _ _ _)).
  - right. left. reflexivity.
  - reflexivity.
  - reflexivity.
  - right. reflexivity.
Defined.

Lemma first_match_outside_grammar (c : ascii) (rest : string) :
  is_symbol c = false → is_ident_start c = false → is_digit c = false →
  c ≠ backtick →
  first_match token_pattern (String c rest) = None
  ∧ first_match token_pattern_backup (String c rest) = None.
Proof.
  intros Hs Hi Hd Hb.
  destruct c as [[] [] [] [] [] [] [] []];
    first [ discriminate Hs | discriminate Hi | discriminate Hd
          | exfalso; apply Hb; reflexivity
          | split; reflexivity ].
Qed.

(** X20: a character that starts no alternative of the token grammar
    (white space, [#], [@], [$], a character above 127, ...) yields no
    token and does not affect the tokens of the text behind it. *)
Theorem tokenize_skips_other_characters (c : ascii) (rest : string) :
  is_symbol c = false → is_ident_start c = false → is_digit c = false →
  c ≠ backtick →
  tokenize (String c rest) = tokenize rest
  ∧ tokenize_backup (String c rest) = tokenize_backup rest.
Proof.
  intros Hs Hi Hd Hb.
  destruct (first_match_outside_grammar c rest Hs Hi Hd Hb) as [H1 H2].
  unfold tokenize, tokenize_backup, findall.
  by rewrite !findall_from_skip.
Qed.

Lemma tokenize_skips_other_characters_witness :
  tokenize (String "#" "include x") = tokenize "include x"
  ∧ tokenize_backup (String "#" "include x") = tokenize_backup "include x".
Proof.
  refine (tokenize_skips_other_characters "#" "include x" _ _ _ _);
    first [ reflexivity | discriminate ].
Defined.

(** ** Tokenizer: the shape of every token *)

Lemma findall_from_inv (pat : list matcher) (s : string) :
  ∀ skip t, t ∈ findall_from pat skip s →
            t = "" ∨ ∃ s' n, first_match pat s' = Some (S n) ∧ t = str_take (S n) s'.
Proof.
  induction s as [|c s IH]; intros skip t Ht.
  - by apply elem_of_nil in Ht.
  - destruct skip as [|k]; [|exact (IH k t Ht)].
    cbn [findall_from] in Ht.
    destruct (first_match pat (String c s)) as [[|n]|] eqn:E.
    + apply elem_of_cons in Ht as [->|Ht]; [by left | exact (IH _ t Ht)].
    + apply elem_of_cons in Ht as [->|Ht]; [|exact (IH _ t Ht)].
      right. by exists (String c s), n.
    + exact (IH _ t Ht).
Qed.

Lemma first_match_cons (m : matcher) (pat : list matcher) (s : string) (k : nat) :
  first_match (m :: pat) s = Some k → m s = Some k ∨ first_match pat s = Some k.
Proof. simpl. destruct (m s); [intros [= <-]; by left | by right]. Qed.

Lemma prefix_nil (s : string) : String.prefix "" s = true.
Proof. by destruct s. Qed.

Lemma m_block_comment_shape (s : string) (k : nat) :
  m_block_comment s = Some k → startswith "/*" (str_take k s) = true.
Proof.
  destruct s as [|c1 s]; [done|].
  destruct c1 as [[] [] [] [] [] [] [] []]; try done.
  destruct s as [|c2 s]; [done|].
  destruct c2 as [[] [] [] [] [] [] [] []]; try done.
  unfold m_block_comment. destruct (find_close s) as [n|]; [|done].
  intros [= <-]. unfold startswith. cbn. apply prefix_nil.
Qed.

Lemma m_line_comment_shape (s : string) (k : nat) :
  m_line_comment s = Some k → startswith "//" (str_take k s) = true.
Proof.
  destruct s as [|c1 s]; [done|].
  destruct c1 as [[] [] [] [] [] [] [] []]; try done.
  destruct s as [|c2 s]; [done|].
  destruct c2 as [[] [] [] [] [] [] [] []]; try done.
  unfold m_line_comment. intros [= <-]. unfold startswith. cbn. apply prefix_nil.
Qed.

Lemma quoted_body_last (q : ascii) (nl_ok : bool) (r : string) :
  ∀ esc n, quoted_body q nl_ok esc r = Some n → str_last (str_take n r) = Some q.
Proof.
  induction r as [|c r IH]; intros esc n H; [done|].
  cbn [quoted_body] in H.
  assert (Hrec : ∀ e, S <$> quoted_body q nl_ok e r = Some n →
                      str_last (str_take n (String c r)) = Some q).
  { intros e He. destruct (quoted_body q nl_ok e r) as [m|] eqn:E; [|done].
    injection He as <-. specialize (IH e m E).
    cbn [str_take]. destruct r as [|d r]; [done|].
    destruct m as [|m]; [done|]. exact IH. }
  destruct esc.
  - destruct (Ascii.eqb c newline); [done|]. by apply (Hrec false).
  - destruct (Ascii.eqb_spec c q) as [->|Hne]; [by injection H as <-|].
    destruct (Ascii.eqb c backslash); [by apply (Hrec true)|].
    destruct (Ascii.eqb c newline && negb nl_ok); [done|]. by apply (Hrec false).
Qed.

Lemma m_quoted_shape (q : ascii) (nl_ok : bool) (s : string) (k : nat) :
  m_quoted q nl_ok s = Some k →
  starts_with_char q (str_take k s) = true ∧ ends_with_char q (str_take k s) = true.
Proof.
  destruct s as [|c r]; [done|]. unfold m_quoted.
  destruct (Ascii.eqb_spec c q) as [->|]; [|done].
  destruct (quoted_body q nl_ok false r) as [n|] eqn:E; [|done].
  intros [= <-]. pose proof (quoted_body_last q nl_ok r false n E) as Hl.
  cbn [str_take starts_with_char]. split; [apply Ascii.eqb_refl|].
  unfold ends_with_char. cbn [str_last].
  destruct (str_take n r); [done|]. rewrite Hl. apply Ascii.eqb_refl.
Qed.

Lemma str_forall_take_span (p : ascii → bool) (s : string) :
  str_forall p (str_take (span p s) s) = true.
Proof.
  induction s as [|c s IH]; [done|]. simpl.
  destruct (p c) eqn:E; [|done]. simpl. by rewrite E.
Qed.

Lemma span_take_span (p : ascii → bool) (s : string) :
  span p (str_take (span p s) s) = span p s.
Proof.
  induction s as [|c s IH]; [done|]. simpl.
  destruct (p c) eqn:E; [|done]. simpl. by rewrite E, IH.
Qed.

Lemma str_drop_take_span (p : ascii → bool) (s : string) :
  str_drop (span p s) (str_take (span p s) s) = "".
Proof.
  induction s as [|c s IH]; [done|]. simpl.
  destruct (p c) eqn:E; [|done]. simpl. exact IH.
Qed.

Lemma m_ident_shape (s : string) (k : nat) :
  m_ident s = Some k → fullmatch_ident (str_take k s) = true.
Proof.
  destruct s as [|c r]; [done|]. unfold m_ident.
  destruct (is_ident_start c) eqn:E; [|done]. intros [= <-].
  cbn [str_take fullmatch_ident]. by rewrite E, str_forall_take_span.
Qed.

Lemma m_integer_shape (s : string) (k : nat) :
  m_integer s = Some k → fullmatch_number (str_take k s) = true.
Proof.
  unfold m_integer. destruct (span is_digit s) as [|n] eqn:E; [done|].
  intros [= <-]. unfold fullmatch_number.
  rewrite <- E, span_take_span, E, <- E, str_drop_take_span. done.
Qed.

(** A run of digits, a point and a run of digits, cut out of a text. *)
Lemma decimal_take (s r : string) (n m : nat) :
  span is_digit s = n → str_drop n s = String "." r → span is_digit r = m →
  span is_digit (str_take (n + 1 + m) s) = n
  ∧ str_drop n (str_take (n + 1 + m) s) = String "." (str_take m r).
Proof.
  revert n. induction s as [|c s IH]; intros n Hn Hd Hm.
  - simpl in Hn. subst n. done.
  - simpl in Hn. destruct (is_digit c) eqn:E.
    + destruct n as [|n]; [done|]. injection Hn as Hn.
      cbn [str_drop] in Hd. destruct (IH n Hn Hd Hm) as [H1 H2].
      cbn [Nat.add str_take span str_drop]. rewrite E. by rewrite H1, H2.
    + subst n. cbn [str_drop] in Hd. injection Hd as -> ->.
      cbn [Nat.add str_take span str_drop]. done.
Qed.

Lemma m_decimal_shape (s : string) (k : nat) :
  m_decimal s = Some k → fullmatch_number (str_take k s) = true.
Proof.
  unfold m_decimal. destruct (span is_digit s) as [|n] eqn:En; [done|].
  destruct (str_drop (S n) s) as [|c r] eqn:Ed; [done|].
  destruct c as [[] [] [] [] [] [] [] []]; try done.
  destruct (span is_digit r) as [|m] eqn:Em; [done|].
  intros [= <-].
  destruct (decimal_take s r (S n) (S m) En Ed Em) as [H1 H2].
  change (S n + 1 + S m)%nat with (S (n + 1 + S m)) in H1, H2.
  unfold fullmatch_number. rewrite H1, H2.
  pose proof (str_forall_take_span is_digit r) as Hall. rewrite Em in Hall.
  rewrite Hall. destruct r as [|d r]; [done|]. done.
Qed.

Lemma startswith_take (op s : string) :
  startswith op s = true → str_take (String.length op) s = op.
Proof.
  unfold startswith. revert s. induction op as [|a op IH]; intros s H; [by destruct s|].
  destruct s as [|b s]; [done|]. simpl in H.
  destruct (ascii_dec a b) as [->|]; [|done]. simpl. by rewrite IH.
Qed.

Lemma m_multi_op_shape (s : string) (k : nat) :
  m_multi_op s = Some k → str_take k s ∈ multi_char_ops.
Proof.
  unfold m_multi_op.
  destruct (existsb (fun op => startswith op s) multi_char_ops) eqn:E; [|done].
  intros [= <-]. apply existsb_exists in E as (op & Hin & Hop).
  apply list_elem_of_In in Hin.
  assert (Hlen : String.length op = 2%nat).
  { unfold multi_char_ops in Hin. each_token Hin; reflexivity. }
  rewrite <- Hlen, (startswith_take op s Hop). done.
Qed.

Lemma m_symbol_shape (s : string) (k : nat) :
  m_symbol s = Some k → ∃ c, is_symbol c = true ∧ str_take k s = String c "".
Proof.
  destruct s as [|c r]; [done|]. unfold m_symbol.
  destruct (is_symbol c) eqn:E; [|done]. intros [= <-]. by exists c.
Qed.

Lemma quoted_is_string_literal (q : ascii) (t : string) :
  q = dquote ∨ q = squote ∨ q = backtick →
  starts_with_char q t = true ∧ ends_with_char q t = true →
  is_string_literal t = true.
Proof.
  intros Hq [H1 H2]. unfold is_string_literal.
  destruct Hq as [-> | [-> | ->]]; rewrite H1, H2; simpl;
    by rewrite ?orb_true_r.
Qed.

Lemma backup_match_shape (s : string) (k : nat) :
  first_match token_pattern_backup s = Some k → token_shape (str_take k s).
Proof.
  unfold token_pattern_backup, token_shape. intros H.
  apply first_match_cons in H as [H|H].
  { left. eapply quoted_is_string_literal; [|by apply m_quoted_shape in H]. auto. }
  apply first_match_cons in H as [H|H].
  { left. eapply quoted_is_string_literal; [|by apply m_quoted_shape in H]. auto. }
  apply first_match_cons in H as [H|H]; [right; left; by apply m_ident_shape|].
  apply first_match_cons in H as [H|H]; [right; right; left; by apply m_decimal_shape|].
  apply first_match_cons in H as [H|H]; [right; right; left; by apply m_integer_shape|].
  apply first_match_cons in H as [H|H];
    [right; right; right; left; by apply m_multi_op_shape|].
  apply first_match_cons in H as [H|H]; [|done].
  right; right; right; right. by apply m_symbol_shape.
Qed.

Lemma current_match_shape (s : string) (k : nat) :
  first_match token_pattern s = Some k →
  comment_re_match (str_take k s) = true ∨ token_shape (str_take k s).
Proof.
  unfold token_pattern. intros H.
  apply first_match_cons in H as [H|H].
  { left. unfold comment_re_match. by rewrite (m_block_comment_shape s k H). }
  apply first_match_cons in H as [H|H].
  { left. unfold comment_re_match.
    apply m_line_comment_shape in H.
    destruct (str_take k s) as [|c t]; [done|].
    destruct c as [[] [] [] [] [] [] [] []]; try done.
    change (str_drop (span is_space (String "/" t)) (String "/" t)) with (String "/" t).
    rewrite H. apply orb_true_r. }
  apply first_match_cons in H as [H|H].
  { right. left. eapply quoted_is_string_literal; [|by apply m_quoted_shape in H]. auto. }
  right. by apply backup_match_shape.
Qed.

(** X21: every token of the tokenizers is well formed: a quoted literal,
    an identifier or keyword, a number, one of the multi-character
    operators, or a single symbol.  Comments and empty tokens never come
    out of [tokenize]. *)
Theorem tokenize_tokens_well_formed (code t : string) :
  (t ∈ tokenize code →
   token_shape t ∧ t ≠ "" ∧ comment_re_match t = false)
  ∧ (t ∈ tokenize_backup code → token_shape t ∧ t ≠ "").
Proof.
  split; intros Ht.
  - unfold tokenize in Ht. apply list_elem_of_filter in Ht as [[Hne Hc] Ht].
    split; [|done].
    apply findall_from_inv in Ht as [->|(s' & n & Hm & ->)]; [done|].
    destruct (current_match_shape s' (S n) Hm) as [H|H]; [congruence|done].
  - unfold tokenize_backup in Ht. apply list_elem_of_filter in Ht as [Hs Ht].
    apply findall_from_inv in Ht as [->|(s' & n & Hm & ->)]; [done|].
    split; [by apply backup_match_shape|].
    intros E. by rewrite E in Hs.
Qed.

Lemma tokenize_tokens_well_formed_witness :
  token_shape "1.5" ∧ "1.5" ≠ "" ∧ comment_re_match "1.5" = false.
Proof.
  refine (proj1 (tokenize_tokens_well_formed "x = 1.5 // y" "1.5") _).
  assert (E : tokenize "x = 1.5 // y" = ["x"; "="; "1.5"]) by (vm_compute; reflexivity).
  rewrite E. set_solver.
Defined.

(** ** Comment removal: what it deletes and what it keeps *)

Lemma sub_from_sublist (m : bool → matcher) (s : string) :
  ∀ bol skip,
    list_ascii_of_string (sub_from m bol skip s) `sublist_of` list_ascii_of_string s.
Proof.
  induction s as [|c s IH]; intros bol skip; simpl; [done|].
  destruct skip as [|k].
  - destruct (m bol (String c s)) as [[|n]|]; simpl.
    + by apply sublist_skip.
    + by apply sublist_cons.
    + by apply sublist_skip.
  - by apply sublist_cons.
Qed.

Lemma remove_comments_sublist (code : string) :
  list_ascii_of_string (remove_comments code) `sublist_of` list_ascii_of_string code.
Proof.
  unfold remove_comments, re_sub.
  etrans; [apply sub_from_sublist|]. etrans; apply sub_from_sublist.
Qed.

(** Where the pattern matches at no position of the text, [re.sub] returns
    the text; [Q] is a property of the text the scan keeps as it moves
    on. *)
Lemma sub_from_none (m : bool → matcher) (Q : string → Prop) :
  (∀ c r, Q (String c r) → Q r) →
  (∀ b t, Q t → m b t = None) →
  ∀ s bol, Q s → sub_from m bol 0 s = s.
Proof.
  intros Htl Hm. induction s as [|c s IH]; intros bol HQ; simpl; [done|].
  rewrite (Hm _ _ HQ). f_equal. apply IH. by eapply Htl.
Qed.

Lemma str_mem_cons_false (c a : ascii) (r : string) :
  str_mem c (String a r) = false → Ascii.eqb a c = false ∧ str_mem c r = false.
Proof. simpl. by intros [? ?]%orb_false_elim. Qed.

Lemma str_mem_drop (c : ascii) (n : nat) (s : string) :
  str_mem c s = false → str_mem c (str_drop n s) = false.
Proof.
  revert s. induction n as [|n IH]; intros [|a r] H; simpl; try done.
  apply IH. by apply str_mem_cons_false in H as [_ ?].
Qed.

Lemma str_mem_app (c : ascii) (a b : string) :
  str_mem c (a +:+ b) = str_mem c a || str_mem c b.
Proof.
  induction a as [|x a IH]; [done|].
  rewrite str_app_cons. simpl. rewrite IH. by rewrite orb_assoc.
Qed.

Lemma m_block_comment_no_slash (t : string) :
  str_mem "/" t = false → m_block_comment t = None.
Proof.
  destruct t as [|c r]; [done|]. intros [Hc _]%str_mem_cons_false.
  unfold m_block_comment.
  destruct (Ascii.eqb_spec c "/") as [->|Hne]; [done|].
  destruct c as [[] [] [] [] [] [] [] []]; try done.
Qed.

Lemma m_line_comment_no_slash (t : string) :
  str_mem "/" t = false → m_line_comment t = None.
Proof.
  destruct t as [|c r]; [done|]. intros [Hc _]%str_mem_cons_false.
  unfold m_line_comment.
  destruct (Ascii.eqb_spec c "/") as [->|Hne]; [done|].
  destruct c as [[] [] [] [] [] [] [] []]; try done.
Qed.

Lemma m_hash_comment_no_hash (t : string) :
  str_mem "#" t = false → m_hash_comment t = None.
Proof.
  intros H. unfold m_hash_comment.
  pose proof (str_mem_drop "#" (span is_space t) t H) as Hd.
  destruct (str_drop (span is_space t) t) as [|c r]; [done|].
  apply str_mem_cons_false in Hd as [Hc _].
  destruct (Ascii.eqb_spec c "#") as [->|Hne]; [done|].
  destruct c as [[] [] [] [] [] [] [] []]; try done.
Qed.

Lemma str_mem_tail (x c : ascii) (r : string) :
  str_mem x (String c r) = false → str_mem x r = false.
Proof. by intros [_ ?]%str_mem_cons_false. Qed.

Lemma remove_comments_plain (code : string) :
  str_mem "/" code = false → str_mem "#" code = false →
  remove_comments code = code.
Proof.
  intros Hs Hh. unfold remove_comments, re_sub.
  assert (H1 : sub_from (fun _ => m_block_comment) true 0 code = code).
  { apply (sub_from_none _ (fun t => str_mem "/" t = false)); [| |done].
    - intros c r. apply str_mem_tail.
    - intros _ t. apply m_block_comment_no_slash. }
  assert (H2 : sub_from (fun _ => m_line_comment) true 0 code = code).
  { apply (sub_from_none _ (fun t => str_mem "/" t = false)); [| |done].
    - intros c r. apply str_mem_tail.
    - intros _ t. apply m_line_comment_no_slash. }
  rewrite H1, H2.
  apply (sub_from_none _ (fun t => str_mem "#" t = false)); [| |done].
  - intros c r. apply str_mem_tail.
  - intros [] t Ht; [by apply m_hash_comment_no_hash|done].
Qed.

(** X22: [remove_comments] only deletes characters, and it deletes nothing
    from a text that holds neither a slash nor a hash sign. *)
Theorem remove_comments_only_deletes (code : string) :
  list_ascii_of_string (remove_comments code) `sublist_of` list_ascii_of_string code
  ∧ (str_mem "/" code = false → str_mem "#" code = false →
     remove_comments code = code).
Proof.
  split; [apply remove_comments_sublist|].
  apply remove_comments_plain.
Qed.

Lemma remove_comments_only_deletes_witness :
  remove_comments "int x = y % 2;" = "int x = y % 2;".
Proof.
  refine (proj2 (remove_comments_only_deletes "int x = y % 2;") _ _); reflexivity.
Defined.

Lemma sub_from_const_bol (m : matcher) (s : string) :
  ∀ bol bol' skip,
    sub_from (fun _ => m) bol skip s = sub_from (fun _ => m) bol' skip s.
Proof.
  induction s as [|c s IH]; intros bol bol' skip; simpl; [done|].
  destruct skip as [|k]; [|done].
  destruct (m (String c s)) as [[|n]|]; done.
Qed.

Lemma sub_from_skip_app (m : bool → matcher) (x t : string) :
  ∀ bol, ∃ bol', sub_from m bol (String.length x) (x +:+ t) = sub_from m bol' 0 t.
Proof.
  induction x as [|c x IH]; intros bol; [by exists bol|].
  rewrite str_app_cons. simpl. apply IH.
Qed.

Lemma sub_from_inert_prefix (m : matcher) (a t : string) :
  (∀ c r, str_mem c a = true → m (String c r) = None) →
  ∀ bol, sub_from (fun _ => m) bol 0 (a +:+ t) = a +:+ sub_from (fun _ => m) bol 0 t.
Proof.
  induction a as [|x a IH]; intros Hin bol; [done|].
  rewrite !str_app_cons. simpl. rewrite Hin.
  - f_equal. rewrite (sub_from_const_bol m _ _ bol). apply IH.
    intros c r Hc. apply Hin. simpl. rewrite Hc. by rewrite orb_true_r.
  - simpl. by rewrite Ascii.eqb_refl.
Qed.

Lemma m_block_comment_first (c : ascii) (r : string) :
  c ≠ "/"%char → m_block_comment (String c r) = None.
Proof.
  intros Hc. unfold m_block_comment.
  destruct c as [[] [] [] [] [] [] [] []]; try done.
Qed.

Lemma m_line_comment_first (c : ascii) (r : string) :
  c ≠ "/"%char → m_line_comment (String c r) = None.
Proof.
  intros Hc. unfold m_line_comment.
  destruct c as [[] [] [] [] [] [] [] []]; try done.
Qed.

Lemma m_block_comment_second (c : ascii) (r : string) :
  starts_with_char "*" r = false → m_block_comment (String c r) = None.
Proof.
  intros Hr. unfold m_block_comment.
  destruct r as [|d r]; [by destruct c as [[] [] [] [] [] [] [] []]|].
  simpl in Hr.
  destruct (Ascii.eqb_spec d "*") as [->|Hne]; [done|].
  destruct c as [[] [] [] [] [] [] [] []]; try done.
  destruct d as [[] [] [] [] [] [] [] []]; try done.
Qed.

Lemma str_mem_true_neq (x c : ascii) (a : string) :
  str_mem x a = false → str_mem c a = true → c ≠ x.
Proof. intros Hx Hc ->. congruence. Qed.

Lemma sub_block_tail (tl : string) (bol : bool) :
  line_end tl → sub_from (fun _ => m_block_comment) bol 0 tl = tl.
Proof.
  intros [-> | (r & -> & Hr)]; [done|].
  simpl. f_equal.
  apply (sub_from_none _ (fun t => str_mem "/" t = false)); [| |done].
  - intros c t. apply str_mem_tail.
  - intros _ t. apply m_block_comment_no_slash.
Qed.

Lemma sub_line_tail (tl : string) (bol : bool) :
  line_end tl → sub_from (fun _ => m_line_comment) bol 0 tl = tl.
Proof.
  intros [-> | (r & -> & Hr)]; [done|].
  simpl. f_equal.
  apply (sub_from_none _ (fun t => str_mem "/" t = false)); [| |done].
  - intros c t. apply str_mem_tail.
  - intros _ t. apply m_line_comment_no_slash.
Qed.

Lemma starts_star_app (u tl : string) :
  str_mem "*" u = false → line_end tl → starts_with_char "*" (u +:+ tl) = false.
Proof.
  intros Hu Htl. destruct u as [|y u].
  - destruct Htl as [-> | (r & -> & _)]; done.
  - rewrite str_app_cons. simpl. by apply str_mem_cons_false in Hu as [? _].
Qed.

Lemma sub_block_mid (u tl : string) :
  str_mem "*" u = false → line_end tl →
  ∀ bol, sub_from (fun _ => m_block_comment) bol 0 (u +:+ tl) = u +:+ tl.
Proof.
  intros Hu Htl. induction u as [|x u IH]; intros bol.
  - by apply sub_block_tail.
  - rewrite str_app_cons. cbn [sub_from].
    apply str_mem_cons_false in Hu as [_ Hu].
    rewrite m_block_comment_second by by apply starts_star_app.
    f_equal. by apply IH.
Qed.

Lemma span_line (c tl : string) :
  str_mem newline c = false → line_end tl →
  span (fun a => negb (Ascii.eqb a newline)) (c +:+ tl) = String.length c.
Proof.
  intros Hc Htl.
  assert (Hall : str_forall (fun a => negb (Ascii.eqb a newline)) c = true).
  { clear Htl. induction c as [|x c IH]; [done|].
    apply str_mem_cons_false in Hc as [Hx Hc]. simpl. rewrite Hx. simpl. by apply IH. }
  destruct Htl as [-> | (r & -> & _)].
  - rewrite str_app_nil_r. by apply span_all.
  - by apply span_until.
Qed.

(** The three passes on a text [a // c tl]. *)
Lemma remove_comments_line (a c tl : string) :
  str_mem "/" a = false → str_mem "#" a = false →
  str_mem "*" c = false → str_mem newline c = false →
  line_end tl → str_mem "#" tl = false →
  remove_comments (a +:+ "//" +:+ c +:+ tl) = a +:+ tl.
Proof.
  intros Ha Hah Hc Hcn Htl Hth. unfold remove_comments, re_sub.
  assert (H1 : sub_from (fun _ => m_block_comment) true 0 (a +:+ "//" +:+ c +:+ tl)
               = a +:+ "//" +:+ c +:+ tl).
  { rewrite sub_from_inert_prefix.
    - f_equal. rewrite <- str_app_assoc. apply sub_block_mid; [|done].
      rewrite str_mem_app, Hc. done.
    - intros x r Hx. apply m_block_comment_first. by eapply str_mem_true_neq. }
  rewrite H1.
  assert (H2 : sub_from (fun _ => m_line_comment) true 0 (a +:+ "//" +:+ c +:+ tl)
               = a +:+ tl).
  { rewrite sub_from_inert_prefix.
    - f_equal. change ("//" +:+ c +:+ tl) with (String "/" (String "/" (c +:+ tl))).
      cbn [sub_from m_line_comment]. rewrite span_line by done.
      destruct (sub_from_skip_app (fun _ => m_line_comment) c tl
                  (Ascii.eqb "/" newline)) as [bol' Hs].
      rewrite Hs. by apply sub_line_tail.
    - intros x r Hx. apply m_line_comment_first. by eapply str_mem_true_neq. }
  rewrite H2.
  apply (sub_from_none _ (fun t => str_mem "#" t = false)).
  - intros x r. apply str_mem_tail.
  - intros [] t Ht; [by apply m_hash_comment_no_hash|done].
  - rewrite str_mem_app, Hah, Hth. done.
Qed.

(** X23: [remove_comments] does not look at quotes: when the first slash
    of a text starts a double slash and the rest of that line holds no
    asterisk, everything from the double slash to the end of the line is
    deleted, also when the text before it opens a string literal (as in a
    quoted URL). *)
Theorem remove_comments_cuts_at_double_slash (a c rest : string) :
  str_mem "/" a = false → str_mem "#" a = false →
  str_mem "*" c = false → str_mem newline c = false →
  remove_comments (a +:+ "//" +:+ c) = a
  ∧ (str_mem "/" rest = false → str_mem "#" rest = false →
     remove_comments (a +:+ "//" +:+ c +:+ String newline rest)
     = a +:+ String newline rest).
Proof.
  intros Ha Hah Hc Hcn. split.
  - pose proof (remove_comments_line a c "" Ha Hah Hc Hcn) as H.
    rewrite !str_app_nil_r in H. apply H; [by left|done].
  - intros Hr Hrh. apply remove_comments_line; try done.
    right. by exists rest.
Qed.

Lemma remove_comments_cuts_at_double_slash_witness :
  remove_comments ("url = " +:+ String dquote "http:" +:+ "//"
                   +:+ "host" +:+ String dquote "; go(url);")
  = "url = " +:+ String dquote "http:".
Proof.
  refine (proj1 (remove_comments_cuts_at_double_slash
                   ("url = " +:+ String dquote "http:")
                   ("host" +:+ String dquote "; go(url);") "" _ _ _ _));
    reflexivity.
Defined.

(** ** The generic tokenizer of tools/normalization_claude.py *)

(** The text a token of the generic tokenizer can be: the empty text, or a
    point followed by digits. *)
Lemma g_number_group (s : string) (n : nat) (g : string) :
  g_number s = Some (n, g) →
  g = "" ∨ ∃ d, g = String "." d ∧ d ≠ "" ∧ str_forall is_digit d = true
               ∧ str_mem "." s = true.
Proof.
  unfold g_number. destruct (span is_digit s) as [|k] eqn:Hk; [done|].
  destruct (str_drop (S k) s) as [|c r] eqn:Hd; [intros [= _ <-]; by left|].
  destruct (Ascii.eqb_spec c ".") as [->|Hne].
  - destruct (span is_digit r) as [|m] eqn:Hm; [intros [= _ <-]; by left|].
    intros [= _ <-]. right. exists (str_take (S m) r). split; [done|].
    split; [by destruct r|]. split.
    + rewrite <- Hm. apply str_forall_take_span.
    + destruct (str_mem "." s) eqn:E; [done|].
      apply (str_mem_drop _ (S k)) in E. rewrite Hd in E. done.
  - assert (Some (S k, "") = Some (n, g) → g = "") as Hg by (by intros [= _ <-]).
    intros H. left. apply Hg. rewrite <- H.
    destruct c as [[] [] [] [] [] [] [] []]; try done.
Qed.

Lemma generic_match_group (s : string) (n : nat) (g : string) :
  first_gmatch generic_pattern s = Some (n, g) →
  g = "" ∨ ∃ d, g = String "." d ∧ d ≠ "" ∧ str_forall is_digit d = true
               ∧ str_mem "." s = true.
Proof.
  unfold generic_pattern. cbn [first_gmatch].
  destruct (g_ident s) as [[n1 g1]|] eqn:H1.
  { intros [= <- <-]. left. unfold g_ident in H1.
    destruct s as [|c r]; [done|]. destruct (is_ident_start c); [|done].
    by injection H1 as _ <-. }
  destruct (g_number s) as [[n2 g2]|] eqn:H2.
  { intros [= <- <-]. by eapply g_number_group. }
  destruct (g_op s) as [[n3 g3]|] eqn:H3.
  { intros [= <- <-]. left. unfold g_op in H3.
    destruct (existsb _ _); [|done]. by injection H3 as _ <-. }
  destruct (g_symbol s) as [[n4 g4]|] eqn:H4; [|done].
  intros [= <- <-]. left. unfold g_symbol in H4.
  destruct s as [|c r]; [done|]. destruct (str_mem c generic_symbol_chars); [|done].
  by injection H4 as _ <-.
Qed.

Lemma findall_group_inv (pat : list gmatcher) (s : string) :
  ∀ skip t, t ∈ findall_group_from pat skip s →
            ∃ pre s' n, s = pre +:+ s' ∧ first_gmatch pat s' = Some (n, t).
Proof.
  induction s as [|c s IH]; intros skip t; simpl; [by intros ?%elem_of_nil|].
  assert (Hrec : ∀ k, t ∈ findall_group_from pat k s →
                      ∃ pre s' n, String c s = pre +:+ s'
                                  ∧ first_gmatch pat s' = Some (n, t)).
  { intros k (pre & s' & n & -> & Hm)%IH.
    exists (String c pre), s', n. by rewrite str_app_cons. }
  destruct skip as [|k]; [|apply Hrec].
  destruct (first_gmatch pat (String c s)) as [[[|n] g]|] eqn:Hm; [| |apply Hrec].
  - intros [->|H]%elem_of_cons; [|by eapply Hrec].
    by exists "", (String c s), 0%nat.
  - intros [->|H]%elem_of_cons; [|by eapply Hrec].
    by exists "", (String c s), (S n).
Qed.

(** Canonical tokens of such a token list: every token goes through the
    last branch of the loop of [normalize_tokens] or through the keyword
    branch, which both copy it. *)
Lemma normalize_tokens_step_fraction (language_keywords : gset string)
  (st : norm_state) (tok : string) :
  tok = "" ∨ (∃ d, tok = String "." d) →
  normalize_tokens_step language_keywords st tok
  = NormState (id_map st) (next_id st) (norm st ++ [tok]).
Proof.
  intros H. unfold normalize_tokens_step.
  destruct (bool_decide (tok ∈ language_keywords)); [done|].
  destruct H as [-> | [d ->]]; reflexivity.
Qed.

Lemma normalize_tokens_loop_fraction (language_keywords : gset string)
  (toks : list string) :
  (∀ t, t ∈ toks → t = "" ∨ ∃ d, t = String "." d) →
  ∀ st, fold_left (normalize_tokens_step language_keywords) toks st
        = NormState (id_map st) (next_id st) (norm st ++ toks).
Proof.
  induction toks as [|t toks IH]; intros Hall st; simpl.
  - rewrite app_nil_r. by destruct st.
  - rewrite normalize_tokens_step_fraction by (apply Hall; by left).
    rewrite IH by (intros u Hu; apply Hall; by right).
    simpl. by rewrite <- app_assoc.
Qed.

Lemma generic_tokens_fraction (code t : string) :
  t ∈ tokenize_code_generic code →
  t = "" ∨ ∃ d, t = String "." d ∧ d ≠ "" ∧ str_forall is_digit d = true.
Proof.
  intros (pre & s' & n & _ & Hm)%findall_group_inv.
  destruct (generic_match_group _ _ _ Hm) as [-> | (d & -> & ? & ? & _)];
    [by left|right; by exists d].
Qed.

(** X24: the tokens [tokenize_code_generic] returns hold none of the text
    they were matched on: every token is the empty text, or (for a number
    with a fraction) the point and the digits behind it.  [normalize_tokens]
    returns such a list unchanged, with an empty identifier table,
    whatever the keyword set. *)
Theorem tokenize_code_generic_keeps_fractions_only (code : string)
  (language_keywords : gset string) :
  (∀ t, t ∈ tokenize_code_generic code →
        t = "" ∨ ∃ d, t = String "." d ∧ d ≠ "" ∧ str_forall is_digit d = true)
  ∧ normalize_tokens (tokenize_code_generic code) language_keywords
    = (tokenize_code_generic code, ∅).
Proof.
  split; [intros t; apply generic_tokens_fraction|].
  unfold normalize_tokens. rewrite normalize_tokens_loop_fraction; [done|].
  intros t Ht. destruct (generic_tokens_fraction _ _ Ht) as [-> | (d & -> & _)];
    [by left|right; by exists d].
Qed.

(** ** The run of tools/normalization_claude.py *)

Lemma str_mem_elem_of (c : ascii) (s : string) :
  str_mem c s = true ↔ c ∈ list_ascii_of_string s.
Proof.
  induction s as [|a s IH]; simpl.
  - split; [done|]. by intros ?%elem_of_nil.
  - rewrite elem_of_cons, orb_true_iff, IH.
    split; (intros [H|H]; [left|by right]).
    + by apply Ascii.eqb_eq in H.
    + by apply Ascii.eqb_eq.
Qed.

Lemma remove_comments_no_new_char (c : ascii) (code : string) :
  str_mem c code = false → str_mem c (remove_comments code) = false.
Proof.
  intros H. destruct (str_mem c (remove_comments code)) eqn:E; [|done].
  apply str_mem_elem_of in E.
  apply (fun H => elem_of_sublist _ _ _ H (remove_comments_sublist code)) in E.
  apply str_mem_elem_of in E. congruence.
Qed.

Lemma generic_tokens_without_point (code t : string) :
  str_mem "." code = false → t ∈ tokenize_code_generic code → t = "".
Proof.
  intros Hp (pre & s' & n & -> & Hm)%findall_group_inv.
  destruct (generic_match_group _ _ _ Hm) as [-> | (d & _ & _ & _ & Hs)]; [done|].
  rewrite str_mem_app, Hs, orb_true_r in Hp. done.
Qed.

Lemma all_equal_replicate {A} (x : A) (l : list A) :
  (∀ y, y ∈ l → y = x) → l = replicate (length l) x.
Proof.
  induction l as [|y l IH]; intros H; [done|]. simpl.
  rewrite (H y) by by left. f_equal. apply IH. intros z Hz. apply H. by right.
Qed.

Section Run.
Variable sha1_hex : string → string.

(** The digest of a window of [k] empty tokens. *)
Lemma fingerprint_tokens_replicate (n : nat) (k : Z) (x : string) :
  1 ≤ k → k ≤ Z.of_nat n →
  fingerprint_tokens sha1_hex (replicate n x) k
  = Ok {[ shingle_digest sha1_hex (replicate (Z.to_nat k) x) ]}.
Proof.
  intros Hk Hn. rewrite fingerprint_tokens_long by (rewrite ?length_replicate; lia).
  f_equal. apply set_eq. intros h.
  rewrite fingerprints_from_norm_windows by done.
  rewrite length_replicate, elem_of_singleton.
  assert (Hw : ∀ i : nat, Z.of_nat i + k ≤ Z.of_nat n →
                 take (Z.to_nat k) (drop i (replicate n x)) = replicate (Z.to_nat k) x).
  { intros i Hi. rewrite drop_replicate, take_replicate. f_equal. lia. }
  split.
  - intros (i & Hi & ->). by rewrite Hw.
  - intros ->. exists 0%nat. split; [lia|]. by rewrite Hw by lia.
Qed.

Lemma process_file_claude_without_point (k : Z) (raw : string) :
  1 ≤ k → str_mem "." raw = false →
  k ≤ Z.of_nat (length (tokenize_code_generic (remove_comments raw))) →
  process_file_claude sha1_hex k raw
  = Some (FileInfo {[ shingle_digest sha1_hex (replicate (Z.to_nat k) "") ]}
            (Z.of_nat (length (tokenize_code_generic (remove_comments raw))))).
Proof.
  intros Hk Hp Hn. unfold process_file_claude.
  destruct (String.eqb_spec raw "") as [->|_].
  { simpl in Hn. lia. }
  assert (Hnorm : normalize_tokens (tokenize_code_generic (remove_comments raw))
                    (list_to_set JAVA_KEYWORDS)
                  = (tokenize_code_generic (remove_comments raw), ∅)).
  { unfold normalize_tokens. rewrite normalize_tokens_loop_fraction; [done|].
    intros t Ht. destruct (generic_tokens_fraction _ _ Ht) as [-> | (d & -> & _)];
      [by left|right; by exists d]. }
  rewrite Hnorm.
  rewrite (all_equal_replicate "" (tokenize_code_generic (remove_comments raw))) at 1.
  - by rewrite fingerprint_tokens_replicate.
  - intros t. apply generic_tokens_without_point.
    by apply remove_comments_no_new_char.
Qed.

Lemma elem_of_process_repo (k : Z) (files : list (string * string))
  (p : string * file_info) :
  p ∈ process_repo sha1_hex k files
  ↔ ∃ f, f ∈ files ∧ p.1 = f.1 ∧ process_file_claude sha1_hex k f.2 = Some p.2.
Proof.
  unfold process_repo. rewrite list_elem_of_omap. split.
  - intros (f & Hf & H). exists f. split; [done|].
    destruct (process_file_claude sha1_hex k f.2); simplify_eq/=. done.
  - intros (f & Hf & H1 & H2). exists f. split; [done|].
    rewrite H2. simpl. destruct p. simpl in *. by subst.
Qed.

Lemma process_repo_nonempty (k : Z) (files : list (string * string)) :
  files ≠ [] →
  (∀ f, f ∈ files → is_Some (process_file_claude sha1_hex k f.2)) →
  process_repo sha1_hex k files ≠ [].
Proof.
  destruct files as [|f files]; [done|]. intros _ H.
  destruct (H f ltac:(by left)) as [info Hi].
  unfold process_repo. simpl. by rewrite Hi.
Qed.

End Run.

(** All files with the same non-empty fingerprint set: every best match
    is 1, so the directional score is. *)
Lemma directional_claude_same_fingerprints (A B : repo) (F : gset string) :
  A ≠ [] → B ≠ [] → F ≠ ∅ →
  (∀ f, f ∈ A → fingerprints f.2 = F) →
  (∀ g, g ∈ B → fingerprints g.2 = F) →
  (directional_claude A B == 1)%Q.
Proof.
  intros HA HB HF HAF HBF.
  pose proof (total_weight_pos A HA) as Hpos.
  unfold directional_claude. rewrite claude_loop, Z.add_0_l.
  destruct (Z.ltb_spec 0 (py_sum ((fun item => weight item.2) <$> A))); [|lia].
  apply (weighted_mean_of_ones A (fun f => best_score f B) HA).
  intros f Hf. apply Qle_antisym; [apply best_score_range|].
  destruct B as [|g B]; [done|].
  unfold best_score. rewrite (HAF f Hf).
  pose proof (proj2 (running_max_ge
                       (fun o : string * file_info =>
                          jaccard_similarity F (fingerprints o.2))
                       (g :: B) 0%Q)
                g ltac:(by left)) as Hmax.
  cbv beta in Hmax. rewrite (HBF g ltac:(by left)) in Hmax.
  rewrite (jaccard_similarity_refl _ HF) in Hmax. exact Hmax.
Qed.

(** X25: [run_pipeline] cannot tell apart files without decimal fractions:
    when no file holds a point and every file has at least [k] tokens, each
    file gets the same single fingerprint (the digest of [k] empty
    tokens), and the overall similarity of the two collections is 1. *)
Theorem run_pipeline_cannot_tell_files_apart (sha1_hex : string → string) (k : Z)
  (filesA filesB : list (string * string)) :
  1 ≤ k → filesA ≠ [] → filesB ≠ [] →
  (∀ f, f ∈ filesA ++ filesB →
        str_mem "." f.2 = false
        ∧ k ≤ Z.of_nat (length (tokenize_code_generic (remove_comments f.2)))) →
  (∀ f, f ∈ filesA ++ filesB →
        ∃ info, process_file_claude sha1_hex k f.2 = Some info
                ∧ fingerprints info
                  = {[ shingle_digest sha1_hex (replicate (Z.to_nat k) "") ]})
  ∧ ((run_pipeline sha1_hex k filesA filesB).2 == 1)%Q.
Proof.
  intros Hk HA HB Hfiles.
  assert (Hone : ∀ f, f ∈ filesA ++ filesB →
            ∃ info, process_file_claude sha1_hex k f.2 = Some info
                    ∧ fingerprints info
                      = {[ shingle_digest sha1_hex (replicate (Z.to_nat k) "") ]}).
  { intros f Hf. destruct (Hfiles f Hf) as [Hp Hn].
    eexists. split; [by apply process_file_claude_without_point|done]. }
  split; [exact Hone|].
  assert (Hrepo : ∀ files, files ≠ [] → (∀ f, f ∈ files → f ∈ filesA ++ filesB) →
            process_repo sha1_hex k files ≠ []
            ∧ ∀ p, p ∈ process_repo sha1_hex k files →
                   fingerprints p.2
                   = {[ shingle_digest sha1_hex (replicate (Z.to_nat k) "") ]}).
  { intros files Hne Hin. split.
    - apply process_repo_nonempty; [done|]. intros f Hf.
      destruct (Hone f (Hin f Hf)) as (info & -> & _). by eexists.
    - intros p (f & Hf & _ & Hp)%elem_of_process_repo.
      destruct (Hone f (Hin f Hf)) as (info & Hi & Hfp). congruence. }
  destruct (Hrepo filesA HA) as [HA1 HA2]; [intros f Hf; apply elem_of_app; by left|].
  destruct (Hrepo filesB HB) as [HB1 HB2]; [intros f Hf; apply elem_of_app; by right|].
  unfold run_pipeline. cbn [snd].
  assert (HF : ({[ shingle_digest sha1_hex (replicate (Z.to_nat k) "") ]} : gset string) ≠ ∅).
  { apply non_empty_singleton_L. }
  pose proof (directional_claude_same_fingerprints _ _ _ HA1 HB1 HF HA2 HB2) as H1.
  pose proof (directional_claude_same_fingerprints _ _ _ HB1 HA1 HF HB2 HA2) as H2.
  unfold aggregate_repo_similarity.
  destruct (process_repo sha1_hex k filesA); [done|].
  destruct (process_repo sha1_hex k filesB); [done|].
  rewrite H1, H2. reflexivity.
Qed.

Lemma run_pipeline_cannot_tell_files_apart_witness :
  ((run_pipeline (fun bytes => bytes) 3
      [("Sort.java", "int sort(int a) { return a; }")]
      [("Net.java", "while (true) { send(x, y); }")]).2 == 1)%Q.
Proof.
  refine (proj2 (run_pipeline_cannot_tell_files_apart (fun bytes => bytes) 3
                   [("Sort.java", "int sort(int a) { return a; }")]
                   [("Net.java", "while (true) { send(x, y); }")] _ _ _ _)).
  - lia.
  - discriminate.
  - discriminate.
  - intros f Hf.
    apply elem_of_cons in Hf as [->|Hf].
    { split; [reflexivity|]. vm_compute. discriminate. }
    apply elem_of_cons in Hf as [->|Hf].
    { split; [reflexivity|]. vm_compute. discriminate. }
    apply elem_of_nil in Hf. destruct Hf.
Defined.

(** X26: with a window size [k <= 0] every file raises inside the loop of
    [process_repo] and is skipped, so [run_pipeline] compares two empty
    dicts and reports 0.0; with [k >= 1] no file raises, and exactly the
    files with an empty text are skipped. *)
Theorem run_pipeline_skipped_files (sha1_hex : string → string) (k : Z)
  (filesA filesB : list (string * string)) :
  (k ≤ 0 → run_pipeline sha1_hex k filesA filesB = ([], [], 0%Q))
  ∧ (1 ≤ k →
     (process_repo sha1_hex k filesA).*1 = (filter (fun f => f.2 ≠ "") filesA).*1).
Proof.
  split.
  - intros Hk.
    assert (Hnone : ∀ files, process_repo sha1_hex k files = []).
    { intros files. unfold process_repo.
      induction files as [|f files IH]; [done|]. simpl.
      assert (process_file_claude sha1_hex k f.2 = None) as ->; [|exact IH].
      unfold process_file_claude. destruct (String.eqb f.2 ""); [done|].
      destruct (normalize_tokens _ _) as [n m].
      by rewrite fingerprint_tokens_rejects_nonpositive. }
    unfold run_pipeline. by rewrite !Hnone.
  - intros Hk. unfold process_repo.
    induction filesA as [|f files IH]; [done|]. simpl.
    unfold process_file_claude at 1.
    destruct (String.eqb_spec f.2 "") as [E|E].
    + rewrite filter_cons_False by (intros H; by apply H). exact IH.
    + rewrite filter_cons_True by done.
      destruct (normalize_tokens _ _) as [n m].
      assert (∃ fps, fingerprint_tokens sha1_hex n k = Ok fps) as [fps ->].
      { unfold fingerprint_tokens. destruct (Z.leb_spec k 0); [lia|].
        destruct (_ <? _); [destruct (_ =? _)|]; by eexists. }
      simpl. f_equal. exact IH.
Qed.

Lemma run_pipeline_skipped_files_witness :
  run_pipeline (fun bytes => bytes) 0 [("A.java", "int x;")] [("B.java", "int y;")]
  = ([], [], 0%Q).
Proof.
  refine (proj1 (run_pipeline_skipped_files (fun bytes => bytes) 0
                   [("A.java", "int x;")] [("B.java", "int y;")]) _).
  lia.
Defined.

(** ** The three normalizers against each other *)

Lemma fullmatch_ident_starts (tok : string) :
  fullmatch_ident tok = true → starts_like_identifier tok = true.
Proof.
  destruct tok as [|c r]; [done|]. simpl. intros [Hc _]%andb_prop.
  destruct c as [[] [] [] [] [] [] [] []]; first [discriminate Hc | reflexivity].
Qed.

Lemma normalize_step_backup_agrees (keywords : gset string) (st : norm_state)
  (tok : string) :
  starts_with_char backtick tok && ends_with_char backtick tok = false →
  normalize_step_backup keywords st tok = normalize_step keywords st tok.
Proof.
  intros Hb. unfold normalize_step_backup, normalize_step, classify.
  unfold is_string_literal, is_string_literal_backup. rewrite Hb, orb_false_r.
  destruct (_ || _); [done|].
  destruct (bool_decide _); [done|].
  destruct (fullmatch_number tok); [done|].
  by destruct (fullmatch_ident tok).
Qed.

Lemma normalize_tokens_step_agrees (keywords : gset string) (st : norm_state)
  (tok : string) :
  is_string_literal tok = false →
  (starts_like_identifier tok = true → fullmatch_ident tok = true) →
  normalize_tokens_step keywords st tok = normalize_step keywords st tok.
Proof.
  intros Hl Hi. unfold normalize_tokens_step, normalize_step, classify. rewrite Hl.
  destruct (bool_decide _); [done|].
  destruct (fullmatch_number tok); [done|].
  destruct (starts_like_identifier tok) eqn:Hs.
  - by rewrite Hi.
  - destruct (fullmatch_ident tok) eqn:Hf; [|done].
    apply fullmatch_ident_starts in Hf. congruence.
Qed.

Lemma fold_left_ext_stateful {A S} (f g : S → A → S) (l : list A) :
  (∀ s x, x ∈ l → f s x = g s x) → ∀ s, fold_left f l s = fold_left g l s.
Proof.
  induction l as [|x l IH]; intros H s; [done|]. simpl.
  rewrite H by by left. apply IH. intros s' y Hy. apply H. by right.
Qed.

(** X27: the three normalizers return the same canonical sequence and
    the same rename table on the token lists they all understand: the
    older [normalize] agrees with the current one when no token is a
    backtick literal, and [normalize_tokens] does when no token is a quoted
    literal and every token that starts with a letter or underscore is an
    identifier. *)
Theorem normalizers_agree (t : list string) (keywords : gset string) :
  ((∀ tok, tok ∈ t →
           starts_with_char backtick tok && ends_with_char backtick tok = false) →
   normalize_backup t keywords = normalize t keywords)
  ∧ ((∀ tok, tok ∈ t →
             is_string_literal tok = false
             ∧ (starts_like_identifier tok = true → fullmatch_ident tok = true)) →
     normalize_tokens t keywords = normalize t keywords).
Proof.
  split; intros H.
  - unfold normalize_backup, normalize, normalize_loop.
    rewrite (fold_left_ext_stateful _ (normalize_step keywords)); [done|].
    intros s x Hx. apply normalize_step_backup_agrees. by apply H.
  - unfold normalize_tokens, normalize, normalize_loop.
    rewrite (fold_left_ext_stateful _ (normalize_step keywords)); [done|].
    intros s x Hx. destruct (H x Hx). by apply normalize_tokens_step_agrees.
Qed.

Lemma normalizers_agree_witness :
  normalize_tokens ["int"; "x"; "="; "x"; "+"; "10"; ";"] (list_to_set JAVA_KEYWORDS)
  = normalize ["int"; "x"; "="; "x"; "+"; "10"; ";"] (list_to_set JAVA_KEYWORDS).
Proof.
  refine (proj2 (normalizers_agree ["int"; "x"; "="; "x"; "+"; "10"; ";"]
                   (list_to_set JAVA_KEYWORDS)) _).
  intros tok Hin. each_token Hin; (split; [reflexivity|]); intros Hs;
    first [ reflexivity | discriminate Hs ].
Defined.

(** ** The two tokenizers against each other *)

Lemma m_template_first (c : ascii) (r : string) :
  c ≠ backtick → m_template (String c r) = None.
Proof.
  intros Hc. unfold m_template, m_quoted.
  destruct (Ascii.eqb_spec c backtick); done.
Qed.

Lemma first_match_patterns_agree (c : ascii) (r : string) :
  c ≠ "/"%char → c ≠ backtick →
  first_match token_pattern (String c r) = first_match token_pattern_backup (String c r).
Proof.
  intros H1 H2. unfold token_pattern. cbn [first_match].
  by rewrite m_block_comment_first, m_line_comment_first, m_template_first.
Qed.

Lemma findall_patterns_agree (s : string) :
  str_mem "/" s = false → str_mem backtick s = false →
  ∀ skip, findall_from token_pattern skip s = findall_from token_pattern_backup skip s.
Proof.
  induction s as [|c s IH]; intros Hs Hb skip; [done|].
  apply str_mem_cons_false in Hs as [Hc1 Hs].
  apply str_mem_cons_false in Hb as [Hc2 Hb].
  cbn [findall_from]. destruct skip as [|k]; [|by apply IH].
  rewrite first_match_patterns_agree.
  - destruct (first_match token_pattern_backup (String c s)) as [[|n]|];
      by rewrite IH.
  - intros ->. done.
  - intros ->. done.
Qed.

Lemma filter_ext_in {A} (P Q : A → Prop) `{∀ x, Decision (P x)} `{∀ x, Decision (Q x)}
  (l : list A) :
  (∀ x, x ∈ l → P x ↔ Q x) → filter P l = filter Q l.
Proof.
  induction l as [|x l IH]; intros Hl; [done|].
  assert (Hx : P x ↔ Q x) by (apply Hl; by left).
  assert (Hr : filter P l = filter Q l) by (apply IH; intros y Hy; apply Hl; by right).
  destruct (decide (P x)) as [HP|HP].
  - rewrite !filter_cons_True by tauto. by f_equal.
  - rewrite !filter_cons_False by tauto. done.
Qed.

Lemma elem_of_concat_2 {A} (x : A) (l : list A) (ls : list (list A)) :
  x ∈ l → l ∈ ls → x ∈ concat ls.
Proof.
  intros Hx. induction ls as [|l' ls IH]; [by intros ?%elem_of_nil|].
  simpl. rewrite elem_of_app. intros [->|H]%elem_of_cons; [by left|right; by apply IH].
Qed.

(** The characters of a match are characters of the text. *)
Lemma findall_from_token_chars (pat : list matcher) (s t : string) (skip : nat)
  (c : ascii) :
  t ∈ findall_from pat skip s → str_mem c s = false → str_mem c t = false.
Proof.
  intros Ht Hs. destruct (str_mem c t) eqn:E; [|done].
  apply str_mem_elem_of in E.
  assert (Hc : c ∈ concat (list_ascii_of_string <$> findall_from pat skip s)).
  { apply (elem_of_concat_2 _ (list_ascii_of_string t)); [done|].
    by apply list_elem_of_fmap_2. }
  apply (fun H => elem_of_sublist _ _ _ H (findall_from_chars pat s skip)) in Hc.
  apply str_mem_elem_of in Hc. by rewrite str_mem_drop in Hc.
Qed.

Lemma comment_re_match_no_slash (t : string) :
  str_mem "/" t = false → comment_re_match t = false.
Proof.
  intros H. unfold comment_re_match.
  pose proof (str_mem_drop "/" (span is_space t) t H) as Hd.
  destruct t as [|c r]; [done|].
  apply str_mem_cons_false in H as [Hc _].
  assert (startswith "/*" (String c r) = false) as ->.
  { unfold startswith. simpl. destruct (Ascii.eqb_spec c "/") as [->|Hne]; [done|].
    destruct c as [[] [] [] [] [] [] [] []]; done. }
  destruct (str_drop _ _) as [|d u]; [done|].
  apply str_mem_cons_false in Hd as [Hd _].
  unfold startswith. simpl. destruct (Ascii.eqb_spec d "/") as [->|Hne]; [done|].
  destruct d as [[] [] [] [] [] [] [] []]; done.
Qed.

Lemma token_start_not_space (c : ascii) :
  is_ident_start c = true ∨ is_digit c = true ∨ is_symbol c = true →
  is_space c = false.
Proof.
  destruct c as [[] [] [] [] [] [] [] []]; try reflexivity;
    intros [H|[H|H]]; discriminate H.
Qed.

Lemma token_shape_strip (t : string) :
  token_shape t → strip_nonempty t = true.
Proof.
  unfold strip_nonempty.
  assert (Hfirst : ∀ c r, is_space c = false →
                          negb (str_forall is_space (String c r)) = true).
  { intros c r Hc. simpl. by rewrite Hc. }
  intros [H|[H|[H|[H|(c & Hc & ->)]]]].
  - destruct t as [|c r]; [done|]. apply Hfirst.
    unfold is_string_literal in H. simpl in H.
    destruct (Ascii.eqb_spec c dquote) as [->|]; [done|].
    destruct (Ascii.eqb_spec c squote) as [->|]; [done|].
    destruct (Ascii.eqb_spec c backtick) as [->|]; [done|]. done.
  - destruct t as [|c r]; [done|]. apply Hfirst. simpl in H.
    apply andb_prop in H as [H _]. apply token_start_not_space. by left.
  - destruct t as [|c r]; [done|]. apply Hfirst.
    unfold fullmatch_number in H. simpl in H.
    destruct (is_digit c) eqn:Hd; [|done].
    apply token_start_not_space. right. by left.
  - repeat (apply elem_of_cons in H as [->|H]; [reflexivity|]).
    by apply elem_of_nil in H.
  - apply Hfirst. apply token_start_not_space. right. by right.
Qed.

Lemma starts_with_char_mem (c : ascii) (t : string) :
  str_mem c t = false → starts_with_char c t = false.
Proof.
  destruct t as [|a r]; [done|]. by intros [? _]%str_mem_cons_false.
Qed.

(** X28: on a text without slash and backtick the two tokenizers return
    the same tokens; when the text holds no hash sign either, removing the
    comments first, as the older [main] does, changes nothing, and the
    fingerprints of the older per-file step are those of the current
    tokenizer and normalizer run with the Java keywords. *)
Theorem tokenizers_agree_without_slash_and_backtick (sha1_hex : string → string)
  (code : string) :
  str_mem "/" code = false → str_mem backtick code = false →
  tokenize_backup code = tokenize code
  ∧ (str_mem "#" code = false →
     tokenize_backup (remove_comments code) = tokenize code
     ∧ fingerprints (process_file_backup sha1_hex code).2
       = fingerprints_from_norm sha1_hex
           (normalize (tokenize code) (list_to_set JAVA_KEYWORDS)).1 5).
Proof.
  intros Hs Hb.
  assert (Heq : tokenize_backup code = tokenize code).
  { unfold tokenize, tokenize_backup, findall.
    rewrite findall_patterns_agree by done.
    apply filter_ext_in. intros t Ht. split.
    - intros Hstrip. split; [intros ->; done|].
      apply comment_re_match_no_slash. by eapply findall_from_token_chars.
    - intros [Hne _].
      apply findall_from_inv in Ht as [->|(s' & n & Hm & ->)]; [done|].
      apply token_shape_strip. by apply backup_match_shape. }
  split; [done|]. intros Hh.
  rewrite remove_comments_plain by done. split; [done|].
  unfold process_file_backup. rewrite remove_comments_plain, Heq by done.
  assert (Hn : normalize_backup (tokenize code) (list_to_set JAVA_KEYWORDS)
               = normalize (tokenize code) (list_to_set JAVA_KEYWORDS)).
  { unfold normalize_backup, normalize, normalize_loop.
    rewrite (fold_left_ext_stateful _ (normalize_step (list_to_set JAVA_KEYWORDS)));
      [done|].
    intros st t Ht. apply normalize_step_backup_agrees.
    apply list_elem_of_filter in Ht as [_ Ht].
    rewrite (starts_with_char_mem backtick t); [done|].
    by eapply findall_from_token_chars. }
  rewrite Hn. by destruct (normalize (tokenize code) (list_to_set JAVA_KEYWORDS)).
Qed.

Lemma tokenizers_agree_without_slash_and_backtick_witness :
  tokenize_backup "x = 'a' + 1.5;" = tokenize "x = 'a' + 1.5;".
Proof.
  refine (proj1 (tokenizers_agree_without_slash_and_backtick (fun bytes => bytes)
                   "x = 'a' + 1.5;" _ _));
    reflexivity.
Defined.

(** ** Fingerprinting: when the fingerprint set is empty *)

Section EmptySet.
Variable sha1_hex : string → string.

(** X29: for a window size [k >= 1], [fingerprints_from_norm] returns the
    empty set exactly on the sequences shorter than [k], so a short file
    has no fingerprint at all; [fingerprint_tokens] returns the empty set
    on the empty sequence only. *)
Theorem fingerprint_set_empty_iff (toks : list string) (k : Z) :
  1 ≤ k →
  (fingerprints_from_norm sha1_hex toks k = ∅ ↔ Z.of_nat (length toks) < k)
  ∧ ∃ fps, fingerprint_tokens sha1_hex toks k = Ok fps ∧ (fps = ∅ ↔ toks = []).
Proof.
  intros Hk.
  assert (Hlong : k ≤ Z.of_nat (length toks) →
                  fingerprints_from_norm sha1_hex toks k ≠ ∅).
  { intros Hn E.
    assert (Hin : shingle_digest sha1_hex (take (Z.to_nat k) (drop 0 toks))
                  ∈ fingerprints_from_norm sha1_hex toks k).
    { apply fingerprints_from_norm_windows; [done|]. exists 0%nat. split; [lia|done]. }
    rewrite E in Hin. by apply elem_of_empty in Hin. }
  split.
  - split.
    + intros E. destruct (Z.lt_ge_cases (Z.of_nat (length toks)) k); [done|].
      by destruct (Hlong ltac:(lia)).
    + intros Hn. by apply (fingerprints_from_norm_count sha1_hex toks k Hk).
  - destruct (fingerprint_tokens_count_law sha1_hex toks k Hk) as (_ & Hshort & Hnil).
    destruct (Z.lt_ge_cases (Z.of_nat (length toks)) k) as [Hn|Hn].
    + destruct toks as [|x toks].
      * exists ∅. split; [by apply Hnil|done].
      * eexists. split; [apply Hshort; simpl in *; lia|].
        split; [|done]. intros E. by apply non_empty_singleton_L in E.
    + eexists. split; [by apply fingerprint_tokens_long|].
      split.
      * intros E. by destruct (Hlong ltac:(lia)).
      * intros ->. simpl in Hn. lia.
Qed.

End EmptySet.

Lemma fingerprint_set_empty_iff_witness :
  (fingerprints_from_norm (fun bytes => bytes) ["a"; "b"] 5 = ∅
   ↔ Z.of_nat (length ["a"; "b"]) < 5)
  ∧ ∃ fps, fingerprint_tokens (fun bytes => bytes) ["a"; "b"] 5 = Ok fps
           ∧ (fps = ∅ ↔ ["a"; "b"] = []).
Proof.
  apply (fingerprint_set_empty_iff (fun bytes => bytes) ["a"; "b"] 5). lia.
Defined.

(** ** The run of tools/normalization.py on a renamed copy *)

Lemma process_file_fingerprints (sha1_hex : string → string) (txt : string) :
  fingerprints (process_file sha1_hex txt).2
  = fingerprints_from_norm sha1_hex (normalize (tokenize txt) KEYWORDS).1 5.
Proof.
  unfold process_file. by destruct (normalize (tokenize txt) KEYWORDS).
Qed.

Lemma elem_of_pairwise (perA perB : repo) (a b : string * file_info) :
  a ∈ perA → b ∈ perB →
  PairResult a.1 b.1 (jaccard (fingerprints a.2) (fingerprints b.2))
    (size (fingerprints a.2)) (size (fingerprints b.2))
  ∈ pairwise perA perB.
Proof.
  intros Ha Hb. unfold pairwise.
  apply list_elem_of_bind. exists a. split; [|done].
  apply list_elem_of_bind. exists b. split; [|done].
  by apply list_elem_of_singleton.
Qed.

(** X30: the end-to-end guarantee of the run of tools/normalization.py:
    when the tokens of a file of B are those of a file of A with the
    identifiers renamed (injectively, other tokens left alone), the pair
    is reported with score 1. *)
Theorem renamed_copy_scores_one (sha1_hex : string → string) (rho : string → string)
  (filesA filesB : list (string * string)) (a b txtA txtB : string) :
  (a, txtA) ∈ filesA → (b, txtB) ∈ filesB →
  tokenize txtB = rho <$> tokenize txtA →
  (∀ tok, tok ∈ tokenize txtA → classify KEYWORDS tok ≠ CIdent → rho tok = tok) →
  (∀ tok, tok ∈ tokenize txtA → classify KEYWORDS tok = CIdent →
          classify KEYWORDS (rho tok) = CIdent) →
  (∀ x y, x ∈ tokenize txtA → y ∈ tokenize txtA →
          classify KEYWORDS x = CIdent → classify KEYWORDS y = CIdent →
          rho x = rho y → x = y) →
  ∃ p, p ∈ pairs (compare_collections sha1_hex filesA filesB)
       ∧ fileA p = a ∧ fileB p = b ∧ (pr_jaccard p == 1)%Q.
Proof.
  intros HA HB Htok Hfix Hkeep Hinj.
  assert (Hnorm : (normalize (tokenize txtB) KEYWORDS).1
                  = (normalize (tokenize txtA) KEYWORDS).1).
  { rewrite Htok. unfold normalize. simpl.
    assert (Hinit : related KEYWORDS rho (tokenize txtA)
                      (NormState ∅ 1 []) (NormState ∅ 1 [])).
    { split; [done|]. split; [done|]. intros x _ _. simpl. by rewrite !lookup_empty. }
    by destruct (related_loop KEYWORDS rho (tokenize txtA) Hfix Hkeep Hinj
                   (tokenize txtA) (fun _ H => H) _ _ Hinit) as (Hn & _). }
  eexists. split.
  - unfold compare_collections. cbn [pairs].
    apply (elem_of_pairwise _ _ (a, (process_file sha1_hex txtA).2)
             (b, (process_file sha1_hex txtB).2)).
    + rewrite <- list_fmap_compose.
      apply (list_elem_of_fmap_2' _ _ (a, txtA)); done.
    + rewrite <- list_fmap_compose.
      apply (list_elem_of_fmap_2' _ _ (b, txtB)); done.
  - split; [done|]. split; [done|]. cbn [pr_jaccard snd].
    rewrite !process_file_fingerprints, Hnorm. apply jaccard_refl.
Qed.

Lemma renamed_copy_scores_one_witness :
  ∃ p, p ∈ pairs (compare_collections (fun bytes => bytes)
                    [("A.java", "int x = y + x; // sum")]
                    [("B.java", "int total = n + total;")])
       ∧ fileA p = "A.java" ∧ fileB p = "B.java" ∧ (pr_jaccard p == 1)%Q.
Proof.
  assert (E : tokenize "int x = y + x; // sum" = ["int"; "x"; "="; "y"; "+"; "x"; ";"])
    by (vm_compute; reflexivity).
  apply (renamed_copy_scores_one (fun bytes => bytes)
           (fun s => if String.eqb s "x" then "total"
                     else if String.eqb s "y" then "n" else s)
           _ _ "A.java" "B.java" "int x = y + x; // sum" "int total = n + total;").
  - by left.
  - by left.
  - vm_compute. reflexivity.
  - rewrite E. intros tok Hin Hc. each_token Hin; try reflexivity;
      exfalso; apply Hc; vm_compute; reflexivity.
  - rewrite E. intros tok Hin Hc. each_token Hin;
      first [ refute_class Hc | vm_compute; reflexivity ].
  - rewrite E. intros x y Hx Hy Hcx Hcy Hxy.
    each_token Hx; each_token Hy;
      first [ reflexivity | refute_class Hcx | refute_class Hcy | discriminate Hxy ].
Defined.

(** ** Tokenizer: an unterminated opener anywhere in the text *)

Lemma str_app_nil_l_eq (v : string) : "" +:+ v = v.
Proof. done. Qed.

Lemma span_app_le (p : ascii → bool) (u v : string) :
  (span p (u +:+ v) ≤ String.length u)%nat → span p u = span p (u +:+ v).
Proof.
  induction u as [|c u IH].
  - intros H. rewrite str_app_nil_l_eq in *. simpl in *. lia.
  - rewrite str_app_cons. simpl. destruct (p c); [|done].
    intros H. f_equal. apply IH. lia.
Qed.

Lemma span_app_ge (p : ascii → bool) (u v : string) :
  (span p u ≤ span p (u +:+ v))%nat.
Proof.
  induction u as [|c u IH]; [simpl; lia|].
  rewrite str_app_cons. simpl. destruct (p c); lia.
Qed.

Lemma span_le_length (p : ascii → bool) (u : string) :
  (span p u ≤ String.length u)%nat.
Proof. induction u as [|c u IH]; simpl; [lia|]. destruct (p c); lia. Qed.

Lemma str_drop_app_le (n : nat) (u v : string) :
  (n ≤ String.length u)%nat → str_drop n (u +:+ v) = str_drop n u +:+ v.
Proof.
  revert n. induction u as [|c u IH]; intros [|n] H; try done.
  - simpl in H. lia.
  - rewrite str_app_cons. simpl in *. apply IH. lia.
Qed.

Lemma str_take_app_le (n : nat) (u v : string) :
  (n ≤ String.length u)%nat → str_take n (u +:+ v) = str_take n u.
Proof.
  revert n. induction u as [|c u IH]; intros [|n] H.
  - by destruct v.
  - simpl in H. lia.
  - done.
  - rewrite str_app_cons. simpl in *. f_equal. apply IH. lia.
Qed.

Lemma prefix_app_le (p u v : string) :
  (String.length p ≤ String.length u)%nat →
  String.prefix p (u +:+ v) = String.prefix p u.
Proof.
  revert u. induction p as [|a p IH]; intros u H.
  - by rewrite !prefix_nil.
  - destruct u as [|c u]; simpl in H; [lia|].
    rewrite str_app_cons. simpl. destruct (ascii_dec a c); [|done].
    apply IH. lia.
Qed.

Lemma prefix_app_mono (p u v : string) :
  String.prefix p u = true → String.prefix p (u +:+ v) = true.
Proof.
  revert u. induction p as [|a p IH]; intros u H; [by rewrite prefix_nil|].
  destruct u as [|c u]; [done|].
  rewrite str_app_cons. simpl in *. destruct (ascii_dec a c); [|done]. by apply IH.
Qed.

Lemma find_close_ge (s : string) (k : nat) : find_close s = Some k → (2 ≤ k)%nat.
Proof.
  revert k. induction s as [|c s IH]; intros k; simpl; [done|].
  destruct (_ && _); [intros [= <-]; lia|].
  destruct (find_close s) as [j|]; [|done]. intros [= <-].
  specialize (IH j eq_refl). lia.
Qed.

Lemma starts_with_char_app (c : ascii) (u v : string) :
  u ≠ "" → starts_with_char c (u +:+ v) = starts_with_char c u.
Proof. by destruct u. Qed.

Lemma find_close_local (u v : string) :
  (find_close (u +:+ v) = None → find_close u = None)
  ∧ (∀ k, find_close (u +:+ v) = Some k → (k ≤ String.length u)%nat →
          find_close u = Some k).
Proof.
  induction u as [|c u [IH1 IH2]].
  - split; [done|]. intros k Hk Hle. apply find_close_ge in Hk. simpl in Hle. lia.
  - rewrite str_app_cons. simpl.
    destruct u as [|d u].
    + (* the text ends behind [c] *)
      rewrite andb_false_r. simpl. split.
      * done.
      * intros k Hk Hle. exfalso.
        destruct (_ && _); [injection Hk as <-; lia|].
        destruct (find_close _) as [j|] eqn:Hj; [|done].
        injection Hk as <-. apply find_close_ge in Hj. lia.
    + rewrite (starts_with_char_app _ (String d u)) by done.
      destruct (_ && _); [done|]. split.
      * intros H. destruct (find_close (String d u +:+ v)) eqn:E; [done|].
        by rewrite IH1.
      * intros k H Hle. destruct (find_close (String d u +:+ v)) as [j|] eqn:E; [|done].
        injection H as <-. rewrite (IH2 j); [done|done|]. simpl in *. lia.
Qed.

Lemma quoted_body_ge (q : ascii) (nl_ok : bool) (s : string) :
  ∀ esc k, quoted_body q nl_ok esc s = Some k → (1 ≤ k)%nat.
Proof.
  induction s as [|c s IH]; intros esc k; simpl; [done|].
  destruct esc.
  - destruct (Ascii.eqb c newline); [done|].
    destruct (quoted_body q nl_ok false s) as [j|]; [|done]. intros [= <-]. lia.
  - destruct (Ascii.eqb c q); [intros [= <-]; lia|].
    destruct (Ascii.eqb c backslash).
    { destruct (quoted_body q nl_ok true s) as [j|]; [|done]. intros [= <-]. lia. }
    destruct (_ && _); [done|].
    destruct (quoted_body q nl_ok false s) as [j|]; [|done]. intros [= <-]. lia.
Qed.

Lemma quoted_body_local (q : ascii) (nl_ok : bool) (u v : string) :
  ∀ esc,
    (quoted_body q nl_ok esc (u +:+ v) = None → quoted_body q nl_ok esc u = None)
    ∧ (∀ k, quoted_body q nl_ok esc (u +:+ v) = Some k → (k ≤ String.length u)%nat →
            quoted_body q nl_ok esc u = Some k).
Proof.
  induction u as [|c u IH]; intros esc.
  - split; [done|]. intros k Hk Hle. apply quoted_body_ge in Hk. simpl in Hle. lia.
  - rewrite str_app_cons.
    assert (Hstep : ∀ e,
      (S <$> quoted_body q nl_ok e (u +:+ v) = None →
       S <$> quoted_body q nl_ok e u = None)
      ∧ (∀ k, S <$> quoted_body q nl_ok e (u +:+ v) = Some k →
              (k ≤ String.length (String c u))%nat →
              S <$> quoted_body q nl_ok e u = Some k)).
    { intros e. destruct (IH e) as [IH1 IH2]. split.
      - destruct (quoted_body q nl_ok e (u +:+ v)) eqn:E; [done|]. by rewrite IH1.
      - intros k. destruct (quoted_body q nl_ok e (u +:+ v)) as [j|] eqn:E; [|done].
        intros [= <-] Hle. rewrite (IH2 j); [done|done|]. simpl in Hle. lia. }
    simpl. destruct esc.
    + destruct (Ascii.eqb c newline); [done|]. apply Hstep.
    + destruct (Ascii.eqb c q).
      { split; [done|]. by intros k [= <-] _. }
      destruct (Ascii.eqb c backslash); [apply Hstep|].
      destruct (_ && _); [done|]. apply Hstep.
Qed.

Lemma str_drop_length (n : nat) (s : string) :
  String.length (str_drop n s) = (String.length s - n)%nat.
Proof.
  revert n. induction s as [|c s IH]; intros [|n]; simpl; auto.
Qed.

(** A span that stops at a character of [u] is not continued by [v]. *)
Lemma span_app_stop (p : ascii → bool) (u v : string) :
  str_drop (span p u) u ≠ "" → span p u = span p (u +:+ v).
Proof.
  induction u as [|c u IH]; [done|].
  rewrite str_app_cons. simpl. destruct (p c); [|done].
  intros H. f_equal. by apply IH.
Qed.

Lemma m_block_comment_local : local_matcher m_block_comment.
Proof.
  intros c1 u v. unfold m_block_comment.
  destruct (Ascii.eqb_spec c1 "/") as [->|N1];
    [|split; [|intros n Hn; exfalso; revert Hn];
      destruct c1 as [[] [] [] [] [] [] [] []]; try done].
  destruct u as [|c2 u].
  - split; [done|]. intros n Hn Hle. exfalso. rewrite str_app_nil_l_eq in Hn.
    destruct v as [|b v]; [done|].
    destruct (find_close v) as [j|] eqn:E;
      destruct b as [[] [] [] [] [] [] [] []]; try done.
    injection Hn as <-. simpl in Hle. lia.
  - rewrite str_app_cons. destruct (find_close_local u v) as [H1 H2].
    destruct (Ascii.eqb_spec c2 "*") as [->|N2];
      [|split; [|intros n Hn; exfalso; revert Hn];
        destruct c2 as [[] [] [] [] [] [] [] []]; try done].
    split.
    + destruct (find_close (u +:+ v)) eqn:E; [done|]. by rewrite H1.
    + intros n. destruct (find_close (u +:+ v)) as [j|] eqn:E; [|done].
      intros [= <-] Hle. rewrite (H2 j); [done|done|]. simpl in Hle. lia.
Qed.

Lemma m_line_comment_local : local_matcher m_line_comment.
Proof.
  intros c1 u v. unfold m_line_comment.
  destruct (Ascii.eqb_spec c1 "/") as [->|N1];
    [|split; [|intros n Hn; exfalso; revert Hn];
      destruct c1 as [[] [] [] [] [] [] [] []]; try done].
  destruct u as [|c2 u].
  - split; [done|]. intros n Hn Hle. exfalso. rewrite str_app_nil_l_eq in Hn.
    destruct v as [|b v]; [done|].
    destruct b as [[] [] [] [] [] [] [] []]; try done.
    injection Hn as <-. simpl in Hle. lia.
  - rewrite str_app_cons.
    destruct (Ascii.eqb_spec c2 "/") as [->|N2];
      [|split; [|intros n Hn; exfalso; revert Hn];
        destruct c2 as [[] [] [] [] [] [] [] []]; try done].
    split; [done|]. intros n [= <-] Hle. do 3 f_equal.
    apply span_app_le. simpl in Hle. lia.
Qed.

Lemma m_quoted_local (q : ascii) (nl_ok : bool) : local_matcher (m_quoted q nl_ok).
Proof.
  intros c u v. unfold m_quoted. destruct (Ascii.eqb c q); [|done].
  destruct (quoted_body_local q nl_ok u v false) as [H1 H2]. split.
  - destruct (quoted_body q nl_ok false (u +:+ v)) eqn:E; [done|]. by rewrite H1.
  - intros n. destruct (quoted_body q nl_ok false (u +:+ v)) as [j|] eqn:E; [|done].
    intros [= <-] Hle. rewrite (H2 j); [done|done|lia].
Qed.

Lemma m_ident_local : local_matcher m_ident.
Proof.
  intros c u v. unfold m_ident. destruct (is_ident_start c); [|done].
  split; [done|]. intros n [= <-] Hle. do 2 f_equal. apply span_app_le. lia.
Qed.

Lemma m_integer_local : local_matcher m_integer.
Proof.
  intros c u v. unfold m_integer.
  change (String c (u +:+ v)) with (String c u +:+ v).
  pose proof (span_app_ge is_digit (String c u) v) as Hge. split.
  - destruct (span is_digit (String c u +:+ v)) eqn:E; [|done].
    intros _. assert (span is_digit (String c u) = 0%nat) as -> by lia. done.
  - intros n. destruct (span is_digit (String c u +:+ v)) as [|k] eqn:E; [done|].
    intros [= <-] Hle. rewrite (span_app_le is_digit (String c u) v), E; [done|].
    rewrite E. simpl. lia.
Qed.

Lemma m_symbol_local : local_matcher m_symbol.
Proof. intros c u v. unfold m_symbol. by destruct (is_symbol c). Qed.

Lemma m_multi_op_local : local_matcher m_multi_op.
Proof.
  intros c u v. unfold m_multi_op.
  change (String c (u +:+ v)) with (String c u +:+ v). split.
  - destruct (existsb _ (multi_char_ops)) eqn:E at 1; [done|]. intros _.
    destruct (existsb (fun op => startswith op (String c u)) multi_char_ops) eqn:E2;
      [|done].
    apply existsb_exists in E2 as (op & Hin & Hop).
    assert (existsb (fun op => startswith op (String c u +:+ v)) multi_char_ops = true);
      [|congruence].
    apply existsb_exists. exists op. split; [done|]. by apply prefix_app_mono.
  - intros n. destruct (existsb _ multi_char_ops) eqn:E at 1; [|done].
    intros [= <-] Hle.
    apply existsb_exists in E as (op & Hin & Hop).
    assert (existsb (fun op => startswith op (String c u)) multi_char_ops = true) as ->;
      [|done].
    apply existsb_exists. exists op. split; [done|].
    unfold startswith in *. rewrite prefix_app_le in Hop; [done|].
    assert (String.length op = 2%nat) as ->; [|simpl; lia].
    unfold multi_char_ops in Hin. simpl in Hin.
    repeat (destruct Hin as [<-|Hin]; [reflexivity|]). done.
Qed.

Lemma m_decimal_local : local_matcher m_decimal.
Proof.
  intros c u v. unfold m_decimal.
  change (String c (u +:+ v)) with (String c u +:+ v).
  set (w := String c u).
  pose proof (span_app_ge is_digit w v) as Hge.
  pose proof (span_le_length is_digit w) as Hlen.
  split.
  - (* no match on the longer text *)
    intros Hnone.
    destruct (span is_digit w) as [|k] eqn:Ek; [done|].
    destruct (str_drop (S k) w) as [|d r] eqn:Ed; [done|].
    (* the digits of [w] stop inside [w] *)
    assert (Hk : span is_digit (w +:+ v) = S k).
    { symmetry. rewrite <- Ek. apply span_app_stop. by rewrite Ek, Ed. }
    rewrite Hk in Hnone.
    rewrite str_drop_app_le in Hnone by exact Hlen.
    rewrite Ed, str_app_cons in Hnone.
    destruct (Ascii.eqb_spec d ".") as [->|Hne];
      [|by destruct d as [[] [] [] [] [] [] [] []]].
    pose proof (span_app_ge is_digit r v) as Hr.
    destruct (span is_digit (r +:+ v)) eqn:Er; [|done].
    assert (span is_digit r = 0%nat) as -> by lia. done.
  - intros n Hn Hle.
    destruct (span is_digit (w +:+ v)) as [|k] eqn:Ek; [done|].
    destruct (str_drop (S k) (w +:+ v)) as [|d r] eqn:Ed; [done|].
    destruct (Ascii.eqb_spec d ".") as [->|Hne];
      [|by destruct d as [[] [] [] [] [] [] [] []]].
    destruct (span is_digit r) as [|m] eqn:Em; [done|].
    injection Hn as <-.
    assert (Hkw : (S k ≤ String.length w)%nat) by (subst w; simpl in *; lia).
    rewrite <- (span_app_le is_digit w v) in Ek by lia. rewrite Ek.
    rewrite str_drop_app_le in Ed by done.
    destruct (str_drop (S k) w) as [|d' r'] eqn:Ed'.
    { (* the point would lie behind [w] *)
      exfalso. pose proof (str_drop_length (S k) w) as Hl.
      rewrite Ed' in Hl. subst w. simpl in *. lia. }
    rewrite str_app_cons in Ed. injection Ed as -> <-.
    assert (Hr : (S m ≤ String.length r')%nat).
    { pose proof (str_drop_length (S k) w) as Hl. rewrite Ed' in Hl.
      subst w. simpl in *. lia. }
    rewrite <- (span_app_le is_digit r' v) in Em by lia. by rewrite Em.
Qed.

Lemma first_match_local (pat : list matcher) :
  Forall local_matcher pat → local_matcher (first_match pat).
Proof.
  induction 1 as [|m pat Hm _ IH]; intros c u v; [done|].
  destruct (Hm c u v) as [Hm1 Hm2]. destruct (IH c u v) as [IH1 IH2].
  cbn [first_match]. split.
  - destruct (m (String c (u +:+ v))) eqn:E; [done|]. rewrite Hm1 by done. exact IH1.
  - intros n. destruct (m (String c (u +:+ v))) as [k|] eqn:E.
    + intros [= <-] Hle. by rewrite (Hm2 k).
    + rewrite Hm1 by done. apply IH2.
Qed.

Lemma token_patterns_local :
  Forall local_matcher token_pattern ∧ Forall local_matcher token_pattern_backup.
Proof.
  split; repeat apply Forall_cons_2; try apply Forall_nil_2;
    first [ apply m_block_comment_local | apply m_line_comment_local
          | apply m_quoted_local | apply m_ident_local | apply m_decimal_local
          | apply m_integer_local | apply m_multi_op_local | apply m_symbol_local ].
Qed.

(** A pending match covers characters of [pre] first. *)
Lemma pending_ge (pat : list matcher) (pre s : string) :
  ∀ skip, (skip - String.length pre ≤ pending pat skip pre s)%nat.
Proof.
  induction pre as [|c pre IH]; intros skip; [simpl; lia|].
  cbn [pending String.length]. destruct skip as [|k]; [lia|].
  specialize (IH k). lia.
Qed.

(** At a boundary the matches of [pre +:+ s] are those of [pre] followed
    by those of [s]. *)
Lemma findall_from_boundary (pat : list matcher) (pre s : string) :
  Forall local_matcher pat →
  ∀ skip, pending pat skip pre s = 0%nat →
          findall_from pat skip (pre +:+ s)
          = findall_from pat skip pre ++ findall_from pat 0 s.
Proof.
  intros Hloc. pose proof (first_match_local pat Hloc) as Hfm.
  induction pre as [|c pre IH]; intros skip Hp.
  - simpl in Hp. subst skip. rewrite str_app_nil_l_eq. by destruct s.
  - rewrite str_app_cons. cbn [pending] in Hp. cbn [findall_from].
    destruct skip as [|k]; [|by apply IH].
    rewrite str_app_cons in Hp. destruct (Hfm c pre s) as [H1 H2].
    destruct (first_match pat (String c (pre +:+ s))) as [[|n]|] eqn:E.
    + rewrite (H2 0%nat) by (done || lia). rewrite IH by done. done.
    + pose proof (pending_ge pat pre s n) as Hn.
      rewrite (H2 (S n)) by (done || lia). rewrite IH by done.
      rewrite <- str_app_cons, str_take_app_le by (simpl; lia). done.
    + rewrite H1 by done. by apply IH.
Qed.

Lemma tokenize_boundary (pre s : string) :
  (token_boundary token_pattern pre s → tokenize (pre +:+ s) = tokenize pre ++ tokenize s)
  ∧ (token_boundary token_pattern_backup pre s →
     tokenize_backup (pre +:+ s) = tokenize_backup pre ++ tokenize_backup s).
Proof.
  unfold token_boundary, tokenize, tokenize_backup, findall.
  destruct token_patterns_local as [H1 H2].
  split; intros Hb; rewrite findall_from_boundary by done; apply filter_app.
Qed.

(** C8, as the code has it: the tokenizer is total and yields at most one
    token per character of its input.  Wherever the scan of a text comes
    to an opening [/*] with no closer behind it (see [find_close_None]),
    the opener is tokenized as the two symbols [/] and [*]; where it comes
    to an opening double or single quote whose string is not closed, the
    quote is the one-character token of that quote; in both cases the
    text before the opener and the text behind it are tokenized as code.
    The older copy of the tokenizer does the same, for the comment opener
    whether it is closed or not. *)
Theorem tokenize_unterminated_opener (code pre rest : string) :
  ((length (tokenize code) ≤ String.length code)%nat
   ∧ (length (tokenize_backup code) ≤ String.length code)%nat)
  ∧ (token_boundary token_pattern pre ("/*" +:+ rest) → find_close rest = None →
     tokenize (pre +:+ "/*" +:+ rest) = tokenize pre ++ "/" :: "*" :: tokenize rest)
  ∧ (token_boundary token_pattern_backup pre ("/*" +:+ rest) →
     tokenize_backup (pre +:+ "/*" +:+ rest)
     = tokenize_backup pre ++ "/" :: "*" :: tokenize_backup rest)
  ∧ (∀ q, q = dquote ∨ q = squote → unterminated_string q rest →
          (token_boundary token_pattern pre (String q rest) →
           tokenize (pre +:+ String q rest)
           = tokenize pre ++ String q "" :: tokenize rest)
          ∧ (token_boundary token_pattern_backup pre (String q rest) →
             tokenize_backup (pre +:+ String q rest)
             = tokenize_backup pre ++ String q "" :: tokenize_backup rest)).
Proof.
  split; [apply tokenize_length|]. split; [|split].
  - intros Hb H. rewrite (proj1 (tokenize_boundary pre _) Hb). f_equal.
    unfold tokenize. rewrite (findall_unterminated_comment rest H).
    by rewrite !tokenize_cons_keep.
  - intros Hb. rewrite (proj2 (tokenize_boundary pre _) Hb).
    assert (E : tokenize_backup ("/*" +:+ rest) = "/" :: "*" :: tokenize_backup rest).
    { unfold tokenize_backup. rewrite findall_backup_comment_opener.
      by rewrite !tokenize_backup_cons_keep. }
    by rewrite E.
  - intros q Hq H.
    destruct (findall_unterminated_string q rest Hq H) as [E1 E2].
    split; intros Hb.
    + rewrite (proj1 (tokenize_boundary pre _) Hb). f_equal.
      unfold tokenize. rewrite E1.
      destruct Hq as [-> | ->]; by rewrite tokenize_cons_keep.
    + rewrite (proj2 (tokenize_boundary pre _) Hb). f_equal.
      unfold tokenize_backup. rewrite E2.
      destruct Hq as [-> | ->]; by rewrite tokenize_backup_cons_keep.
Qed.

Lemma tokenize_unterminated_opener_witness :
  tokenize ("x = 1; " +:+ "/*" +:+ " a") = tokenize "x = 1; " ++ "/" :: "*" :: tokenize " a"
  ∧ tokenize ("s = " +:+ String dquote "abc")
    = tokenize "s = " ++ String dquote "" :: tokenize "abc".
Proof.
  split.
  - apply (proj1 (proj2 (tokenize_unterminated_opener "" "x = 1; " " a")));
      reflexivity.
  - apply (proj1 (proj2 (proj2 (proj2 (tokenize_unterminated_opener "" "s = " "abc")))
                    dquote (or_introl eq_refl) eq_refl)).
    reflexivity.
Defined.

(** ** The scores in binary64 *)

Lemma ltb_irrefl (a : B64.float) : is_score a → B64.ltb a a = false.
Proof.
  destruct a as [[]|[]| |[] m e]; try done. intros _.
  unfold B64.ltb, SFltb, SFcompare.
  rewrite Z.compare_refl. change (Pos.compare_cont Eq m m) with (Pos.compare m m).
  by rewrite Pos.compare_refl.
Qed.

Lemma ltb_finite (m1 m2 : positive) (e1 e2 : Z) :
  B64.ltb (S754_finite false m1 e1) (S754_finite false m2 e2) = true
  ↔ e1 < e2 ∨ (e1 = e2 ∧ (m1 < m2)%positive).
Proof.
  unfold B64.ltb, SFltb, SFcompare.
  change (Pos.compare_cont Eq m1 m2) with (Pos.compare m1 m2).
  destruct (Z.compare_spec e1 e2); destruct (Pos.compare_spec m1 m2);
    split; try done; try lia; intros; by (left + right).
Qed.

Lemma ltb_trans (a b c : B64.float) :
  is_score a → is_score b → is_score c →
  B64.ltb a b = true → B64.ltb b c = true → B64.ltb a c = true.
Proof.
  destruct a as [[]|[]| |[] m1 e1]; try done;
    destruct b as [[]|[]| |[] m2 e2]; try done;
    destruct c as [[]|[]| |[] m3 e3]; try done.
  intros _ _ _. rewrite !ltb_finite. lia.
Qed.

Lemma ltb_total (a b : B64.float) :
  is_score a → is_score b →
  B64.ltb a b = false → B64.ltb b a = false → a = b.
Proof.
  destruct a as [[]|[]| |[] m1 e1]; try done;
    destruct b as [[]|[]| |[] m2 e2]; try done.
  intros _ _ H1 H2.
  destruct (decide (e1 < e2 ∨ (e1 = e2 ∧ (m1 < m2)%positive))) as [H|H].
  { apply ltb_finite in H. congruence. }
  destruct (decide (e2 < e1 ∨ (e2 = e1 ∧ (m2 < m1)%positive))) as [H'|H'].
  { apply ltb_finite in H'. congruence. }
  assert (e1 = e2) as -> by lia. assert (m1 = m2) as -> by lia. done.
Qed.

Lemma ltb_zero (a : B64.float) : is_score a → B64.ltb a B64.zero = false.
Proof. by destruct a as [[]|[]| |[] m e]. Qed.

Lemma py_max_score (a b : B64.float) :
  is_score a → is_score b → is_score (B64.py_max a b).
Proof. intros Ha Hb. unfold B64.py_max. by destruct (B64.ltb a b). Qed.

(** On scores [py_max] is the maximum of a total order. *)
Lemma py_max_comm (a b : B64.float) :
  is_score a → is_score b → B64.py_max a b = B64.py_max b a.
Proof.
  intros Ha Hb. unfold B64.py_max.
  destruct (B64.ltb a b) eqn:E1, (B64.ltb b a) eqn:E2; try done.
  - pose proof (ltb_trans a b a Ha Hb Ha E1 E2) as H.
    rewrite ltb_irrefl in H; done.
  - by apply ltb_total.
Qed.

Lemma py_max_assoc (a b c : B64.float) :
  is_score a → is_score b → is_score c →
  B64.py_max (B64.py_max a b) c = B64.py_max a (B64.py_max b c).
Proof.
  intros Ha Hb Hc. unfold B64.py_max.
  destruct (B64.ltb a b) eqn:Eab, (B64.ltb b c) eqn:Ebc; rewrite ?Eab, ?Ebc; try done.
  - by rewrite (ltb_trans a b c).
  - destruct (B64.ltb a c) eqn:Eac; [|done].
    destruct (B64.ltb c b) eqn:Ecb.
    + pose proof (ltb_trans a c b Ha Hc Hb Eac Ecb). congruence.
    + pose proof (ltb_total b c Hb Hc Ebc Ecb). subst. congruence.
Qed.

Lemma fmaximum_score (l : list B64.float) :
  Forall is_score l → is_score (B64.fmaximum l).
Proof.
  induction 1 as [|x l Hx _ IH]; simpl; [done|].
  by destruct (B64.ltb _ _).
Qed.

(** The loop [best = 0.0; best = max(best, x)] leaves the greatest
    score. *)
Lemma running_max_fmaximum (l : list B64.float) :
  Forall is_score l →
  ∀ a, is_score a →
       fold_left B64.py_max l a = B64.py_max a (B64.fmaximum l).
Proof.
  induction 1 as [|x l Hx Hl IH]; intros a Ha; simpl.
  - unfold B64.py_max. by rewrite ltb_zero.
  - rewrite IH by by apply py_max_score.
    pose proof (fmaximum_score l Hl) as Hm.
    change (if B64.ltb (B64.fmaximum l) x then x else B64.fmaximum l)
      with (B64.py_max (B64.fmaximum l) x).
    rewrite py_max_assoc by done. f_equal. by apply py_max_comm.
Qed.

Lemma py_max_zero_l (a : B64.float) : is_score a → B64.py_max B64.zero a = a.
Proof. by destruct a as [[]|[]| |[] m e]. Qed.

Lemma fmaximum_perm (l l' : list B64.float) :
  Forall is_score l → l ≡ₚ l' → B64.fmaximum l = B64.fmaximum l'.
Proof.
  intros Hl Hp. induction Hp as [|x l l' Hp IH|x y l|l l' l'' Hp IH Hp' IH'].
  - done.
  - simpl. apply Forall_cons in Hl as [_ Hl]. by rewrite IH.
  - apply Forall_cons in Hl as [Hy Hl]. apply Forall_cons in Hl as [Hx Hl].
    pose proof (fmaximum_score l Hl) as Hm. simpl.
    change (B64.py_max (B64.py_max (B64.fmaximum l) x) y
            = B64.py_max (B64.py_max (B64.fmaximum l) y) x).
    rewrite !py_max_assoc by done. f_equal. by apply py_max_comm.
  - rewrite IH by done. apply IH'. by rewrite <- Hp.
Qed.

(** Rounding a non-negative mantissa never gives a NaN or a negative
    float. *)
Lemma shr_1_nonneg (r : shr_record) : 0 ≤ shr_m r → 0 ≤ shr_m (shr_1 r).
Proof.
  destruct r as [m rb sb]. simpl. intros Hm.
  destruct m as [|[p|p|]|p]; simpl; lia.
Qed.

Lemma iter_pos_invariant {A} (P : A → Prop) (f : A → A) :
  (∀ x, P x → P (f x)) → ∀ n x, P x → P (SpecFloat.iter_pos f n x).
Proof.
  intros Hf. induction n as [n IH|n IH|]; intros x Hx; simpl; auto.
Qed.

Lemma shr_nonneg (r : shr_record) (e n : Z) :
  0 ≤ shr_m r → 0 ≤ shr_m (shr r e n).1.
Proof.
  intros Hr. unfold shr. destruct n; simpl; try done.
  by apply (iter_pos_invariant (fun r => 0 ≤ shr_m r)); [apply shr_1_nonneg|].
Qed.

Lemma shr_record_of_loc_m (m : Z) (l : location) : shr_m (shr_record_of_loc m l) = m.
Proof. by destruct l as [|[]]. Qed.

Lemma shr_fexp_nonneg (m e : Z) (l : location) :
  0 ≤ m → 0 ≤ shr_m (shr_fexp B64.prec B64.emax m e l).1.
Proof.
  intros Hm. unfold shr_fexp. apply shr_nonneg. by rewrite shr_record_of_loc_m.
Qed.

Lemma round_nearest_even_nonneg (m : Z) (l : location) :
  0 ≤ m → 0 ≤ round_nearest_even m l.
Proof. intros Hm. destruct l as [|[]]; simpl; try done; try lia. destruct (Z.even m); lia. Qed.

Lemma binary_round_aux_score (m e : Z) (l : location) :
  0 ≤ m → is_score (binary_round_aux B64.prec B64.emax false m e l).
Proof.
  intros Hm. unfold binary_round_aux.
  pose proof (shr_fexp_nonneg m e l Hm) as H1.
  destruct (shr_fexp B64.prec B64.emax m e l) as [mrs' e'].
  pose proof (shr_fexp_nonneg (round_nearest_even (shr_m mrs') (loc_of_shr_record mrs'))
                e' loc_Exact (round_nearest_even_nonneg _ _ H1)) as H2.
  destruct (shr_fexp B64.prec B64.emax _ e' loc_Exact) as [mrs'' e''].
  simpl in H2. destruct (shr_m mrs'') as [|p|p]; [done| |lia].
  by destruct (_ <=? _).
Qed.

Lemma SFdiv_core_nonneg (m1 e1 m2 e2 : Z) :
  0 ≤ m1 → 0 < m2 →
  0 ≤ (SFdiv_core_binary B64.prec B64.emax m1 e1 m2 e2).1.1.
Proof.
  intros H1 H2. unfold SFdiv_core_binary. cbv zeta.
  match goal with |- context [IntDef.Z.div_eucl ?a m2] => set (m' := a) end.
  assert (Hm : 0 ≤ m').
  { subst m'. destruct (_ - _ - _) as [|p|p]; try lia. apply Z.shiftl_nonneg. lia. }
  change (IntDef.Z.div_eucl m' m2) with (Z.div_eucl m' m2).
  pose proof (Z.div_pos m' m2 Hm H2) as Hq. unfold Z.div in Hq.
  by destruct (Z.div_eucl m' m2) as [q r].
Qed.

Lemma len_div_score (n d : nat) : (0 < d)%nat → is_score (B64.len_div n d).
Proof.
  intros Hd. unfold B64.len_div. destruct n as [|n]; [done|].
  destruct d as [|d]; [lia|].
  unfold B64.div, SFdiv.
  pose proof (SFdiv_core_nonneg (Z.pos (Pos.of_nat (S n))) 0
                (Z.pos (Pos.of_nat (S d))) 0 ltac:(lia) ltac:(lia)) as Hq.
  destruct (SFdiv_core_binary _ _ _ _ _ _) as [[mz ez] lz].
  by apply binary_round_aux_score.
Qed.

Lemma jaccard_score (a b : gset string) :
  is_score (B64.jaccard a b) ∧ is_score (B64.jaccard_similarity a b).
Proof.
  unfold B64.jaccard, B64.jaccard_similarity. split.
  - destruct (negb (truthy a) && negb (truthy b)); [exact I|].
    destruct (negb (truthy a) || negb (truthy b)); [exact I|].
    unfold truthy. destruct (bool_decide (a ∪ b ≠ ∅)) eqn:Hu; [|exact I].
    apply bool_decide_eq_true in Hu.
    apply len_div_score.
    destruct (size (a ∪ b)) eqn:E; [|lia]. apply size_empty_iff in E. set_solver.
  - destruct (negb (truthy a) && negb (truthy b)); [exact I|].
    destruct (negb (truthy a) || negb (truthy b)); [exact I|].
    destruct (Nat.ltb_spec 0 (size (a ∪ b))); [|exact I]. by apply len_div_score.
Qed.

(** *** The loops of the aggregate in binary64 *)

Lemma of_int_Ok (n : Z) (x : B64.float) : B64.of_int n = Ok x → x = B64.of_Z n.
Proof. unfold B64.of_int. destruct (B64.of_Z n); by intros [= <-]. Qed.

Lemma for_each_Ok {A S} (body : S → A → result S) (step : S → A → S) (l : list A) :
  (∀ s x, x ∈ l → body s x = Ok (step s x)) →
  ∀ s, for_each body l s = Ok (fold_left step l s).
Proof.
  induction l as [|x l IH]; intros H s; [done|].
  simpl. rewrite H by by left. simpl. apply IH. intros s' y Hy. apply H. by right.
Qed.

Lemma fold_left_fmap_acc {A B S} (g : S → B → S) (f : A → B) (l : list A) :
  ∀ s, fold_left (fun s x => g s (f x)) l s = fold_left g (f <$> l) s.
Proof. induction l as [|x l IH]; intros s; [done|]. simpl. apply IH. Qed.

Lemma best_match_max_score (f : file_info) (B : repo) :
  B64.best_match f B = B64.max_score B64.jaccard f B.
Proof.
  unfold B64.best_match, B64.max_score.
  rewrite (fold_left_fmap_acc B64.py_max
             (fun g : string * file_info => B64.jaccard (fingerprints f) (fingerprints g.2))).
  rewrite running_max_fmaximum; [| |exact I].
  - apply py_max_zero_l. apply fmaximum_score.
    apply Forall_fmap, Forall_forall. intros g _. apply jaccard_score.
  - apply Forall_fmap, Forall_forall. intros g _. apply jaccard_score.
Qed.

Lemma best_score_max_score (f : file_info) (B : repo) :
  B64.best_score f B = B64.max_score B64.jaccard_similarity f B.
Proof.
  unfold B64.best_score, B64.max_score.
  change (fold_left _ B B64.zero)
    with (fold_left (fun best (g : string * file_info) =>
                       B64.py_max best
                         (B64.jaccard_similarity (fingerprints f) (fingerprints g.2)))
            B B64.zero).
  rewrite (fold_left_fmap_acc B64.py_max
             (fun g : string * file_info =>
                B64.jaccard_similarity (fingerprints f) (fingerprints g.2))).
  rewrite running_max_fmaximum; [| |exact I].
  - apply py_max_zero_l. apply fmaximum_score.
    apply Forall_fmap, Forall_forall. intros g _. apply jaccard_score.
  - apply Forall_fmap, Forall_forall. intros g _. apply jaccard_score.
Qed.

Lemma directional_float (A B : repo) :
  A ≠ [] → B64.convertible A →
  B64.directional A B = Ok (B64.directional_spec B64.jaccard A B).
Proof.
  intros HA [Hw [t Ht]]. unfold B64.directional, B64.directional_spec.
  rewrite (for_each_Ok _
             (fun sumw item =>
                B64.add sumw (B64.mul (B64.best_match item.2 B)
                                (B64.of_Z (weight item.2))))).
  - cbn [mbind result_bind].
    pose proof (total_weight_pos A HA) as Hpos.
    destruct (Z.eqb_spec (py_sum ((fun item => weight item.2) <$> A)) 0); [lia|].
    rewrite Ht. cbn [mbind result_bind]. rewrite (of_int_Ok _ _ Ht).
    do 2 f_equal. unfold B64.fsum.
    rewrite <- fold_left_fmap_acc. apply fold_left_ext_in.
    intros s x _. by rewrite best_match_max_score.
  - intros s x Hx. destruct (Hw x Hx) as [w Hwx]. rewrite Hwx.
    cbn [mbind result_bind]. by rewrite (of_int_Ok _ _ Hwx).
Qed.

(** The loop of [aggregate_repo_similarity] carries the sum of the
    weights beside the weighted sum. *)
Lemma claude_loop_float (f : string * file_info → B64.float) (A : repo) :
  ∀ s t,
    fold_left (fun '(ws, tw) item => (B64.add ws (f item), tw + weight item.2)) A (s, t)
    = (fold_left (fun ws item => B64.add ws (f item)) A s,
       t + py_sum ((fun item => weight item.2) <$> A)).
Proof.
  induction A as [|x A IH]; intros s t.
  - simpl. f_equal. change (t = t + 0). lia.
  - cbn [fold_left]. rewrite IH. f_equal. rewrite fmap_cons, py_sum_cons. lia.
Qed.

Lemma directional_claude_float (A B : repo) :
  A ≠ [] → B64.convertible A →
  B64.directional_claude A B = Ok (B64.directional_spec B64.jaccard_similarity A B).
Proof.
  intros HA [Hw [t Ht]]. unfold B64.directional_claude, B64.directional_spec.
  rewrite (for_each_Ok _
             (fun '(ws, tw) item =>
                (B64.add ws (B64.mul (B64.best_score item.2 B)
                               (B64.of_Z (weight item.2))),
                 tw + weight item.2))).
  - cbn [mbind result_bind].
    rewrite (claude_loop_float
               (fun item => B64.mul (B64.best_score item.2 B) (B64.of_Z (weight item.2)))).
    pose proof (total_weight_pos A HA) as Hpos. rewrite Z.add_0_l.
    destruct (Z.ltb_spec 0 (py_sum ((fun item => weight item.2) <$> A))); [|lia].
    rewrite Ht. cbn [mbind result_bind]. rewrite (of_int_Ok _ _ Ht).
    do 2 f_equal. unfold B64.fsum.
    rewrite <- fold_left_fmap_acc. apply fold_left_ext_in.
    intros s x _. by rewrite best_score_max_score.
  - intros [ws tw] x Hx. destruct (Hw x Hx) as [w Hwx]. rewrite Hwx.
    cbn [mbind result_bind]. by rewrite (of_int_Ok _ _ Hwx).
Qed.

(** C4: for two non-empty collections whose counts convert to floats, the
    aggregate score either implementation returns is the arithmetic mean
    of the two directional aggregates, each the sum over the files of the
    weight [max(1, norm_len)] times the greatest Jaccard score against the
    other collection, divided by the sum of the weights.  Every operation
    is the binary64 one and the sum runs in file order from [0.0], as the
    code computes them. *)
Theorem aggregate_is_mean_of_directional (A B : repo) :
  A ≠ [] → B ≠ [] → B64.convertible A → B64.convertible B →
  B64.aggregate A B = Ok (B64.aggregate_spec B64.jaccard A B)
  ∧ B64.aggregate_repo_similarity A B
    = Ok (B64.aggregate_spec B64.jaccard_similarity A B).
Proof.
  intros HA HB HcA HcB. split.
  - unfold B64.aggregate. rewrite !directional_float by done. done.
  - unfold B64.aggregate_repo_similarity. destruct A as [|a A]; [done|].
    destruct B as [|b B]; [done|].
    rewrite !directional_claude_float by done. done.
Qed.

Lemma aggregate_is_mean_of_directional_witness :
  B64.aggregate
    [("a.java", FileInfo {["h1"; "h2"]} 7); ("c.java", FileInfo {["h2"; "h3"; "h4"]} 3)]
    [("b.java", FileInfo {["h1"; "h2"; "h3"]} 0)]
  = Ok (B64.aggregate_spec B64.jaccard
          [("a.java", FileInfo {["h1"; "h2"]} 7);
           ("c.java", FileInfo {["h2"; "h3"; "h4"]} 3)]
          [("b.java", FileInfo {["h1"; "h2"; "h3"]} 0)])
  ∧ B64.aggregate_repo_similarity
      [("a.java", FileInfo {["h1"; "h2"]} 7); ("c.java", FileInfo {["h2"; "h3"; "h4"]} 3)]
      [("b.java", FileInfo {["h1"; "h2"; "h3"]} 0)]
    = Ok (B64.aggregate_spec B64.jaccard_similarity
            [("a.java", FileInfo {["h1"; "h2"]} 7);
             ("c.java", FileInfo {["h2"; "h3"; "h4"]} 3)]
            [("b.java", FileInfo {["h1"; "h2"; "h3"]} 0)]).
Proof.
  apply (aggregate_is_mean_of_directional
           [("a.java", FileInfo {["h1"; "h2"]} 7);
            ("c.java", FileInfo {["h2"; "h3"; "h4"]} 3)]
           [("b.java", FileInfo {["h1"; "h2"; "h3"]} 0)]).
  - discriminate.
  - discriminate.
  - split.
    + intros f Hf. repeat (apply elem_of_cons in Hf as [->|Hf]; [by eexists|]).
      apply elem_of_nil in Hf. destruct Hf.
    + by eexists.
  - split.
    + intros f Hf. repeat (apply elem_of_cons in Hf as [->|Hf]; [by eexists|]).
      apply elem_of_nil in Hf. destruct Hf.
    + by eexists.
Defined.

(** *** The order of the files *)

Lemma fmax_score_perm (J : gset string → gset string → B64.float) (f : file_info)
  (B B' : repo) :
  (∀ a b, is_score (J a b)) → B ≡ₚ B' → B64.max_score J f B = B64.max_score J f B'.
Proof.
  intros HJ Hp. unfold B64.max_score. apply fmaximum_perm.
  - apply Forall_fmap, Forall_forall. intros g _. apply HJ.
  - by apply fmap_Permutation.
Qed.

Lemma for_each_ext {A S} (body body' : S → A → result S) (l : list A) :
  (∀ s x, x ∈ l → body s x = body' s x) →
  ∀ s, for_each body l s = for_each body' l s.
Proof.
  induction l as [|x l IH]; intros H s; [done|].
  simpl. rewrite H by by left. destruct (body' s x) as [s'|e]; [|done].
  simpl. apply IH. intros s'' y Hy. apply H. by right.
Qed.

(** X16: the score of one direction does not depend on the order of the
    files of the other collection: the best match of a file is the
    greatest score, whatever the order in which the scores are met.  The
    order of the files whose scores are summed does matter: the sum is
    rounded at every step, and two orders of the same files can give
    aggregates that differ in the last bit. *)
Theorem directional_order_of_files (A B B' : repo) :
  B ≡ₚ B' →
  (B64.directional A B = B64.directional A B'
   ∧ B64.directional_claude A B = B64.directional_claude A B')
  ∧ ∃ (A1 A2 B0 : repo) (x1 x2 : B64.float),
      A1 ≡ₚ A2 ∧ x1 ≠ x2
      ∧ B64.aggregate A1 B0 = Ok x1 ∧ B64.aggregate A2 B0 = Ok x2
      ∧ B64.aggregate_repo_similarity A1 B0 = Ok x1
      ∧ B64.aggregate_repo_similarity A2 B0 = Ok x2.
Proof.
  intros Hp. split; [split|].
  - unfold B64.directional. f_equal. apply for_each_ext. intros s x _.
    rewrite !best_match_max_score.
    by rewrite (fmax_score_perm B64.jaccard x.2 B B' (fun a b => proj1 (jaccard_score a b)) Hp).
  - unfold B64.directional_claude. f_equal. apply for_each_ext. intros [ws tw] x _.
    rewrite !best_score_max_score.
    by rewrite (fmax_score_perm B64.jaccard_similarity x.2 B B'
                  (fun a b => proj2 (jaccard_score a b)) Hp).
  - exists [("a1", FileInfo {["h2"]} 1); ("a2", FileInfo {["h1"; "h3"; "h4"]} 1);
            ("a3", FileInfo {["h2"; "h3"; "h4"]} 3)],
           [("a3", FileInfo {["h2"; "h3"; "h4"]} 3); ("a2", FileInfo {["h1"; "h3"; "h4"]} 1);
            ("a1", FileInfo {["h2"]} 1)],
           [("b1", FileInfo {["h1"; "h2"; "h3"]} 9)],
           (S754_finite false 8706959279582958 (-54)),
           (S754_finite false 8706959279582959 (-54)).
    split; [apply (reverse_Permutation [_; _; _])|].
    split; [discriminate|].
    repeat split; vm_compute; reflexivity.
Qed.

Lemma directional_order_of_files_witness :
  B64.directional [("a", FileInfo {["h1"; "h2"]} 4)]
    [("b", FileInfo {["h1"]} 2); ("c", FileInfo {["h2"; "h3"]} 3)]
  = B64.directional [("a", FileInfo {["h1"; "h2"]} 4)]
      [("c", FileInfo {["h2"; "h3"]} 3); ("b", FileInfo {["h1"]} 2)].
Proof.
  refine (proj1 (proj1 (directional_order_of_files
                          [("a", FileInfo {["h1"; "h2"]} 4)]
                          [("b", FileInfo {["h1"]} 2); ("c", FileInfo {["h2"; "h3"]} 3)]
                          [("c", FileInfo {["h2"; "h3"]} 3); ("b", FileInfo {["h1"]} 2)] _))).
  apply Permutation_swap.
Defined.
